(** * BiasedSamplingMOMERepertoire: per-cell Pareto fronts and biased sampling

    A shallow embedding of
    [qdax/core/containers/biased_sampling_mome_repertoire.py]:
    the masked front update [_update_masked_pareto_front], the per-front
    sampler [_sample_in_masked_pareto_front], the archive sampler
    [sample] and the default archive that [init] allocates; and of the two
    emitter constructors of [qdax/core/emitters/bandit_mopga_emitter.py].

    Numeric model.  A float array element is a value of [fl]: a finite
    rational, one of the two infinities, or NaN.  The arrays are float32.
    The score amplitude and the sort key [dist_fitnesses] built from it are
    rounded to binary32 at every operation ([fsub32], [fmul32], [fadd32]:
    round to nearest, ties to even, 24-bit significand), because the
    rounded keys decide the order that [jnp.argsort] returns: two fitness
    values whose keys round to the same float are ordered by their
    position, not by their value.  The remaining finite arithmetic (gaps,
    quotients, sums) is exact.  Overflow and underflow are not modelled
    (the exponent is unbounded) and zero carries no sign (a zero divisor
    behaves as +0).  The special values follow IEEE-754: inf - inf, inf * 0,
    0 / 0 and inf / inf are NaN, every comparison with NaN is false.

    A product of a float array with a *boolean* array is compiled, inside the
    jitted functions, to a selection (the element where the flag is set, 0
    elsewhere); it is modelled by [fmask].  Products with a float 0/1 mask
    (the sampler builds its mask as [1.0 - mask]) are ordinary float
    products, [fmul].

    Arrays are lists; a 2-D array is the list of its rows.  Shapes are
    assumed consistent wherever JAX itself would reject the call. *)

From Stdlib Require Import List Arith Lia Bool ZArith QArith Qcanon Lqa.
From Stdlib Require Import Qround Qpower Permutation Sorted.
Import ListNotations.

Local Open Scope nat_scope.

(** ** Floating-point values *)

Inductive fl : Type :=
| Fin (q : Qc)
| PInf
| NInf
| NaN.

Definition qz (z : Z) : Qc := Q2Qc (inject_Z z).
Definition F (z : Z) : fl := Fin (qz z).
Definition Fq (q : Q) : fl := Fin (Q2Qc q).

Definition isnan (x : fl) : bool :=
  match x with NaN => true | _ => false end.

Definition is_finite (x : fl) : bool :=
  match x with Fin _ => true | _ => false end.

Definition fsign (x : fl) : comparison :=
  match x with
  | Fin q => (q ?= 0)%Qc
  | PInf => Gt
  | NInf => Lt
  | NaN => Eq
  end.

Definition sign_mul (s t : comparison) : comparison :=
  match s, t with
  | Eq, _ | _, Eq => Eq
  | Gt, Gt | Lt, Lt => Gt
  | _, _ => Lt
  end.

(** The infinity of a given sign; no sign (0 * inf, 0 / 0) is NaN. *)
Definition finf_of (s : comparison) : fl :=
  match s with Gt => PInf | Lt => NInf | Eq => NaN end.

Definition fneg (x : fl) : fl :=
  match x with
  | Fin q => Fin (- q)%Qc
  | PInf => NInf
  | NInf => PInf
  | NaN => NaN
  end.

Definition fadd (x y : fl) : fl :=
  match x, y with
  | NaN, _ | _, NaN => NaN
  | Fin a, Fin b => Fin (a + b)%Qc
  | PInf, NInf | NInf, PInf => NaN
  | PInf, _ | _, PInf => PInf
  | NInf, _ | _, NInf => NInf
  end.

Definition fsub (x y : fl) : fl := fadd x (fneg y).

Definition fmul (x y : fl) : fl :=
  match x, y with
  | NaN, _ | _, NaN => NaN
  | Fin a, Fin b => Fin (a * b)%Qc
  | _, _ => finf_of (sign_mul (fsign x) (fsign y))
  end.

Definition fdiv (x y : fl) : fl :=
  match x, y with
  | NaN, _ | _, NaN => NaN
  | Fin a, Fin b =>
      if Qc_eq_bool b 0%Qc then finf_of (fsign x) else Fin (a / b)%Qc
  | Fin _, _ => Fin 0%Qc
  | _, Fin b =>
      finf_of (sign_mul (fsign x) (if Qc_eq_bool b 0%Qc then Gt else fsign y))
  | _, _ => NaN
  end.

(** *** Rounding to binary32

    [binade q] is the exponent of the power of two just below a positive
    [q]; a float32 near [q] is a multiple of [ulp32 q], 23 binary places
    below it.  [rne] rounds to the nearest integer, ties to even. *)
Definition pow2 (z : Z) : Q := Qpower 2 z.

Definition binade (q : Q) : Z :=
  let k := (Z.log2 (Qnum q) - Z.log2 (Zpos (Qden q)))%Z in
  if Qle_bool (pow2 k) q then k else (k - 1)%Z.

Definition rne (x : Q) : Z :=
  let f := Qfloor x in
  match (x - inject_Z f ?= 1 # 2)%Q with
  | Lt => f
  | Gt => (f + 1)%Z
  | Eq => if Z.even f then f else (f + 1)%Z
  end.

Definition ulp32 (q : Q) : Q := pow2 (binade q - 23).

Definition round_pos (q : Q) : Q :=
  (inject_Z (rne (q / ulp32 q)) * ulp32 q)%Q.

Definition round32 (q : Qc) : Qc :=
  match (q ?= 0)%Qc with
  | Eq => 0%Qc
  | Gt => Q2Qc (round_pos q)
  | Lt => (- Q2Qc (round_pos (- q)))%Qc
  end.

Definition fround (x : fl) : fl :=
  match x with Fin q => Fin (round32 q) | _ => x end.

(** The float32 operations whose rounding is modelled. *)
Definition fadd32 (x y : fl) : fl := fround (fadd x y).
Definition fsub32 (x y : fl) : fl := fround (fsub x y).
Definition fmul32 (x y : fl) : fl := fround (fmul x y).

(** [==], [<=] and [<] of IEEE-754. *)
Definition feqb (x y : fl) : bool :=
  match x, y with
  | Fin a, Fin b => Qc_eq_bool a b
  | PInf, PInf | NInf, NInf => true
  | _, _ => false
  end.

Definition fleb (x y : fl) : bool :=
  match x, y with
  | NaN, _ | _, NaN => false
  | NInf, _ | _, PInf => true
  | Fin a, Fin b => Qle_bool a b
  | _, _ => false
  end.

Definition fltb (x y : fl) : bool :=
  match x, y with
  | NaN, _ | _, NaN => false
  | Fin a, Fin b => negb (Qle_bool b a)
  | PInf, _ | _, NInf => false
  | _, _ => true
  end.

(** The order [jnp.sort] and [jnp.argsort] use: IEEE order with NaN last. *)
Definition sort_leb (x y : fl) : bool :=
  match x, y with
  | _, NaN => true
  | NaN, _ => false
  | _, _ => fleb x y
  end.

(** bool -> float promotion. *)
Definition b2f (b : bool) : fl := if b then F 1 else F 0.

(** Float times boolean flag inside a jitted function: a selection. *)
Definition fmask (x : fl) (b : bool) : fl := if b then x else F 0.

(** [jnp.nanmax], [jnp.nanmin], [jnp.sum], [jnp.nansum] over one axis. *)
Definition fmax2 (x y : fl) : fl :=
  match x, y with
  | NaN, _ => y
  | _, NaN => x
  | _, _ => if fleb x y then y else x
  end.

Definition fmin2 (x y : fl) : fl :=
  match x, y with
  | NaN, _ => y
  | _, NaN => x
  | _, _ => if fleb x y then x else y
  end.

Definition nanmax (l : list fl) : fl := fold_right fmax2 NaN l.
Definition nanmin (l : list fl) : fl := fold_right fmin2 NaN l.
Definition fsum (l : list fl) : fl := fold_right fadd (F 0) l.
Definition nan_to (d x : fl) : fl := if isnan x then d else x.
Definition nansum (l : list fl) : fl := fsum (map (nan_to (F 0)) l).

(** ** Arrays *)

Abbreviation row := (list fl) (only parsing).
Abbreviation matrix := (list (list fl)) (only parsing).
Abbreviation genotype := (list fl) (only parsing).

(** [x.shape[1]] of a 2-D array with at least one row. *)
Definition shape1 (M : matrix) : nat := length (hd [] M).

(** Column [c] of a 2-D array. *)
Definition column (c : nat) (M : matrix) : list fl :=
  map (fun r => nth c r NaN) M.

(** [jnp.take(x, indices, axis=0)] for in-range indices. *)
Definition take {A} (d : A) (x : list A) (indices : list nat) : list A :=
  map (fun i => nth i x d) indices.

Fixpoint map2 {A B C} (f : A -> B -> C) (l : list A) (l' : list B) : list C :=
  match l, l' with
  | a :: t, b :: t' => f a b :: map2 f t t'
  | _, _ => []
  end.

Definition count_true (l : list bool) : nat := length (filter id l).

(** Python's [a[-n:]]: the last [n] elements, and all of [a] when [n = 0]. *)
Definition lastn {A} (n : nat) (a : list A) : list A :=
  if n =? 0 then a else skipn (length a - n) a.

(** ** Stable sorting

    [jnp.argsort] is a stable sort of the positions by key.  The keys are
    paired with their positions and inserted, from the right, before the
    first element that is not smaller. *)

Section Sorting.
Variable K : Type.
Variable leb : K -> K -> bool.

Fixpoint insert_key (x : K * nat) (l : list (K * nat)) : list (K * nat) :=
    match l with
    | [] => [x]
    | y :: l' =>
        if leb (fst x) (fst y) then x :: l else y :: insert_key x l'
    end.

Definition sort_keys (keys : list K) : list (K * nat) :=
    fold_right insert_key [] (combine keys (seq 0 (length keys))).

Definition argsort (keys : list K) : list nat := map snd (sort_keys keys).
Definition sorted (keys : list K) : list K := map fst (sort_keys keys).
End Sorting.

Arguments insert_key {K} leb x l.
Arguments sort_keys {K} leb keys.
Arguments argsort {K} leb keys.
Arguments sorted {K} leb keys.

Definition argsort_fl : list fl -> list nat := argsort sort_leb.
Definition argsort_nat : list nat -> list nat := argsort Nat.leb.
Definition sort_nat : list nat -> list nat := sorted Nat.leb.

(** ** Pareto dominance oracle *)

(** Modelled from the spec: [qdax.utils.pareto_front] is not among the
    sources.  Entry [a] dominates [b] iff [a] is >= [b] on every objective
    and > on at least one. *)
Definition dominates (a b : row) : bool :=
  forallb id (map2 (fun x y => fleb y x) a b)
  && existsb id (map2 (fun x y => fltb y x) a b).

(** Modelled from the spec: [compute_masked_pareto_front], missing from the
    sources.  A slot is marked iff it is not masked out and no other
    slot that is not masked out dominates it. *)
Definition compute_masked_pareto_front
    (batch_of_criteria : matrix) (mask : list bool) : list bool :=
  map2 (fun x m =>
          negb m
          && negb (existsb id
                     (map2 (fun y my => negb my && dominates y x)
                        batch_of_criteria mask)))
    batch_of_criteria mask.

(** ** Crowding distances: the steps shared by the two call sites

    Both functions carry their own copy of the computation; the helpers
    below are the steps that are literally the same in both, taken one
    objective (one column) at a time. *)

(** One column of [dists]: [srt] followed by +inf, minus -inf followed by
    [srt]. *)
Definition dists_column (srt : list fl) : list fl :=
  map2 fsub (srt ++ [PInf]) (NInf :: srt).

(** [dists[:-1] / score_amplitude] and [dists[1:] / score_amplitude]. *)
Definition dist_to_last_column (amp : fl) (srt : list fl) : list fl :=
  map (fun d => fdiv d amp) (removelast (dists_column srt)).

Definition dist_to_next_column (amp : fl) (srt : list fl) : list fl :=
  map (fun d => fdiv d amp) (tl (dists_column srt)).

(** [srt_fitnesses[:, c] = fitnesses[sorted_index[:, c], c]]. *)
Definition srt_column (col : list fl) (sorted_index : list nat) : list fl :=
  take NaN col sorted_index.

(** [jnp.sum(..., axis=1) / num_objective] over per-column contributions:
    entry [i] of the result sums entry [i] of every column. *)
Definition mean_over_columns (n m : nat) (contrib : list (list fl)) : list fl :=
  map (fun i => fdiv (fsum (map (fun col => nth i col NaN) contrib))
                  (F (Z.of_nat m)))
    (seq 0 n).

(** ** The per-cell front update *)

Section UpdateCrowding.
  (** [all_front_fitnesses] (empty rows at -inf) and [empty_mask]. *)
Variable all_front_fitnesses : matrix.
Variable empty_mask : list bool.

  (** Column [c] of [all_front_fitnesses * mask_dist], where [mask_dist]
      stacks the boolean [~empty_mask]. *)
Definition upd_masked_column (c : nat) : list fl :=
    map2 fmask (column c all_front_fitnesses) (map negb empty_mask).

Definition upd_score_amplitude (c : nat) : fl :=
    fsub32 (nanmax (upd_masked_column c)) (nanmin (upd_masked_column c)).

  (** [all_front_fitnesses + 3 * score_amplitude * ones * mask_dist], each
      operation rounded to float32. *)
Definition upd_dist_fitnesses (c : nat) : list fl :=
    map2 (fun x e =>
            fadd32 x
              (fmask (fmul32 (fmul32 (F 3) (upd_score_amplitude c)) (F 1))
                 (negb e)))
      (column c all_front_fitnesses) empty_mask.

Definition upd_sorted_index (c : nat) : list nat :=
    argsort_fl (upd_dist_fitnesses c).

Definition upd_srt_fitnesses (c : nat) : list fl :=
    srt_column (column c all_front_fitnesses) (upd_sorted_index c).

Definition upd_dist_to_last (c : nat) : list fl :=
    dist_to_last_column (upd_score_amplitude c) (upd_srt_fitnesses c).

Definition upd_dist_to_next (c : nat) : list fl :=
    dist_to_next_column (upd_score_amplitude c) (upd_srt_fitnesses c).

  (** [dist_to_last[j, c] + dist_to_next[j, c]] with
      [j = argsort(sorted_index)]: no end-point substitution here. *)
Definition upd_contribution (c : nat) : list fl :=
    map (fun ji => fadd (nth ji (upd_dist_to_last c) NaN)
                     (nth ji (upd_dist_to_next c) NaN))
      (argsort_nat (upd_sorted_index c)).

  (** [crowding_distances], with NaN replaced by -inf. *)
Definition upd_crowding_distances (num_criteria : nat) : list fl :=
    map (nan_to NInf)
      (mean_over_columns (length all_front_fitnesses) num_criteria
         (map upd_contribution (seq 0 num_criteria))).
End UpdateCrowding.

(** [jnp.any(a == b)] with NumPy broadcasting of the leading dimension;
    [None] when the two leading dimensions cannot be broadcast. *)
Definition row_eq_any (r s : row) : bool := existsb id (map2 feqb r s).

Definition any_equal (a b : matrix) : option bool :=
  if length a =? length b then Some (existsb id (map2 row_eq_any a b))
  else if length b =? 1 then
    Some (existsb (fun r => row_eq_any r (hd [] b)) a)
  else if length a =? 1 then
    Some (existsb (fun s => row_eq_any (hd [] a) s) b)
  else None.

Record front_update : Type := {
  new_front_fitnesses : matrix;
  new_front_genotypes : list genotype;
  new_front_descriptors : matrix;
  new_mask : list bool;
  added_bool : bool;
  removed_count : Z
}.

Section Update.
Variable pareto_front_fitnesses : matrix.
Variable pareto_front_genotypes : list genotype.
Variable pareto_front_descriptors : matrix.
Variable mask : list bool.
Variable new_batch_of_fitnesses : matrix.
Variable new_batch_of_genotypes : list genotype.
Variable new_batch_of_descriptors : matrix.
Variable new_mask_in : list bool.

Definition batch_size : nat := length new_batch_of_fitnesses.
Definition num_criteria : nat := shape1 new_batch_of_fitnesses.
Definition pareto_front_len : nat := length pareto_front_fitnesses.

Definition cat_mask : list bool := mask ++ new_mask_in.
Definition cat_fitnesses : matrix :=
    pareto_front_fitnesses ++ new_batch_of_fitnesses.
Definition cat_genotypes : list genotype :=
    pareto_front_genotypes ++ new_batch_of_genotypes.
Definition cat_descriptors : matrix :=
    pareto_front_descriptors ++ new_batch_of_descriptors.

Definition cat_bool_front : list bool :=
    compute_masked_pareto_front cat_fitnesses cat_mask.

  (** Position [i] where [i] is on the front, the last position elsewhere;
      then sorted. *)
Definition indices : list nat :=
    sort_nat
      (map2 (fun i b => i * Nat.b2n b
                        + Nat.b2n (negb b) * (batch_size + pareto_front_len - 1))
         (seq 0 (pareto_front_len + batch_size)) cat_bool_front).

Definition num_front_elements : nat := count_true cat_bool_front.

Definition new_mask_indices : list bool :=
    map (fun i => Z.ltb 0 (Z.of_nat num_front_elements - Z.of_nat i))
      (seq 0 (batch_size + pareto_front_len)).

Definition new_front_mask : list bool := new_mask_indices.

  (** Fitnesses gathered on the front; rows past the front set to -inf and
      NaN replaced by -inf. *)
Definition all_front_fitnesses : matrix :=
    map2 (fun r b =>
            map (fun x => nan_to NInf (fsub (fmask x b) (fmask PInf (negb b))))
              r)
      (take [] cat_fitnesses indices) new_front_mask.

  (** Every genotype is multiplied by the one flag [new_mask_indices[0]]. *)
Definition all_front_genotypes : list genotype :=
    map (map (fun x => fmask x (nth 0 new_mask_indices false)))
      (take [] cat_genotypes indices).

Definition all_front_descriptors : matrix :=
    map2 (fun r b => map (fun x => fmask x b) r)
      (take [] cat_descriptors indices) new_front_mask.

Definition empty_mask : list bool :=
    map (existsb (fun x => feqb x NInf)) all_front_fitnesses.

Definition crowding_distances : list fl :=
    upd_crowding_distances all_front_fitnesses empty_mask num_criteria.

Definition sorted_distances_index : list nat :=
    argsort_fl crowding_distances.

Definition keep_indices : list nat :=
    lastn pareto_front_len sorted_distances_index.

  (** "turn empty fitnesses back to zero" *)
Definition all_front_fitnesses_zeroed : matrix :=
    map (map (fun x => if feqb x NInf then F 0 else x)) all_front_fitnesses.

(** The returned tuple, given the value of [added_bool]. *)
Definition updated_front (added : bool) : front_update :=
  let out_mask := take false empty_mask keep_indices in
  {| new_front_fitnesses := take [] all_front_fitnesses_zeroed keep_indices;
     new_front_genotypes := take [] all_front_genotypes keep_indices;
     new_front_descriptors := take [] all_front_descriptors keep_indices;
     new_mask := out_mask;
     added_bool := added;
     removed_count :=
       (Z.of_nat (count_true (map negb mask))
        - Z.of_nat (count_true (map negb out_mask))
        - Z.b2z added)%Z |}.

Definition update_masked_pareto_front : option front_update :=
  match any_equal (take [] all_front_fitnesses_zeroed keep_indices)
          new_batch_of_fitnesses with
  | None => None
  | Some added => Some (updated_front added)
  end.
End Update.

(** ** Random draws

    [jax.random.choice(key, a, p=p)] inverts the cumulative distribution at a
    uniform variate of [0, 1).  The key is replaced by the variate [u] it
    yields, so every draw is a function of its explicit random input. *)

Fixpoint cumsum_from (acc : fl) (l : list fl) : list fl :=
  match l with
  | [] => []
  | x :: t => fadd acc x :: cumsum_from (fadd acc x) t
  end.

Definition cumsum (l : list fl) : list fl := cumsum_from (F 0) l.

(** [jnp.searchsorted(a, v)]: the number of entries of [a] below [v]. *)
Definition searchsorted (a : list fl) (v : fl) : nat :=
  length (filter (fun x => fltb x v) a).

Definition choice_index (p : list fl) (u : Qc) : nat :=
  let p_cuml := cumsum p in
  let r := fmul (last p_cuml NaN) (fsub (F 1) (Fin u)) in
  searchsorted p_cuml r.

(** ** The per-front sampler *)

Section SampleCrowding.
  (** [mask] is the float [not_empty_mask]: 1 on a valid slot, 0 on an
      empty one. *)
Variable mask : list fl.
Variable pareto_front_fitnesses : matrix.

Definition smp_masked_column (c : nat) : list fl :=
    map2 fmul (column c pareto_front_fitnesses) mask.

Definition smp_score_amplitude (c : nat) : fl :=
    fsub32 (nanmax (smp_masked_column c)) (nanmin (smp_masked_column c)).

  (** [pareto_front_fitnesses + 3 * score_amplitude * ones * mask_dist],
      each operation rounded to float32. *)
Definition smp_dist_fitnesses (c : nat) : list fl :=
    map2 (fun x mk =>
            fadd32 x
              (fmul32 (fmul32 (fmul32 (F 3) (smp_score_amplitude c)) (F 1))
                 mk))
      (column c pareto_front_fitnesses) mask.

Definition smp_sorted_index (c : nat) : list nat :=
    argsort_fl (smp_dist_fitnesses c).

Definition smp_srt_fitnesses (c : nat) : list fl :=
    srt_column (column c pareto_front_fitnesses) (smp_sorted_index c).

Definition smp_dist_to_last (c : nat) : list fl :=
    dist_to_last_column (smp_score_amplitude c) (smp_srt_fitnesses c).

Definition smp_dist_to_next (c : nat) : list fl :=
    dist_to_next_column (smp_score_amplitude c) (smp_srt_fitnesses c).

  (** "Replace end point distances of inf, with the distance of NN from
      other side" *)
Definition dist_to_last_with_ends (c : nat) : list fl :=
    map2 (fun l n => if feqb l PInf then n else l)
      (smp_dist_to_last c) (smp_dist_to_next c).

Definition dist_to_next_with_ends (c : nat) : list fl :=
    map2 (fun l n => if feqb n PInf then l else n)
      (smp_dist_to_last c) (smp_dist_to_next c).

Definition smp_contribution (c : nat) : list fl :=
    map (fun ji => fadd (nth ji (dist_to_last_with_ends c) NaN)
                     (nth ji (dist_to_next_with_ends c) NaN))
      (argsort_nat (smp_sorted_index c)).

  (** [crowding_distances] with NaN replaced by 0. *)
Definition smp_crowding_distances : list fl :=
    let num_objective := shape1 pareto_front_fitnesses in
    map (nan_to (F 0))
      (mean_over_columns (length pareto_front_fitnesses) num_objective
         (map smp_contribution (seq 0 num_objective))).

Definition compute_crowding_distances : list fl :=
    map (fun d => fdiv d (nansum smp_crowding_distances))
      smp_crowding_distances.
End SampleCrowding.

Definition not_empty_mask (mask : list bool) : list fl :=
  map (fun b => fsub (F 1) (b2f b)) mask.

Definition num_solutions (mask : list bool) : fl := fsum (not_empty_mask mask).

Definition compute_equal_probabilities (mask : list bool) : list fl :=
  map (fun x => fdiv x (fsum (not_empty_mask mask))) (not_empty_mask mask).

(** [jax.lax.cond(num_solutions <= 2, equal, crowding, ...)] *)
Definition selection_probs (pareto_front_fitnesses : matrix)
    (mask : list bool) : list fl :=
  if fleb (num_solutions mask) (F 2)
  then compute_equal_probabilities mask
  else compute_crowding_distances (not_empty_mask mask) pareto_front_fitnesses.

(** The slot the per-front sampler draws, and the genotype stored there. *)
Definition sampled_slot (pareto_front_fitnesses : matrix) (mask : list bool)
    (u : Qc) : nat :=
  choice_index (selection_probs pareto_front_fitnesses mask) u.

Definition sample_in_masked_pareto_front
    (pareto_front_genotypes : list genotype)
    (pareto_front_fitnesses : matrix) (mask : list bool) (u : Qc) : genotype :=
  nth (sampled_slot pareto_front_fitnesses mask u) pareto_front_genotypes
    (repeat NaN (shape1 pareto_front_genotypes)).

(** ** The archive and its sampler *)

Record repertoire : Type := {
  genotypes : list (list genotype);
  fitnesses : list matrix;
  descriptors : list matrix;
  centroids : matrix
}.

Definition repertoire_empty (r : repertoire) : list (list bool) :=
  map (map (existsb (fun x => feqb x NInf))) (fitnesses r).

Definition occupied_cells (r : repertoire) : list bool :=
  map (existsb negb) (repertoire_empty r).

(** [p = occupied_cells / jnp.sum(occupied_cells)] *)
Definition cell_probs (r : repertoire) : list fl :=
  map (fun b => fdiv (b2f b) (F (Z.of_nat (count_true (occupied_cells r)))))
    (occupied_cells r).

(** [x[cells_idx]]: indexing clamps an index past the end. *)
Definition index_clamped {A} (d : A) (x : list A) (i : nat) : A :=
  nth (Nat.min i (length x - 1)) x d.

Definition sampled_cell (r : repertoire) (u : Qc) : nat :=
  choice_index (cell_probs r) u.

(** One entry of [draws] per requested sample: the variate of the cell draw
    and the variate of the draw inside the front. *)
Definition sample (r : repertoire) (draws : list (Qc * Qc)) : list genotype :=
  map (fun d =>
         let cell := sampled_cell r (fst d) in
         sample_in_masked_pareto_front
           (index_clamped [] (genotypes r) cell)
           (index_clamped [] (fitnesses r) cell)
           (index_clamped [] (repertoire_empty r) cell)
           (snd d))
    draws.

(** ** Initialisation

    [init] allocates the default arrays below and hands the first batch to
    the inherited [add], which is not among the sources. *)

Definition default_fitnesses
    (num_centroids pareto_front_max_length num_criteria : nat) : list matrix :=
  repeat (repeat (repeat (fmul (fneg PInf) (F 1)) num_criteria)
            pareto_front_max_length)
    num_centroids.

(** Zeros of shape [(num_centroids, pareto_front_max_length) + x.shape[1:]]. *)
Definition default_genotypes
    (num_centroids pareto_front_max_length : nat) (genotypes : list genotype)
    : list (list genotype) :=
  repeat (repeat (repeat (F 0) (shape1 genotypes)) pareto_front_max_length)
    num_centroids.

Definition default_descriptors
    (num_centroids pareto_front_max_length num_descriptors : nat)
    : list matrix :=
  repeat (repeat (repeat (F 0) num_descriptors) pareto_front_max_length)
    num_centroids.

(** The repertoire "with default values" on which [init] calls [add]. *)
Definition default_repertoire
    (genotypes : list genotype) (fitnesses descriptors centroids : matrix)
    (pareto_front_max_length : nat) : repertoire :=
  let num_criteria := shape1 fitnesses in
  let num_descriptors := shape1 descriptors in
  let num_centroids := length centroids in
  Build_repertoire
    (default_genotypes num_centroids pareto_front_max_length genotypes)
    (default_fitnesses num_centroids pareto_front_max_length num_criteria)
    (default_descriptors num_centroids pareto_front_max_length num_descriptors)
    centroids.

(** * The bandit emitters of [bandit_mopga_emitter.py]

    The two constructors build a tuple of emitters and hand it to
    [BanditMultiEmitter.__init__].  The classes [QualityPGConfig],
    [QualityPGEmitter], [MixingEmitter] and [BanditMultiEmitter] are not
    among the sources: an object is modelled by the arguments its
    constructor receives.  A Python number is an [int] or a [float]. *)

Inductive pynum : Type :=
| PyInt (z : Z)
| PyFloat (q : Q).

(** [k * n] with an integer literal [k], and [x * n] with a float literal
    [x]: the first is an [int], the second a [float]. *)
Definition int_times (k n : Z) : pynum := PyInt (k * n).
Definition float_times (x : Q) (n : Z) : pynum := PyFloat (x * inject_Z n).

Module Bandit.
Record BanditMOPGAConfig : Type := {
  num_objective_functions : nat;
  total_batch_size : Z;
  bandit_scaling_param : Q;
  dynamic_window_size : Z;
  num_critic_training_steps : Z;
  num_pg_training_steps : Z;
  replay_buffer_size : Z;
  critic_hidden_layer_size : list Z;
  critic_learning_rate : Q;
  greedy_learning_rate : Q;
  policy_learning_rate : Q;
  noise_clip : Q;
  policy_noise : Q;
  discount : Q;
  reward_scaling : Q;
  batch_size : Z;
  soft_tau_update : Q;
  policy_delay : Z
}.
End Bandit.

Module QPG.
(** The keyword arguments passed to [QualityPGConfig]. *)
Record QualityPGConfig : Type := {
  num_objective_functions : nat;
  objective_function_index : nat;
  env_batch_size : Z;
  num_critic_training_steps : pynum;
  num_pg_training_steps : pynum;
  replay_buffer_size : Z;
  critic_hidden_layer_size : list Z;
  critic_learning_rate : Q;
  actor_learning_rate : Q;
  policy_learning_rate : Q;
  noise_clip : Q;
  policy_noise : Q;
  discount : Q;
  reward_scaling : Q;
  batch_size : Z;
  soft_tau_update : Q;
  policy_delay : Z
}.
End QPG.

Section Emitters.
(** The policy network, the environment and the variation function are
    passed through unchanged. *)
Variables Network Env Variation : Type.

Inductive emitter : Type :=
| QualityPGEmitter (config : QPG.QualityPGConfig)
    (policy_network : Network) (env : Env)
| MixingEmitter (variation_fn : Variation) (variation_percentage : Q)
    (batch_size : Z).

(** The arguments of [BanditMultiEmitter.__init__]. *)
Record BanditMultiEmitter : Type := {
  emitters : list emitter;
  total_batch_size : Z;
  bandit_scaling_param : Q;
  num_emitters : nat;
  dynamic_window_size : Z
}.

Variable config : Bandit.BanditMOPGAConfig.
Variable policy_network : Network.
Variable env : Env.
Variable variation_fn : Variation.

(** The [QualityPGConfig] of one objective, given the two numbers of
    training steps; every other field is copied from [config]. *)
Definition qpg_config (objective_index : nat)
    (critic_steps pg_steps : pynum) : QPG.QualityPGConfig :=
  {| QPG.num_objective_functions := Bandit.num_objective_functions config;
     QPG.objective_function_index := objective_index;
     QPG.env_batch_size := Bandit.total_batch_size config;
     QPG.num_critic_training_steps := critic_steps;
     QPG.num_pg_training_steps := pg_steps;
     QPG.replay_buffer_size := Bandit.replay_buffer_size config;
     QPG.critic_hidden_layer_size := Bandit.critic_hidden_layer_size config;
     QPG.critic_learning_rate := Bandit.critic_learning_rate config;
     QPG.actor_learning_rate := Bandit.greedy_learning_rate config;
     QPG.policy_learning_rate := Bandit.policy_learning_rate config;
     QPG.noise_clip := Bandit.noise_clip config;
     QPG.policy_noise := Bandit.policy_noise config;
     QPG.discount := Bandit.discount config;
     QPG.reward_scaling := Bandit.reward_scaling config;
     QPG.batch_size := Bandit.batch_size config;
     QPG.soft_tau_update := Bandit.soft_tau_update config;
     QPG.policy_delay := Bandit.policy_delay config |}.

Definition q_emitter (objective_index : nat)
    (critic_steps pg_steps : pynum) : emitter :=
  QualityPGEmitter (qpg_config objective_index critic_steps pg_steps)
    policy_network env.

(** [MixingEmitter(mutation_fn=lambda x, r: (x, r), variation_fn=...,
    variation_percentage=1.0, batch_size=config.total_batch_size)] *)
Definition ga_emitter : emitter :=
  MixingEmitter variation_fn 1 (Bandit.total_batch_size config).

Definition multi_emitter (es : list emitter) : BanditMultiEmitter :=
  {| emitters := es;
     total_batch_size := Bandit.total_batch_size config;
     bandit_scaling_param := Bandit.bandit_scaling_param config;
     num_emitters := length es;
     dynamic_window_size := Bandit.dynamic_window_size config |}.

(** [BanditMOPGAEmitter.__init__]: one emitter per objective, then the GA
    emitter. *)
Definition BanditMOPGAEmitter : BanditMultiEmitter :=
  multi_emitter
    (map (fun objective_index =>
            q_emitter objective_index
              (PyInt (Bandit.num_critic_training_steps config))
              (PyInt (Bandit.num_pg_training_steps config)))
       (seq 0 (Bandit.num_objective_functions config))
     ++ [ga_emitter]).

(** The five emitters that [BanditManyEmitters.__init__] appends for one
    objective. *)
Definition many_emitters_of (objective_index : nat) : list emitter :=
  let critic := Bandit.num_critic_training_steps config in
  let pg := Bandit.num_pg_training_steps config in
  [q_emitter objective_index (PyInt critic) (PyInt pg);
   q_emitter objective_index (int_times 2 critic) (PyInt pg);
   q_emitter objective_index (int_times 5 critic) (PyInt pg);
   q_emitter objective_index (PyInt critic) (float_times (1 # 2) pg);
   q_emitter objective_index (PyInt critic) (int_times 2 pg)].

Definition BanditManyEmitters : BanditMultiEmitter :=
  multi_emitter
    (flat_map many_emitters_of (seq 0 (Bandit.num_objective_functions config))
     ++ [ga_emitter]).

(** The objective an emitter works on, if it is a policy-gradient one. *)
Definition emitter_objective (e : emitter) : option nat :=
  match e with
  | QualityPGEmitter c _ _ => Some (QPG.objective_function_index c)
  | MixingEmitter _ _ _ => None
  end.

(** The batch size an emitter is built with. *)
Definition emitter_batch_size (e : emitter) : Z :=
  match e with
  | QualityPGEmitter c _ _ => QPG.env_batch_size c
  | MixingEmitter _ _ b => b
  end.

Definition emitter_steps (e : emitter) : option (pynum * pynum) :=
  match e with
  | QualityPGEmitter c _ _ =>
      Some (QPG.num_critic_training_steps c, QPG.num_pg_training_steps c)
  | MixingEmitter _ _ _ => None
  end.
End Emitters.

Arguments QualityPGEmitter {Network Env Variation}.
Arguments MixingEmitter {Network Env Variation}.
Arguments emitters {Network Env Variation}.
Arguments num_emitters {Network Env Variation}.
Arguments total_batch_size {Network Env Variation}.
Arguments BanditMOPGAEmitter {Network Env Variation}.
Arguments BanditManyEmitters {Network Env Variation}.
Arguments ga_emitter {Network Env Variation}.
Arguments emitter_objective {Network Env Variation}.
Arguments emitter_batch_size {Network Env Variation}.
Arguments emitter_steps {Network Env Variation}.

(** * Notions used in the statements *)

(** The order of the stable sort on (key, index) pairs: a strictly smaller
    key first, and the smaller index first among keys that compare equal. *)
Definition precedes {K} (leb : K -> K -> bool) (x y : K * nat) : Prop :=
  leb (fst y) (fst x) = false
  \/ (leb (fst x) (fst y) = true /\ snd x < snd y).

(** The positions of the [true] flags of a boolean vector, in increasing
    order, starting the count at [s]. *)
Fixpoint true_positions (s : nat) (bs : list bool) : list nat :=
  match bs with
  | [] => []
  | b :: t => if b then s :: true_positions (S s) t else true_positions (S s) t
  end.

(** The masking step of the update, on a row kept on the front and on a row
    past the front. *)
Definition mask_fitness (b : bool) (x : fl) : fl :=
  nan_to NInf (fsub (fmask x b) (fmask PInf (negb b))).

(** The number of valid (not masked) slots of a front. *)
Definition valid_count (mask : list bool) : nat := count_true (map negb mask).

(** Structural equality of values, rows and matrices, as a boolean. *)
Definition fl_beq (x y : fl) : bool :=
  match x, y with
  | Fin a, Fin b => Qc_eq_bool a b
  | PInf, PInf | NInf, NInf | NaN, NaN => true
  | _, _ => false
  end.

Fixpoint list_beq {A} (eqb : A -> A -> bool) (l l' : list A) : bool :=
  match l, l' with
  | [], [] => true
  | a :: t, b :: t' => eqb a b && list_beq eqb t t'
  | _, _ => false
  end.

(** Every entry that is not masked out has finite fitness. *)
Definition valid_finite (fit : matrix) (mask : list bool) : bool :=
  forallb id (map2 (fun r m => m || forallb is_finite r) fit mask).

(** C1 as stated: an empty slot of the returned front carries fitness -inf
    on every objective and zero-filled genotype and descriptor. *)
Definition sentinel_slot (u : front_update) (p : nat) : Prop :=
  Forall (eq NInf) (nth p (new_front_fitnesses u) [])
  /\ Forall (eq (F 0)) (nth p (new_front_genotypes u) [])
  /\ Forall (eq (F 0)) (nth p (new_front_descriptors u) []).

(** The probability [1 / n]. *)
Definition one_over (n : nat) : fl := Fin (1 / qz (Z.of_nat n))%Qc.

(** Running sums and the total of a list of rationals, from [a]. *)
Fixpoint qcum (a : Qc) (qs : list Qc) : list Qc :=
  match qs with
  | [] => []
  | x :: t => (a + x)%Qc :: qcum (a + x)%Qc t
  end.

Definition qsum (a : Qc) (qs : list Qc) : Qc := fold_left Qcplus qs a.

(** The weight of a cell as a rational. *)
Definition cell_weight (k : nat) (b : bool) : Qc :=
  if b then (1 / qz (Z.of_nat k))%Qc else 0%Qc.

(** The entry before position [p] of a sorted column (-inf before the
    first) and the entry after it (+inf after the last). *)
Definition before (srt : list fl) (p : nat) : fl :=
  match p with 0 => NInf | S p' => nth p' srt NaN end.

Definition after (srt : list fl) (p : nat) : fl :=
  if S p <? length srt then nth (S p) srt NaN else PInf.

(** The two substituted distances at one sorted position, and their sum. *)
Definition with_ends_sum (l n : fl) : fl :=
  fadd (if feqb l PInf then n else l) (if feqb n PInf then l else n).

(** A sorted column has the shape [sorted_column e ys]: [e] empty rows
    at -inf, then the valid values [ys] in increasing order. *)
Definition sorted_column (e : nat) (ys : list Qc) : list fl :=
  repeat NInf e ++ map Fin ys.

(** The normalised gap between the sorted valid values [j] and [j + 1],
    and the contribution of the valid value [j] once the end points are
    substituted. *)
Definition gap (A : Qc) (ys : list Qc) (j : nat) : Qc :=
  ((nth (S j) ys 0 - nth j ys 0) / A)%Qc.

Definition ends_contrib (A : Qc) (ys : list Qc) (j : nat) : Qc :=
  if j =? 0 then (gap A ys 0 + gap A ys 0)%Qc
  else if S j =? length ys then (gap A ys (j - 1) + gap A ys (j - 1))%Qc
       else (gap A ys (j - 1) + gap A ys j)%Qc.

(** A front as the archive stores it: one mask flag per row, every row
    with the same number (at least one) of objectives, empty rows at -inf
    on every objective, valid rows finite. *)
Definition front_well_formed (fit : matrix) (bm : list bool) : bool :=
  (length fit =? length bm) && (1 <=? shape1 fit)
  && forallb id
       (map2 (fun (r : row) (b : bool) =>
                (length r =? shape1 fit)
                && (if b then forallb (fun x => fl_beq x NInf) r
                    else forallb is_finite r))
          fit bm).

(** The sort key of a row: a valid row is shifted by [k] and the sum is
    rounded, an empty row stays at -inf. *)
Definition shift (k : Qc) (x : fl) : fl :=
  match x with Fin y => Fin (round32 (y + k)) | _ => x end.

(** The shift in the sort key of a valid row, for an amplitude [A]: in the
    sampler, where the mask is the float [1.0 - 0], and in the update, where
    it is a boolean. *)
Definition key_shift (A : Qc) : Qc :=
  round32 (round32 (round32 (qz 3 * A) * qz 1) * (qz 1 + - qz 0)).

Definition upd_key_shift (A : Qc) : Qc :=
  round32 (round32 (qz 3 * A) * qz 1).

(** Rounding merges no two keys of a column: a row with a strictly smaller
    value has a strictly smaller sort key. *)
Definition keys_separate (col keys : list fl) : bool :=
  forallb (fun i =>
             forallb (fun j =>
                        implb (fltb (nth i col NaN) (nth j col NaN))
                          (fltb (nth i keys NaN) (nth j keys NaN)))
               (seq 0 (length col)))
    (seq 0 (length col)).

(** No objective of a front has keys merged by rounding, in the sampler. *)
Definition smp_keys_separate (fit : matrix) (bm : list bool) : bool :=
  forallb (fun c =>
             keys_separate (column c fit)
               (smp_dist_fitnesses (not_empty_mask bm) fit c))
    (seq 0 (shape1 fit)).

(** The sum of a list of rationals, and the rational under a finite value. *)
Definition qtotal (gs : list Qc) : Qc := fold_right Qcplus 0%Qc gs.

Definition to_qc (x : fl) : Qc := match x with Fin q => q | _ => 0%Qc end.

(** Every objective has a positive amplitude over the valid rows. *)
Definition positive_amplitudes (fit : matrix) (bm : list bool) : bool :=
  forallb (fun c =>
             match smp_score_amplitude (not_empty_mask bm) fit c with
             | Fin a => negb (Qle_bool a 0)
             | _ => false
             end)
    (seq 0 (shape1 fit)).

(** The per-objective terms that the sampler sums for row [i]. *)
Definition terms (fit : matrix) (bm : list bool) (i : nat) : list fl :=
  map (fun c => nth i (smp_contribution (not_empty_mask bm) fit c) NaN)
    (seq 0 (shape1 fit)).

(** A crowding distance of a valid row in the update: a number or +inf
    (a gap between two values whose keys were merged by rounding can be
    negative). *)
Definition is_distance (x : fl) : bool :=
  match x with
  | Fin _ | PInf => true
  | _ => false
  end.

(** Every row of a 2-D array has [m] entries. *)
Definition uniform_rows (m : nat) (M : matrix) : bool :=
  forallb (fun r : row => length r =? m) M.

(** Every objective of the working buffer has a positive amplitude. *)
Definition upd_positive_amplitudes
    (pff : matrix) (mask : list bool) (nbf : matrix) (nmask : list bool)
    : bool :=
  forallb (fun c =>
             match upd_score_amplitude (all_front_fitnesses pff mask nbf nmask)
                     (empty_mask pff mask nbf nmask) c with
             | Fin a => negb (Qle_bool a 0%Qc)
             | _ => false
             end)
    (seq 0 (num_criteria nbf)).

(** Objective [c] of the working buffer has no keys merged by rounding. *)
Definition upd_keys_separate
    (pff : matrix) (mask : list bool) (nbf : matrix) (nmask : list bool)
    (c : nat) : bool :=
  keys_separate (column c (all_front_fitnesses pff mask nbf nmask))
    (upd_dist_fitnesses (all_front_fitnesses pff mask nbf nmask)
       (empty_mask pff mask nbf nmask) c).

(** The mask [sample] derives for one front. *)
Definition front_mask (fit : matrix) : list bool :=
  map (existsb (fun x => feqb x NInf)) fit.

(** An archive whose genotype and fitness arrays have the same shape and
    whose cells all hold well-formed fronts. *)
Definition archive_well_formed (r : repertoire) : bool :=
  (length (genotypes r) =? length (fitnesses r))
  && forallb id
       (map2 (fun (g : list genotype) (f : matrix) =>
                (length g =? length f) && front_well_formed f (front_mask f))
          (genotypes r) (fitnesses r)).

(** Every front with three or more valid entries has a positive amplitude
    on every objective. *)
Definition archive_amplitudes (r : repertoire) : bool :=
  forallb (fun f : matrix =>
             (valid_count (front_mask f) <=? 2)
             || positive_amplitudes f (front_mask f))
    (fitnesses r).

(** No front with three or more valid entries has keys merged by
    rounding. *)
Definition archive_keys_separate (r : repertoire) : bool :=
  forallb (fun f : matrix =>
             (valid_count (front_mask f) <=? 2)
             || smp_keys_separate f (front_mask f))
    (fitnesses r).

(** * Example fronts and archives *)

(** A small front used to instantiate the statements: capacity 2, two
    objectives, one resident entry and one empty slot, and a batch of one
    candidate that neither dominates nor is dominated. *)
Definition ex_front_fitnesses : matrix := [[F 1; F 5]; [NInf; NInf]].

Definition ex_front_genotypes : list genotype := [[F 11]; [F 0]].

Definition ex_front_descriptors : matrix := [[F 21]; [F 0]].

Definition ex_front_mask : list bool := [false; true].

Definition ex_batch_fitnesses : matrix := [[F 3; F 3]].

Definition ex_batch_genotypes : list genotype := [[F 12]].

Definition ex_batch_descriptors : matrix := [[F 22]].

Definition ex_batch_mask : list bool := [false].

Definition ex_update : front_update :=
  updated_front ex_front_fitnesses ex_front_genotypes ex_front_descriptors
    ex_front_mask ex_batch_fitnesses ex_batch_genotypes ex_batch_descriptors
    ex_batch_mask true.

(** A front of capacity 2 with both slots empty, as [init] allocates it,
    and the first candidate routed to it. *)
Definition ex_empty_fitnesses : matrix := [[NInf; NInf]; [NInf; NInf]].

Definition ex_empty_genotypes : list genotype := [[F 0]; [F 0]].

Definition ex_empty_descriptors : matrix := [[F 0]; [F 0]].

Definition ex_empty_mask : list bool := [true; true].

Definition ex_first_update : front_update :=
  updated_front ex_empty_fitnesses ex_empty_genotypes ex_empty_descriptors
    ex_empty_mask ex_batch_fitnesses ex_batch_genotypes ex_batch_descriptors
    ex_batch_mask true.

(** Two valid entries with fitness far apart, and one empty slot. *)
Definition ex_pair_fitnesses : matrix :=
  [[F 1; F 1000000]; [NInf; NInf]; [F 500; F 2]].

Definition ex_pair_mask : list bool := [false; true; false].

(** A full front of two mutually non-dominated entries, and a candidate
    (1, 2) that the resident (3, 3) dominates strictly on both objectives
    but that shares its first coordinate with the resident (1, 5). *)
Definition ex_full_fitnesses : matrix := [[F 1; F 5]; [F 3; F 3]].

Definition ex_full_genotypes : list genotype := [[F 11]; [F 13]].

Definition ex_full_descriptors : matrix := [[F 21]; [F 23]].

Definition ex_full_mask : list bool := [false; false].

Definition ex_dominated_fitnesses : matrix := [[F 1; F 2]].

Definition ex_dominated_update : front_update :=
  updated_front ex_full_fitnesses ex_full_genotypes ex_full_descriptors
    ex_full_mask ex_dominated_fitnesses ex_batch_genotypes
    ex_batch_descriptors ex_batch_mask true.

(** The spec's truncation scenario: capacity 2, residents (0, 10) and
    (5, 5), candidate (10, 0). *)
Definition ex_trunc_fitnesses : matrix := [[F 0; F 10]; [F 5; F 5]].

Definition ex_trunc_mask : list bool := [false; false].

Definition ex_trunc_batch : matrix := [[F 10; F 0]].

(** Capacity 1: the resident (0, 1) and the candidate (1, 0) do not
    dominate each other and both get distance +inf. *)
Definition ex_tie_fitnesses : matrix := [[F 0; F 1]].

Definition ex_tie_mask : list bool := [false].

Definition ex_tie_batch : matrix := [[F 1; F 0]].

(** The spec's re-add test: one objective, capacity 4, the single
    resident with fitness 5 in the last slot, and the same individual
    offered again. *)
Definition ex_single_fitnesses : matrix := [[NInf]; [NInf]; [NInf]; [F 5]].

Definition ex_single_genotypes : list genotype := [[F 0]; [F 0]; [F 0]; [F 7]].

Definition ex_single_descriptors : matrix := [[F 0]; [F 0]; [F 0]; [F 9]].

Definition ex_single_mask : list bool := [true; true; true; false].

Definition ex_readd_update : front_update :=
  updated_front ex_single_fitnesses ex_single_genotypes ex_single_descriptors
    ex_single_mask [[F 5]] [[F 7]] [[F 9]] [false] true.

(** An archive of two cells and capacity 2: cell 0 is empty, cell 1 holds
    one entry. *)
Definition ex_archive : repertoire :=
  {| genotypes := [[[F 0]; [F 0]]; [[F 7]; [F 0]]];
     fitnesses := [[[NInf]; [NInf]]; [[F 3]; [NInf]]];
     descriptors := [[[F 0]; [F 0]]; [[F 9]; [F 0]]];
     centroids := [[F 0]; [F 10]] |}.

Definition ex_draws : list (Qc * Qc) :=
  [(Q2Qc 0, Q2Qc 0); (Q2Qc (1 # 2), Q2Qc (9 # 10))].

(** The same archive with no entry at all. *)
Definition ex_empty_archive : repertoire :=
  {| genotypes := [[[F 0]; [F 0]]; [[F 0]; [F 0]]];
     fitnesses := [[[NInf]; [NInf]]; [[NInf]; [NInf]]];
     descriptors := [[[F 0]; [F 0]]; [[F 0]; [F 0]]];
     centroids := [[F 0]; [F 10]] |}.

(** Four valid entries on two objectives and one empty slot. *)
Definition ex_crowd_fitnesses : matrix :=
  [[F 0; F 10]; [NInf; NInf]; [F 2; F 5]; [F 10; F 0]; [F 3; F 4]].

Definition ex_crowd_mask : list bool := [false; true; false; false; false].

(** Three distinct, mutually non-dominated entries whose third objective
    is the same for all. *)
Definition ex_flat_fitnesses : matrix :=
  [[F 1; F 2; F 0]; [F 2; F 1; F 0]; [Fq (3 # 2); Fq (3 # 2); F 0]].

Definition ex_flat_mask : list bool := [false; false; false].

(** A front of capacity 3 and a batch of two candidates: the two sizes
    cannot be broadcast against each other. *)
Definition ex_three_fitnesses : matrix := [[F 1; F 5]; [F 3; F 3]; [F 5; F 1]].

Definition ex_three_genotypes : list genotype := [[F 11]; [F 13]; [F 15]].

Definition ex_three_descriptors : matrix := [[F 21]; [F 23]; [F 25]].

Definition ex_three_mask : list bool := [false; false; false].

Definition ex_two_fitnesses : matrix := [[F 2; F 4]; [F 4; F 2]].

Definition ex_two_genotypes : list genotype := [[F 12]; [F 14]].

Definition ex_two_descriptors : matrix := [[F 22]; [F 24]].

Definition ex_two_mask : list bool := [false; false].

(** A full front of capacity 4 on two objectives and a candidate that
    none of its entries dominates: five entries for four slots. *)
Definition ex_spread_fitnesses : matrix :=
  [[F 0; F 10]; [F 2; F 8]; [F 5; F 5]; [F 10; F 0]].

Definition ex_spread_genotypes : list genotype :=
  [[F 31]; [F 32]; [F 33]; [F 34]].

Definition ex_spread_descriptors : matrix := [[F 41]; [F 42]; [F 43]; [F 44]].

Definition ex_spread_mask : list bool := [false; false; false; false].

Definition ex_spread_batch : matrix := [[F 7; F 3]].

Definition ex_spread_update : front_update :=
  updated_front ex_spread_fitnesses ex_spread_genotypes ex_spread_descriptors
    ex_spread_mask ex_spread_batch ex_batch_genotypes ex_batch_descriptors
    ex_batch_mask true.

(** The genotypes stored with the front of four valid entries. *)
Definition ex_crowd_genotypes : list genotype :=
  [[F 51]; [F 0]; [F 53]; [F 54]; [F 55]].

(** An archive of two cells and capacity 5: cell 0 is empty, cell 1 holds
    the front of four valid entries, so that a draw in it goes through the
    crowding branch of the per-front sampler. *)
Definition ex_crowd_archive : repertoire :=
  {| genotypes := [repeat [F 0] 5; ex_crowd_genotypes];
     fitnesses := [repeat [NInf; NInf] 5; ex_crowd_fitnesses];
     descriptors := [repeat [F 0] 5; repeat [F 0] 5];
     centroids := [[F 0]; [F 10]] |}.

Definition ex_crowd_draws : list (Qc * Qc) :=
  [(Q2Qc 0, Q2Qc 0); (Q2Qc (1 # 2), Q2Qc (1 # 2));
   (Q2Qc (9 # 10), Q2Qc (1 # 10))].

(** * Properties *)

(** ** Lists *)

Lemma map2_length {A B C} (f : A -> B -> C) l l' :
  length (map2 f l l') = Nat.min (length l) (length l').
Proof.
  revert l'; induction l as [|a l IH]; intros [|b l']; simpl; auto.
Qed.

Lemma map2_nth {A B C} (f : A -> B -> C) l l' i da db dc :
  i < length l -> i < length l' ->
  nth i (map2 f l l') dc = f (nth i l da) (nth i l' db).
Proof.
  revert l' i; induction l as [|a l IH]; intros [|b l'] [|i]; simpl;
    intros; try lia; auto.
  apply IH; lia.
Qed.

Lemma take_length {A} (d : A) x ix : length (take d x ix) = length ix.
Proof. apply length_map. Qed.

Lemma take_nth {A} (d : A) x ix i :
  i < length ix -> nth i (take d x ix) d = nth (nth i ix 0) x d.
Proof.
  intros Hi. unfold take.
  rewrite (nth_indep _ d (nth (length x) x d)) by (rewrite length_map; lia).
  rewrite (map_nth (fun j => nth j x d) ix (length x)).
  f_equal. apply nth_indep; auto.
Qed.

Lemma lastn_length {A} n (a : list A) :
  1 <= n <= length a -> length (lastn n a) = n.
Proof.
  intros H. unfold lastn. destruct (Nat.eqb_spec n 0); [lia|].
  rewrite length_skipn. lia.
Qed.

Lemma lastn_incl {A} n (a : list A) x : In x (lastn n a) -> In x a.
Proof.
  unfold lastn. destruct (n =? 0); auto.
  intros H. rewrite <- (firstn_skipn (length a - n) a).
  apply in_or_app; auto.
Qed.

Lemma NoDup_skipn {A} n (a : list A) : NoDup a -> NoDup (skipn n a).
Proof.
  intros H. rewrite <- (firstn_skipn n a) in H.
  apply NoDup_app_remove_l in H; auto.
Qed.

Lemma lastn_NoDup {A} n (a : list A) : NoDup a -> NoDup (lastn n a).
Proof.
  unfold lastn. destruct (n =? 0); auto using NoDup_skipn.
Qed.

Lemma NoDup_nth_neq {A} (l : list A) d i j :
  NoDup l -> i < length l -> j < length l -> i <> j ->
  nth i l d <> nth j l d.
Proof.
  intros Hnd Hi Hj Hij Heq. apply Hij.
  apply (proj1 (NoDup_nth l d) Hnd); auto.
Qed.

Lemma count_true_le (l : list bool) : count_true l <= length l.
Proof. apply filter_length_le. Qed.

Lemma combine_seq_snd {A} (l : list A) s :
  map snd (combine l (seq s (length l))) = seq s (length l).
Proof.
  revert s; induction l as [|a l IH]; intros s; simpl; auto.
  f_equal; apply IH.
Qed.

Lemma combine_seq_fst {A} (l : list A) s :
  map fst (combine l (seq s (length l))) = l.
Proof.
  revert s; induction l as [|a l IH]; intros s; simpl; auto.
  f_equal; apply IH.
Qed.

(** ** The stable sort *)

Lemma combine_seq_In {K} (keys : list K) s d k i :
  In (k, i) (combine keys (seq s (length keys))) ->
  s <= i < s + length keys /\ nth (i - s) keys d = k.
Proof.
  revert s; induction keys as [|k0 ks IH]; simpl; intros s H; [tauto|].
  destruct H as [H|H].
  - inversion H; subst. rewrite Nat.sub_diag. split; auto; lia.
  - apply IH in H. destruct H as [H1 H2]. split; [lia|].
    destruct (i - s) as [|n] eqn:E; [lia|].
    replace (i - S s) with n in H2 by lia. exact H2.
Qed.

Section SortingFacts.
Variable K : Type.
Variable leb : K -> K -> bool.

Lemma insert_key_perm x l : Permutation (insert_key leb x l) (x :: l).
Proof.
    induction l as [|y l IH]; simpl; auto.
    destruct (leb (fst x) (fst y)); auto.
    rewrite IH. apply perm_swap.
Qed.

Lemma sort_keys_perm keys :
    Permutation (sort_keys leb keys) (combine keys (seq 0 (length keys))).
Proof.
    unfold sort_keys.
    induction (combine keys (seq 0 (length keys))) as [|x l IH]; simpl; auto.
    rewrite insert_key_perm. auto.
Qed.

Lemma argsort_perm keys :
    Permutation (argsort leb keys) (seq 0 (length keys)).
Proof.
    unfold argsort. rewrite (sort_keys_perm keys). now rewrite combine_seq_snd.
Qed.

Lemma sorted_perm keys : Permutation (sorted leb keys) keys.
Proof.
    unfold sorted. rewrite (sort_keys_perm keys). now rewrite combine_seq_fst.
Qed.

Lemma argsort_length keys : length (argsort leb keys) = length keys.
Proof.
    rewrite (Permutation_length (argsort_perm keys)). apply length_seq.
Qed.

Lemma sorted_length keys : length (sorted leb keys) = length keys.
Proof. apply Permutation_length, sorted_perm. Qed.

Lemma argsort_NoDup keys : NoDup (argsort leb keys).
Proof.
    eapply Permutation_NoDup; [symmetry; apply argsort_perm|apply seq_NoDup].
Qed.

Lemma argsort_In keys i : In i (argsort leb keys) <-> i < length keys.
Proof.
    split; intros H.
    - apply (Permutation_in _ (argsort_perm keys)) in H.
      apply in_seq in H; lia.
    - apply (Permutation_in _ (Permutation_sym (argsort_perm keys))).
      apply in_seq; lia.
Qed.

  (** Every pair of the sorted list carries the key of its position. *)
Lemma sort_keys_key keys d x :
    In x (sort_keys leb keys) ->
    snd x < length keys /\ fst x = nth (snd x) keys d.
Proof.
    intros H. apply (Permutation_in _ (sort_keys_perm keys)) in H.
    destruct x as [k i]. apply (combine_seq_In _ _ d) in H. simpl.
    rewrite Nat.sub_0_r in H. destruct H as [H1 H2]. split; [lia|auto].
Qed.

Lemma sort_keys_length keys : length (sort_keys leb keys) = length keys.
Proof.
    rewrite (Permutation_length (sort_keys_perm keys)).
    rewrite length_combine, length_seq. lia.
Qed.

  (** The sorted keys are the keys read through [argsort]. *)
Lemma sorted_argsort keys d :
    sorted leb keys = take d keys (argsort leb keys).
Proof.
    unfold sorted, argsort, take. rewrite map_map.
    apply map_ext_in. intros x Hx.
    now destruct (sort_keys_key keys d x Hx).
Qed.
End SortingFacts.

(** Order and stability of the sort, for a total and transitive [leb]. *)
Section StableSort.
Variable K : Type.
Variable leb : K -> K -> bool.
Hypothesis leb_total : forall a b, leb a b = false -> leb b a = true.
Hypothesis leb_trans :
    forall a b c, leb a b = true -> leb b c = true -> leb a c = true.

Lemma insert_key_sorted x m :
    StronglySorted (precedes leb) m ->
    Forall (fun y => snd x < snd y) m ->
    StronglySorted (precedes leb) (insert_key leb x m).
Proof.
    induction m as [|y m IH]; simpl; intros Hs Hx.
    - repeat constructor.
    - inversion Hs as [|? ? Hs' Hy]; subst.
      inversion Hx as [|? ? Hxy Hx']; subst.
      destruct (leb (fst x) (fst y)) eqn:E.
      + constructor; auto. constructor; [right; auto|].
        rewrite Forall_forall in *. intros z Hz.
        right. split; [|auto].
        destruct (Hy z Hz) as [H|[H _]]; eauto.
      + constructor; auto.
        eapply Permutation_Forall; [symmetry; apply insert_key_perm|].
        constructor; auto. left; auto.
Qed.

Lemma fold_insert_sorted (l : list (K * nat)) :
    StronglySorted (fun x y => snd x < snd y) l ->
    StronglySorted (precedes leb) (fold_right (insert_key leb) [] l).
Proof.
    induction l as [|x l IH]; simpl; intros H; [constructor|].
    inversion H as [|? ? Hl Hx]; subst.
    apply insert_key_sorted; auto.
    assert (P : Permutation (fold_right (insert_key leb) [] l) l).
    { clear. induction l as [|y l IH]; simpl; auto.
      rewrite insert_key_perm; auto. }
    eapply Permutation_Forall; [symmetry; exact P|exact Hx].
Qed.

Lemma combine_seq_sorted (keys : list K) s :
    StronglySorted (fun x y : K * nat => snd x < snd y)
      (combine keys (seq s (length keys))).
Proof.
    revert s; induction keys as [|k ks IH]; intros s; simpl; constructor; auto.
    rewrite Forall_forall. intros [k' i] Hi.
    apply (combine_seq_In _ _ k) in Hi. simpl. lia.
Qed.

Lemma sort_keys_sorted keys : StronglySorted (precedes leb) (sort_keys leb keys).
Proof. apply fold_insert_sorted, combine_seq_sorted. Qed.

Lemma StronglySorted_nth {A} (R : A -> A -> Prop) l d p q :
    StronglySorted R l -> p < q < length l -> R (nth p l d) (nth q l d).
Proof.
    intros Hs. revert p q. induction Hs as [|a l Hs IH Ha]; simpl; intros p q H.
    - lia.
    - destruct q as [|q]; [lia|]. destruct p as [|p].
      + rewrite Forall_forall in Ha. apply Ha, nth_In. lia.
      + apply IH. lia.
Qed.

  (** Positions [p < q] of [argsort keys]: the key at [p] is strictly
      smaller, or the keys tie and the position listed at [p] is the
      lower one. *)
Lemma argsort_stable keys d p q :
    p < q < length keys ->
    let i := nth p (argsort leb keys) 0 in
    let j := nth q (argsort leb keys) 0 in
    leb (nth j keys d) (nth i keys d) = false
    \/ (leb (nth i keys d) (nth j keys d) = true /\ i < j).
Proof.
    intros H i j.
    pose proof (sort_keys_sorted keys) as Hs.
    pose proof (sort_keys_length K leb keys) as Hl.
    assert (Hp : forall r, r < length keys ->
              nth r (argsort leb keys) 0 = snd (nth r (sort_keys leb keys) (d, 0))
              /\ fst (nth r (sort_keys leb keys) (d, 0))
                 = nth (nth r (argsort leb keys) 0) keys d).
    { intros r Hr. unfold argsort.
      rewrite (nth_indep _ 0 (snd (d, 0))) by (rewrite length_map; lia).
      rewrite map_nth. split; auto.
      apply (sort_keys_key K leb keys d), nth_In. lia. }
    destruct (Hp p ltac:(lia)) as [Hp1 Hp2].
    destruct (Hp q ltac:(lia)) as [Hq1 Hq2].
    pose proof (StronglySorted_nth (precedes leb) _ (d, 0) p q Hs ltac:(lia)) as R.
    unfold precedes in R. subst i j.
    rewrite Hp2, Hq2, <- Hp1, <- Hq1 in R. exact R.
Qed.
End StableSort.

Lemma sorted_nat_unique (l1 l2 : list nat) :
  StronglySorted le l1 -> StronglySorted le l2 -> Permutation l1 l2 -> l1 = l2.
Proof.
  revert l2; induction l1 as [|a l1 IH]; intros l2 H1 H2 P.
  - apply Permutation_nil in P; auto.
  - destruct l2 as [|b l2]; [symmetry in P; apply Permutation_nil in P; discriminate|].
    inversion H1 as [|? ? H1' Ha]; inversion H2 as [|? ? H2' Hb]; subst.
    rewrite Forall_forall in Ha, Hb.
    assert (a = b).
    { assert (In b (a :: l1)) as [->|Hb1]
        by (eapply Permutation_in; [symmetry; exact P|left; auto]); auto.
      assert (In a (b :: l2)) as [->|Ha2]
        by (eapply Permutation_in; [exact P|left; auto]); auto.
      apply Nat.le_antisymm; auto. }
    subst b. f_equal. apply IH; auto.
    eapply Permutation_cons_inv; eauto.
Qed.

Lemma sort_nat_sorted (l : list nat) : StronglySorted le (sort_nat l).
Proof.
  unfold sort_nat, sorted.
  assert (Hs := sort_keys_sorted nat Nat.leb
    ltac:(intros a b H; apply Nat.leb_gt in H; apply Nat.leb_le; lia)
    ltac:(intros a b c H1 H2; apply Nat.leb_le in H1, H2; apply Nat.leb_le; lia)
    l).
  induction Hs as [|x m Hs IH Hx]; simpl; constructor; auto.
  rewrite Forall_forall in *. intros k Hk. apply in_map_iff in Hk.
  destruct Hk as [y [<- Hy]].
  destruct (Hx y Hy) as [H|[H _]];
    [apply Nat.leb_gt in H; lia|apply Nat.leb_le in H; lia].
Qed.

Lemma sort_nat_eq (l target : list nat) :
  StronglySorted le target -> Permutation l target -> sort_nat l = target.
Proof.
  intros Hs P. apply sorted_nat_unique; auto using sort_nat_sorted.
  unfold sort_nat. rewrite sorted_perm. exact P.
Qed.

Lemma true_positions_length s bs :
  length (true_positions s bs) = count_true bs.
Proof.
  revert s; induction bs as [|[|] t IH]; intros s; simpl; auto.
  unfold count_true in *. simpl. f_equal. apply IH.
Qed.

Lemma true_positions_In s bs i :
  In i (true_positions s bs) <->
  s <= i < s + length bs /\ nth (i - s) bs false = true.
Proof.
  revert s; induction bs as [|b t IH]; intros s; simpl.
  - split; [tauto|lia].
  - assert (E : forall j, S s <= j -> j - s = S (j - S s)) by (intros; lia).
    destruct b; simpl; rewrite IH; split.
    + intros [<-|[H1 H2]]; [rewrite Nat.sub_diag; split; auto; lia|].
      rewrite (E i) by lia. split; auto; lia.
    + intros [H1 H2]. destruct (Nat.eq_dec s i); auto. right.
      rewrite (E i) in H2 by lia. split; auto; lia.
    + intros [H1 H2]. rewrite (E i) by lia. split; auto; lia.
    + intros [H1 H2]. destruct (Nat.eq_dec s i) as [->|].
      * rewrite Nat.sub_diag in H2. discriminate.
      * rewrite (E i) in H2 by lia. split; auto; lia.
Qed.

Lemma true_positions_sorted s bs : StronglySorted lt (true_positions s bs).
Proof.
  revert s; induction bs as [|[|] t IH]; intros s; simpl; auto; constructor; auto.
  rewrite Forall_forall. intros i Hi. apply true_positions_In in Hi. lia.
Qed.

Lemma true_positions_NoDup s bs : NoDup (true_positions s bs).
Proof.
  induction (true_positions_sorted s bs) as [|a l Hs IH Ha]; constructor; auto.
  intros Hin. rewrite Forall_forall in Ha. apply Ha in Hin. lia.
Qed.

Lemma compaction_perm s c bs :
  Permutation
    (map2 (fun i b => i * Nat.b2n b + Nat.b2n (negb b) * c)
       (seq s (length bs)) bs)
    (true_positions s bs ++ repeat c (length bs - count_true bs)).
Proof.
  revert s; induction bs as [|b t IH]; intros s; [simpl; auto|].
  pose proof (count_true_le t) as Hle.
  destruct b; unfold count_true in *; cbn -[Nat.sub].
  - rewrite Nat.mul_1_r, Nat.add_0_r, Nat.sub_succ. constructor. apply IH.
  - rewrite Nat.mul_0_r, Nat.add_0_r, Nat.sub_succ_l by lia.
    cbn. apply Permutation_cons_app. apply IH.
Qed.

Lemma compaction_sorted c bs :
  length bs <= S c ->
  StronglySorted le (true_positions 0 bs ++ repeat c (length bs - count_true bs)).
Proof.
  intros Hc.
  assert (G : forall l k, StronglySorted lt l -> Forall (fun i => i <= c) l ->
            StronglySorted le (l ++ repeat c k)).
  { intros l k Hs. induction Hs as [|a l Hs IH Ha]; simpl; intros Hl.
    - induction k; simpl; constructor; auto.
      rewrite Forall_forall. intros x Hx. apply repeat_spec in Hx. lia.
    - inversion Hl; subst. constructor; auto.
      apply Forall_app. split.
      + eapply Forall_impl; [|exact Ha]. simpl. intros; lia.
      + rewrite Forall_forall. intros x Hx. apply repeat_spec in Hx. lia. }
  apply G; [apply true_positions_sorted|].
  rewrite Forall_forall. intros i Hi. apply true_positions_In in Hi. lia.
Qed.

(** ** The dominance oracle *)

Lemma existsb_map2_false {A B} (f : A -> B -> bool) l l' da db j :
  existsb id (map2 f l l') = false ->
  j < length l -> j < length l' -> f (nth j l da) (nth j l' db) = false.
Proof.
  revert l' j; induction l as [|a l IH]; intros [|b l'] j; simpl;
    intros H Hj Hj'; try lia.
  apply orb_false_iff in H. destruct H as [H1 H2].
  destruct j; auto. apply IH; auto; lia.
Qed.

Lemma oracle_length M mask :
  length (compute_masked_pareto_front M mask)
  = Nat.min (length M) (length mask).
Proof. apply map2_length. Qed.

(** A marked slot is not masked out, and no slot that is not masked out
    dominates it. *)
Lemma oracle_marked M mask i :
  nth i (compute_masked_pareto_front M mask) false = true ->
  i < length M /\ i < length mask /\ nth i mask true = false
  /\ forall j, j < length M -> j < length mask -> nth j mask true = false ->
       dominates (nth j M []) (nth i M []) = false.
Proof.
  intros H.
  assert (Hi : i < Nat.min (length M) (length mask)).
  { rewrite <- oracle_length. destruct (Nat.lt_ge_cases i
      (length (compute_masked_pareto_front M mask))); auto.
    rewrite nth_overflow in H by auto. discriminate. }
  unfold compute_masked_pareto_front in H.
  rewrite (map2_nth _ _ _ _ [] true) in H by lia.
  apply andb_true_iff in H. destruct H as [H1 H2].
  apply negb_true_iff in H1, H2.
  repeat split; try lia; auto.
  intros j Hj Hj' Hm.
  pose proof (existsb_map2_false _ _ _ [] true j H2 Hj Hj') as E.
  simpl in E. rewrite Hm in E. exact E.
Qed.

(** ** Float facts *)

Lemma qz_0 : qz 0 = 0%Qc.
Proof. reflexivity. Qed.

Lemma fsub_0_r x : fsub x (F 0) = x.
Proof.
  destruct x; simpl; auto. f_equal. unfold F. rewrite qz_0. ring.
Qed.

Lemma feqb_NInf x : feqb x NInf = true <-> x = NInf.
Proof. destruct x; simpl; split; congruence. Qed.

Lemma mask_fitness_false x : mask_fitness false x = NInf.
Proof. reflexivity. Qed.

Lemma mask_fitness_true x :
  mask_fitness true x = if isnan x then NInf else x.
Proof.
  unfold mask_fitness. simpl fmask. rewrite fsub_0_r. reflexivity.
Qed.

Lemma mask_fitness_true_row (r : row) :
  existsb (fun x => feqb x NInf) (map (mask_fitness true) r) = false ->
  map (mask_fitness true) r = r.
Proof.
  induction r as [|x r IH]; simpl; auto.
  intros H. apply orb_false_iff in H. destruct H as [H1 H2].
  rewrite IH by auto. f_equal.
  rewrite mask_fitness_true in *. destruct x; simpl in *; congruence.
Qed.

Lemma zeroed_row_id (r : row) :
  existsb (fun x => feqb x NInf) r = false ->
  map (fun x => if feqb x NInf then F 0 else x) r = r.
Proof.
  induction r as [|x r IH]; simpl; auto.
  intros H. apply orb_false_iff in H. destruct H as [H1 H2].
  rewrite H1, IH; auto.
Qed.

(** ** Structure of the update *)

Section UpdateFacts.
Variables pff pfd : matrix.
Variable pfg : list genotype.
Variable mask : list bool.
Variables nbf nbd : matrix.
Variable nbg : list genotype.
Variable nmask : list bool.

Hypothesis mask_shape : length mask = length pff.
Hypothesis new_mask_shape : length nmask = length nbf.

Local Abbreviation L := (length pff).
Local Abbreviation B := (length nbf).
Local Abbreviation front := (cat_bool_front pff mask nbf nmask).
Local Abbreviation nf := (num_front_elements pff mask nbf nmask).
Local Abbreviation idx := (indices pff mask nbf nmask).
Local Abbreviation catf := (cat_fitnesses pff nbf).
Local Abbreviation catm := (cat_mask mask nmask).
Local Abbreviation aff := (all_front_fitnesses pff mask nbf nmask).
Local Abbreviation emask := (empty_mask pff mask nbf nmask).
Local Abbreviation keep := (keep_indices pff mask nbf nmask).

Lemma cat_fitnesses_length : length catf = L + B.
Proof. unfold cat_fitnesses. apply length_app. Qed.

Lemma cat_mask_length : length catm = L + B.
Proof. unfold cat_mask. rewrite length_app. lia. Qed.

Lemma cat_bool_front_length : length front = L + B.
Proof.
    unfold cat_bool_front. rewrite oracle_length.
    rewrite cat_fitnesses_length, cat_mask_length. lia.
Qed.

Lemma num_front_elements_le : nf <= L + B.
Proof.
    unfold num_front_elements. rewrite <- cat_bool_front_length.
    apply count_true_le.
Qed.

  (** The sorted index vector: the positions on the front in increasing
      order, then the last position repeated. *)
Lemma indices_eq :
    idx = true_positions 0 front ++ repeat (B + L - 1) (L + B - nf).
Proof.
    unfold indices, batch_size, pareto_front_len, num_front_elements.
    rewrite <- cat_bool_front_length.
    apply sort_nat_eq.
    - apply compaction_sorted. rewrite cat_bool_front_length. lia.
    - apply compaction_perm.
Qed.

Lemma indices_length : length idx = L + B.
Proof.
    rewrite indices_eq, length_app, repeat_length, true_positions_length.
    pose proof num_front_elements_le. unfold num_front_elements in *. lia.
Qed.

Lemma indices_front k :
    k < nf -> nth k idx 0 = nth k (true_positions 0 front) 0.
Proof.
    intros Hk. rewrite indices_eq, app_nth1; auto.
    rewrite true_positions_length. exact Hk.
Qed.

Lemma indices_marked k :
    k < nf -> nth (nth k idx 0) front false = true.
Proof.
    intros Hk. rewrite indices_front by auto.
    assert (H : In (nth k (true_positions 0 front) 0) (true_positions 0 front))
      by (apply nth_In; rewrite true_positions_length; exact Hk).
    apply true_positions_In in H. rewrite Nat.sub_0_r in H. tauto.
Qed.

Lemma indices_injective k k' :
    k < nf -> k' < nf -> k <> k' -> nth k idx 0 <> nth k' idx 0.
Proof.
    intros Hk Hk' Hne. rewrite !indices_front by auto.
    apply NoDup_nth_neq; auto using true_positions_NoDup;
      rewrite true_positions_length; auto.
Qed.

Lemma new_mask_indices_length :
    length (new_mask_indices pff mask nbf nmask) = L + B.
Proof.
    unfold new_mask_indices, batch_size, pareto_front_len.
    rewrite length_map, length_seq. lia.
Qed.

Lemma new_mask_indices_nth k :
    k < L + B ->
    nth k (new_mask_indices pff mask nbf nmask) false = (k <? nf).
Proof.
    intros Hk. unfold new_mask_indices, batch_size, pareto_front_len.
    rewrite (nth_indep _ false ((fun i => Z.ltb 0 (Z.of_nat nf - Z.of_nat i)) 0))
      by (rewrite length_map, length_seq; lia).
    rewrite (map_nth (fun i => Z.ltb 0 (Z.of_nat nf - Z.of_nat i))).
    rewrite seq_nth by lia. simpl.
    destruct (Nat.ltb_spec k nf); [apply Z.ltb_lt|apply Z.ltb_ge]; lia.
Qed.

Lemma all_front_fitnesses_length : length aff = L + B.
Proof.
    unfold all_front_fitnesses, new_front_mask.
    rewrite map2_length, take_length, indices_length, new_mask_indices_length.
    lia.
Qed.

Lemma all_front_fitnesses_nth k :
    k < L + B ->
    nth k aff [] = map (mask_fitness (k <? nf)) (nth (nth k idx 0) catf []).
Proof.
    intros Hk. unfold all_front_fitnesses, new_front_mask.
    rewrite (map2_nth _ _ _ _ [] false)
      by (rewrite ?take_length, ?indices_length, ?new_mask_indices_length; lia).
    rewrite take_nth by (rewrite indices_length; lia).
    rewrite new_mask_indices_nth by auto. reflexivity.
Qed.

Lemma all_front_descriptors_nth k :
    k < L + B ->
    nth k (all_front_descriptors pff pfd mask nbf nbd nmask) []
    = map (fun x => fmask x (k <? nf))
        (nth (nth k idx 0) (cat_descriptors pfd nbd) []).
Proof.
    intros Hk. unfold all_front_descriptors, new_front_mask.
    rewrite (map2_nth _ _ _ _ [] false)
      by (rewrite ?take_length, ?indices_length, ?new_mask_indices_length; lia).
    rewrite take_nth by (rewrite indices_length; lia).
    rewrite new_mask_indices_nth by auto. reflexivity.
Qed.

Lemma empty_mask_length : length emask = L + B.
Proof.
    unfold empty_mask. rewrite length_map. apply all_front_fitnesses_length.
Qed.

Lemma empty_mask_nth k :
    k < L + B ->
    nth k emask false = existsb (fun x => feqb x NInf) (nth k aff []).
Proof.
    intros Hk. unfold empty_mask.
    rewrite (nth_indep _ false (existsb (fun x => feqb x NInf) []))
      by (rewrite length_map, all_front_fitnesses_length; lia).
    apply (map_nth (existsb (fun x => feqb x NInf))).
Qed.

Lemma crowding_distances_length :
    length (crowding_distances pff mask nbf nmask) = L + B.
Proof.
    unfold crowding_distances, upd_crowding_distances, mean_over_columns.
    rewrite !length_map, length_seq. apply all_front_fitnesses_length.
Qed.

Lemma sorted_distances_index_length :
    length (sorted_distances_index pff mask nbf nmask) = L + B.
Proof.
    unfold sorted_distances_index, argsort_fl.
    rewrite argsort_length. apply crowding_distances_length.
Qed.

Lemma keep_indices_length : 1 <= L -> length keep = L.
Proof.
    intros HL. unfold keep_indices, pareto_front_len.
    apply lastn_length. rewrite sorted_distances_index_length. lia.
Qed.

Lemma keep_indices_NoDup : NoDup keep.
Proof.
    unfold keep_indices. apply lastn_NoDup.
    unfold sorted_distances_index, argsort_fl. apply argsort_NoDup.
Qed.

Lemma keep_indices_lt k : In k keep -> k < L + B.
Proof.
    unfold keep_indices. intros H. apply lastn_incl in H.
    unfold sorted_distances_index, argsort_fl in H.
    apply argsort_In in H. now rewrite crowding_distances_length in H.
Qed.
End UpdateFacts.

(** ** What the update returns *)

Lemma update_Some pff pfg pfd mask nbf nbg nbd nmask u :
  update_masked_pareto_front pff pfg pfd mask nbf nbg nbd nmask = Some u ->
  let keep := keep_indices pff mask nbf nmask in
  new_front_fitnesses u
  = take [] (all_front_fitnesses_zeroed pff mask nbf nmask) keep
  /\ new_front_genotypes u
     = take [] (all_front_genotypes pff pfg mask nbf nbg nmask) keep
  /\ new_front_descriptors u
     = take [] (all_front_descriptors pff pfd mask nbf nbd nmask) keep
  /\ new_mask u = take false (empty_mask pff mask nbf nmask) keep
  /\ any_equal (new_front_fitnesses u) nbf = Some (added_bool u)
  /\ removed_count u
     = (Z.of_nat (count_true (map negb mask))
        - Z.of_nat (count_true (map negb (new_mask u)))
        - Z.b2z (added_bool u))%Z.
Proof.
  unfold update_masked_pareto_front.
  destruct (any_equal _ nbf) as [a|] eqn:E; [|discriminate].
  intros H; inversion H; subst; clear H. simpl. auto 10.
Qed.

Lemma update_returns pff pfg pfd mask nbf nbg nbd nmask a :
  any_equal
    (take [] (all_front_fitnesses_zeroed pff mask nbf nmask)
       (keep_indices pff mask nbf nmask)) nbf = Some a ->
  update_masked_pareto_front pff pfg pfd mask nbf nbg nbd nmask
  = Some (updated_front pff pfg pfd mask nbf nbg nbd nmask a).
Proof.
  intros E. unfold update_masked_pareto_front. rewrite E. reflexivity.
Qed.

Lemma any_equal_defined (a b : matrix) :
  length b = 1 \/ length b = length a \/ length a = 1 ->
  exists r, any_equal a b = Some r.
Proof.
  intros H. unfold any_equal.
  destruct (Nat.eqb_spec (length a) (length b)); [eauto|].
  destruct (Nat.eqb_spec (length b) 1); [eauto|].
  destruct (Nat.eqb_spec (length a) 1); [eauto|]. lia.
Qed.

Lemma any_equal_undefined (a b : matrix) :
  length b <> 1 -> length b <> length a -> length a <> 1 ->
  any_equal a b = None.
Proof.
  intros H1 H2 H3. unfold any_equal.
  destruct (Nat.eqb_spec (length a) (length b)); [congruence|].
  destruct (Nat.eqb_spec (length b) 1); [congruence|].
  destruct (Nat.eqb_spec (length a) 1); [congruence|]. reflexivity.
Qed.

Lemma zeroed_length pff mask nbf nmask :
  length (all_front_fitnesses_zeroed pff mask nbf nmask)
  = length (all_front_fitnesses pff mask nbf nmask).
Proof. unfold all_front_fitnesses_zeroed. apply length_map. Qed.

Lemma zeroed_nth pff mask nbf nmask k :
  nth k (all_front_fitnesses_zeroed pff mask nbf nmask) []
  = map (fun x => if feqb x NInf then F 0 else x)
      (nth k (all_front_fitnesses pff mask nbf nmask) []).
Proof.
  unfold all_front_fitnesses_zeroed.
  apply (map_nth (map (fun x => if feqb x NInf then F 0 else x))
           (all_front_fitnesses pff mask nbf nmask) []).
Qed.

Lemma valid_count_le mask : valid_count mask <= length mask.
Proof.
  unfold valid_count. rewrite <- (length_map negb mask). apply count_true_le.
Qed.

(** C3.  With a front of capacity [L >= 1] and masks of matching shapes,
    the update returns whenever the batch size can be broadcast against the
    front (in particular for the batch size 1 that [add] uses), and every
    front it returns has exactly [L] slots in each of its arrays, whatever
    the batch size, hence at most [L] valid entries. *)
Theorem front_size_bounded pff pfg pfd mask nbf nbg nbd nmask :
  length mask = length pff ->
  length nmask = length nbf ->
  1 <= length pff ->
  (length nbf = 1 \/ length nbf = length pff \/ length pff = 1 ->
   exists u,
     update_masked_pareto_front pff pfg pfd mask nbf nbg nbd nmask = Some u)
  /\ forall u,
      update_masked_pareto_front pff pfg pfd mask nbf nbg nbd nmask = Some u ->
      length (new_front_fitnesses u) = length pff
      /\ length (new_front_genotypes u) = length pff
      /\ length (new_front_descriptors u) = length pff
      /\ length (new_mask u) = length pff
      /\ valid_count (new_mask u) <= length pff.
Proof.
  intros Hm Hn HL.
  pose proof (keep_indices_length pff mask nbf nmask Hm Hn HL) as Hk.
  split.
  - intros HB.
    destruct (any_equal_defined
                (take [] (all_front_fitnesses_zeroed pff mask nbf nmask)
                   (keep_indices pff mask nbf nmask)) nbf) as [a Ha].
    { rewrite take_length, Hk. exact HB. }
    eexists. apply update_returns. exact Ha.
  - intros u Hu. apply update_Some in Hu.
    destruct Hu as (Hf & Hg & Hd & Hmk & _).
    rewrite Hf, Hg, Hd. rewrite !take_length, Hk.
    assert (Hlen : length (new_mask u) = length pff)
      by (rewrite Hmk, take_length; exact Hk).
    repeat split; auto.
    rewrite <- Hlen. apply valid_count_le.
Qed.

Lemma front_size_bounded_witness :
  (length ex_batch_fitnesses = 1 \/
   length ex_batch_fitnesses = length ex_front_fitnesses \/
   length ex_front_fitnesses = 1 ->
   exists u,
     update_masked_pareto_front ex_front_fitnesses ex_front_genotypes
       ex_front_descriptors ex_front_mask ex_batch_fitnesses
       ex_batch_genotypes ex_batch_descriptors ex_batch_mask = Some u)
  /\ forall u,
      update_masked_pareto_front ex_front_fitnesses ex_front_genotypes
        ex_front_descriptors ex_front_mask ex_batch_fitnesses
        ex_batch_genotypes ex_batch_descriptors ex_batch_mask = Some u ->
      length (new_front_fitnesses u) = length ex_front_fitnesses
      /\ length (new_front_genotypes u) = length ex_front_fitnesses
      /\ length (new_front_descriptors u) = length ex_front_fitnesses
      /\ length (new_mask u) = length ex_front_fitnesses
      /\ valid_count (new_mask u) <= length ex_front_fitnesses.
Proof.
  apply front_size_bounded; [reflexivity|reflexivity|simpl; lia].
Defined.

(** ** Non-domination *)

Lemma dominates_nil_l b : dominates [] b = false.
Proof. reflexivity. Qed.

Lemma dominates_nil_r a : dominates a [] = false.
Proof. destruct a; reflexivity. Qed.

(** A slot the update returns as valid holds, unchanged, the fitness of an
    entry the oracle marked, unless its row has no objective at all. *)
Lemma kept_valid_row pff mask nbf nmask k :
  length mask = length pff ->
  length nmask = length nbf ->
  k < length pff + length nbf ->
  nth k (empty_mask pff mask nbf nmask) false = false ->
  let r := nth k (all_front_fitnesses_zeroed pff mask nbf nmask) [] in
  r = []
  \/ exists i, nth i (cat_bool_front pff mask nbf nmask) false = true
               /\ r = nth i (cat_fitnesses pff nbf) [].
Proof.
  intros Hm Hn Hk He r. subst r.
  rewrite (empty_mask_nth pff mask nbf nmask Hm Hn) in He by auto.
  rewrite zeroed_nth, zeroed_row_id by exact He.
  rewrite (all_front_fitnesses_nth pff mask nbf nmask Hm Hn) in * by auto.
  destruct (Nat.ltb_spec k (num_front_elements pff mask nbf nmask)) as [Hlt|Hge].
  - right. exists (nth k (indices pff mask nbf nmask) 0). split.
    + apply indices_marked; auto.
    + apply mask_fitness_true_row. exact He.
  - left.
    destruct (nth (nth k (indices pff mask nbf nmask) 0)
                (cat_fitnesses pff nbf) []) as [|x r]; auto.
    simpl in He. discriminate.
Qed.

Lemma keep_nth_lt pff mask nbf nmask p :
  length mask = length pff ->
  length nmask = length nbf ->
  p < length (keep_indices pff mask nbf nmask) ->
  nth p (keep_indices pff mask nbf nmask) 0 < length pff + length nbf.
Proof.
  intros Hm Hn Hp. apply (keep_indices_lt pff mask nbf nmask Hm Hn).
  apply nth_In; auto.
Qed.

(** C2.  In every front the update returns, no valid entry dominates
    another valid entry (the statement does not even need the two slots to
    differ: no entry dominates itself). *)
Theorem front_non_dominated pff pfg pfd mask nbf nbg nbd nmask u p q :
  length mask = length pff ->
  length nmask = length nbf ->
  update_masked_pareto_front pff pfg pfd mask nbf nbg nbd nmask = Some u ->
  p < length (new_mask u) ->
  q < length (new_mask u) ->
  nth p (new_mask u) true = false ->
  nth q (new_mask u) true = false ->
  dominates (nth p (new_front_fitnesses u) []) (nth q (new_front_fitnesses u) [])
  = false.
Proof.
  intros Hm Hn Hu Hp Hq Vp Vq.
  apply update_Some in Hu. destruct Hu as (Hf & _ & _ & Hmk & _).
  rewrite Hmk, take_length in Hp, Hq.
  rewrite Hmk in Vp, Vq.
  rewrite (nth_indep _ true false) in Vp by (rewrite take_length; auto).
  rewrite (nth_indep _ true false) in Vq by (rewrite take_length; auto).
  rewrite take_nth in Vp by auto. rewrite take_nth in Vq by auto.
  rewrite Hf, !take_nth by auto.
  pose proof (keep_nth_lt pff mask nbf nmask p Hm Hn Hp) as Kp.
  pose proof (keep_nth_lt pff mask nbf nmask q Hm Hn Hq) as Kq.
  destruct (kept_valid_row pff mask nbf nmask _ Hm Hn Kp Vp) as [->|[i [Hi ->]]];
    [apply dominates_nil_l|].
  destruct (kept_valid_row pff mask nbf nmask _ Hm Hn Kq Vq) as [->|[j [Hj ->]]];
    [apply dominates_nil_r|].
  apply oracle_marked in Hi, Hj.
  destruct Hi as (Hi1 & Hi2 & Hi3 & _). destruct Hj as (_ & _ & _ & Hj4).
  apply Hj4; auto.
Qed.

Lemma front_non_dominated_witness :
  dominates (nth 0 (new_front_fitnesses ex_update) [])
    (nth 1 (new_front_fitnesses ex_update) []) = false.
Proof.
  apply (front_non_dominated ex_front_fitnesses ex_front_genotypes
           ex_front_descriptors ex_front_mask ex_batch_fitnesses
           ex_batch_genotypes ex_batch_descriptors ex_batch_mask ex_update 0 1).
  - reflexivity.
  - reflexivity.
  - apply update_returns. vm_compute. reflexivity.
  - vm_compute. lia.
  - vm_compute. lia.
  - vm_compute. reflexivity.
  - vm_compute. reflexivity.
Defined.

(** ** Structural equality of computed values *)

Lemma fl_beq_eq x y : fl_beq x y = true -> x = y.
Proof.
  destruct x, y; simpl; try discriminate; auto.
  intros H. f_equal. now apply Qc_eq_bool_correct.
Qed.

Lemma list_beq_eq {A} (eqb : A -> A -> bool) :
  (forall a b, eqb a b = true -> a = b) ->
  forall l l', list_beq eqb l l' = true -> l = l'.
Proof.
  intros He. induction l as [|a l IH]; intros [|b l']; simpl;
    try discriminate; auto.
  intros H. apply andb_true_iff in H. destruct H as [H1 H2].
  f_equal; auto.
Qed.

Lemma row_beq_eq (r r' : row) : list_beq fl_beq r r' = true -> r = r'.
Proof. apply list_beq_eq, fl_beq_eq. Qed.

Lemma matrix_beq_eq (m m' : matrix) :
  list_beq (list_beq fl_beq) m m' = true -> m = m'.
Proof. apply list_beq_eq, row_beq_eq. Qed.

(** ** Empty slots of the returned front *)

Lemma forallb_map2_nth {A B} (f : A -> B -> bool) l l' da db j :
  forallb id (map2 f l l') = true ->
  j < length l -> j < length l' -> f (nth j l da) (nth j l' db) = true.
Proof.
  revert l' j; induction l as [|a l IH]; intros [|b l'] j; simpl;
    intros H Hj Hj'; try lia.
  apply andb_true_iff in H. destruct H as [H1 H2].
  destruct j; auto. apply IH; auto; lia.
Qed.

Lemma valid_finite_nth fit mask i :
  valid_finite fit mask = true ->
  i < length fit -> i < length mask -> nth i mask true = false ->
  forallb is_finite (nth i fit []) = true.
Proof.
  intros H Hi Hi' Hm.
  pose proof (forallb_map2_nth _ _ _ [] true i H Hi Hi') as E.
  simpl in E. rewrite Hm in E. exact E.
Qed.

Lemma valid_finite_cat pff mask nbf nmask i :
  length mask = length pff ->
  length nmask = length nbf ->
  valid_finite pff mask = true ->
  valid_finite nbf nmask = true ->
  i < length pff + length nbf ->
  nth i (cat_mask mask nmask) true = false ->
  forallb is_finite (nth i (cat_fitnesses pff nbf) []) = true.
Proof.
  intros Hm Hn Vf Vn Hi Hmi. unfold cat_mask, cat_fitnesses in *.
  destruct (Nat.lt_ge_cases i (length pff)) as [Hlt|Hge].
  - rewrite app_nth1 in * by lia. apply (valid_finite_nth pff mask); auto; lia.
  - rewrite app_nth2 in * by lia. rewrite Hm in Hmi.
    apply (valid_finite_nth nbf nmask); auto; lia.
Qed.

Lemma finite_row_no_sentinel (r : row) :
  forallb is_finite r = true ->
  existsb (fun x => feqb x NInf) (map (mask_fitness true) r) = false.
Proof.
  induction r as [|x r IH]; simpl; auto.
  intros H. apply andb_true_iff in H. destruct H as [H1 H2].
  rewrite IH by auto. rewrite mask_fitness_true.
  destruct x; simpl in *; try discriminate. reflexivity.
Qed.

(** With finite valid entries, a slot of the working buffer is flagged
    empty exactly when it lies past the front. *)
Lemma empty_mask_past_front pff mask nbf nmask k :
  length mask = length pff ->
  length nmask = length nbf ->
  valid_finite pff mask = true ->
  valid_finite nbf nmask = true ->
  k < length pff + length nbf ->
  nth k (empty_mask pff mask nbf nmask) false = true ->
  num_front_elements pff mask nbf nmask <= k.
Proof.
  intros Hm Hn Vf Vn Hk He.
  destruct (Nat.lt_ge_cases k (num_front_elements pff mask nbf nmask))
    as [Hlt|]; auto.
  rewrite (empty_mask_nth pff mask nbf nmask Hm Hn) in He by auto.
  rewrite (all_front_fitnesses_nth pff mask nbf nmask Hm Hn) in He by auto.
  apply Nat.ltb_lt in Hlt as Hb. rewrite Hb in He.
  rewrite finite_row_no_sentinel in He; [discriminate|].
  pose proof (indices_marked pff mask nbf nmask Hm Hn k Hlt) as Hmk.
  apply oracle_marked in Hmk. destruct Hmk as (H1 & H2 & H3 & _).
  apply valid_finite_cat with (mask := mask) (nmask := nmask); auto.
  now rewrite cat_fitnesses_length in H1.
Qed.

(** C1 (amended).  When every entry that is not masked out has finite
    fitness, every slot the returned mask flags as empty has fitness 0 on
    all objectives (the update turns the -inf sentinel back to zero before
    it gathers the kept rows) and a zero-filled descriptor. *)
Theorem empty_slots_zero_filled pff pfg pfd mask nbf nbg nbd nmask u p :
  length mask = length pff ->
  length nmask = length nbf ->
  valid_finite pff mask = true ->
  valid_finite nbf nmask = true ->
  update_masked_pareto_front pff pfg pfd mask nbf nbg nbd nmask = Some u ->
  p < length (new_mask u) ->
  nth p (new_mask u) false = true ->
  Forall (eq (F 0)) (nth p (new_front_fitnesses u) [])
  /\ Forall (eq (F 0)) (nth p (new_front_descriptors u) []).
Proof.
  intros Hm Hn Vf Vn Hu Hp He.
  apply update_Some in Hu. destruct Hu as (Hf & _ & Hd & Hmk & _).
  rewrite Hmk, take_length in Hp. rewrite Hmk, take_nth in He by auto.
  pose proof (keep_nth_lt pff mask nbf nmask p Hm Hn Hp) as Kp.
  pose proof (empty_mask_past_front pff mask nbf nmask _ Hm Hn Vf Vn Kp He)
    as Hge.
  apply Nat.ltb_ge in Hge.
  rewrite Hf, Hd, !take_nth by auto.
  rewrite zeroed_nth.
  rewrite (all_front_fitnesses_nth pff mask nbf nmask Hm Hn) by auto.
  rewrite (all_front_descriptors_nth pff pfd mask nbf nbd nmask Hm Hn) by auto.
  rewrite Hge. split.
  - rewrite map_map. apply Forall_forall. intros x Hx.
    apply in_map_iff in Hx. destruct Hx as [y [<- _]]. reflexivity.
  - apply Forall_forall. intros x Hx.
    apply in_map_iff in Hx. destruct Hx as [y [<- _]]. reflexivity.
Qed.

Lemma ex_first_update_returned :
  update_masked_pareto_front ex_empty_fitnesses ex_empty_genotypes
    ex_empty_descriptors ex_empty_mask ex_batch_fitnesses ex_batch_genotypes
    ex_batch_descriptors ex_batch_mask = Some ex_first_update.
Proof. apply update_returns. vm_compute. reflexivity. Qed.

Lemma empty_slots_zero_filled_witness :
  Forall (eq (F 0)) (nth 0 (new_front_fitnesses ex_first_update) [])
  /\ Forall (eq (F 0)) (nth 0 (new_front_descriptors ex_first_update) []).
Proof.
  apply (empty_slots_zero_filled ex_empty_fitnesses ex_empty_genotypes
           ex_empty_descriptors ex_empty_mask ex_batch_fitnesses
           ex_batch_genotypes ex_batch_descriptors ex_batch_mask
           ex_first_update 0).
  - reflexivity.
  - reflexivity.
  - vm_compute. reflexivity.
  - vm_compute. reflexivity.
  - apply update_returns. vm_compute. reflexivity.
  - vm_compute. lia.
  - vm_compute. reflexivity.
Defined.

(** C1 fails on the first insertion into an empty front: slot 0 of the
    result is flagged empty, yet its fitness is 0 on both objectives, not
    -inf. *)
Lemma empty_slot_sentinel_counterexample :
  exists u,
    update_masked_pareto_front ex_empty_fitnesses ex_empty_genotypes
      ex_empty_descriptors ex_empty_mask ex_batch_fitnesses ex_batch_genotypes
      ex_batch_descriptors ex_batch_mask = Some u
    /\ nth 0 (new_mask u) false = true
    /\ nth 0 (new_front_fitnesses u) [] = [F 0; F 0]
    /\ ~ sentinel_slot u 0.
Proof.
  exists ex_first_update.
  assert (E : nth 0 (new_front_fitnesses ex_first_update) [] = [F 0; F 0])
    by (apply row_beq_eq; vm_compute; reflexivity).
  split; [|split; [|split]].
  - apply ex_first_update_returned.
  - vm_compute. reflexivity.
  - exact E.
  - intros [H _]. rewrite E in H. inversion H; discriminate.
Qed.

(** The genotype payload is multiplied by the single flag
    [new_mask_indices[0]], not by the per-slot mask: in the same update the
    empty slot 0 holds a copy of the candidate's genotype. *)
Remark empty_slot_genotype_not_zeroed :
  nth 0 (new_mask ex_first_update) false = true
  /\ nth 0 (new_front_genotypes ex_first_update) [] = [F 12].
Proof.
  split; [vm_compute; reflexivity|].
  apply row_beq_eq. vm_compute. reflexivity.
Qed.

(** ** Integers as floats *)

Lemma qz_add a b : (qz a + qz b)%Qc = qz (a + b).
Proof.
  apply Qc_is_canon. unfold qz, Qcplus, Q2Qc. cbn [this].
  rewrite !Qred_correct, inject_Z_plus. reflexivity.
Qed.

Lemma qz_le a b : Qle_bool (qz a) (qz b) = (a <=? b)%Z.
Proof.
  apply eq_true_iff_eq. rewrite Qle_bool_iff, Z.leb_le.
  unfold qz, Q2Qc. cbn [this]. rewrite !Qred_correct, <- Zle_Qle. reflexivity.
Qed.

Lemma qz_eq_bool a b : Qc_eq_bool (qz a) (qz b) = (a =? b)%Z.
Proof.
  destruct (Z.eqb_spec a b) as [->|Hne].
  - unfold Qc_eq_bool. destruct (Qc_eq_dec (qz b) (qz b)); congruence.
  - unfold Qc_eq_bool. destruct (Qc_eq_dec (qz a) (qz b)) as [E|]; auto.
    exfalso. apply Hne. unfold qz in E. apply Q2Qc_eq_iff in E.
    apply inject_Z_injective. exact E.
Qed.

Lemma fadd_F a b : fadd (F a) (F b) = F (a + b).
Proof. unfold F. simpl. now rewrite qz_add. Qed.

Lemma Qc_eq_bool_refl q : Qc_eq_bool q q = true.
Proof. unfold Qc_eq_bool. destruct (Qc_eq_dec q q); congruence. Qed.

Lemma fl_beq_refl x : fl_beq x x = true.
Proof. destruct x; simpl; auto. apply Qc_eq_bool_refl. Qed.

Lemma fl_beq_neq x y : fl_beq x y = false -> x <> y.
Proof. intros H ->. rewrite fl_beq_refl in H. discriminate. Qed.

Lemma row_beq_neq (r r' : row) : list_beq fl_beq r r' = false -> r <> r'.
Proof.
  intros H ->. revert H. induction r' as [|x r IH]; simpl; [discriminate|].
  rewrite fl_beq_refl. exact IH.
Qed.

Lemma row_not_in (r : row) (M : matrix) :
  existsb (list_beq fl_beq r) M = false -> ~ In r M.
Proof.
  induction M as [|s M IH]; simpl; [tauto|].
  intros H. apply orb_false_iff in H. destruct H as [H1 H2].
  intros [E|E]; [symmetry in E; revert E; apply row_beq_neq; exact H1|].
  now apply IH.
Qed.

(** ** The uniform branch of the per-front sampler *)

Lemma not_empty_mask_sum mask :
  fsum (not_empty_mask mask) = F (Z.of_nat (valid_count mask)).
Proof.
  unfold valid_count, count_true, not_empty_mask.
  induction mask as [|b mask IH]; [reflexivity|].
  cbn [map fsum fold_right]. fold (fsum (map (fun b => fsub (F 1) (b2f b)) mask)).
  rewrite IH. destruct b; cbn [negb filter id b2f].
  - replace (fsub (F 1) (F 1)) with (F 0)
      by (unfold F; simpl; f_equal; rewrite Qcplus_opp_r; reflexivity).
    rewrite fadd_F. reflexivity.
  - rewrite fsub_0_r, fadd_F. f_equal.
    cbn [length]. lia.
Qed.

(** The branch that [jax.lax.cond] selects. *)
Lemma selection_probs_branch fit mask :
  selection_probs fit mask
  = if valid_count mask <=? 2
    then compute_equal_probabilities mask
    else compute_crowding_distances (not_empty_mask mask) fit.
Proof.
  unfold selection_probs, num_solutions. rewrite not_empty_mask_sum.
  unfold F at 1 2. cbn [fleb]. rewrite qz_le.
  destruct (Nat.leb_spec (valid_count mask) 2) as [H|H];
    [replace (_ <=? 2)%Z with true by (symmetry; apply Z.leb_le; lia)
    |replace (_ <=? 2)%Z with false by (symmetry; apply Z.leb_gt; lia)];
    reflexivity.
Qed.

Lemma equal_probabilities_uniform mask :
  1 <= valid_count mask ->
  compute_equal_probabilities mask
  = map (fun b : bool => if b then F 0 else one_over (valid_count mask)) mask.
Proof.
  intros Hc. unfold compute_equal_probabilities.
  rewrite not_empty_mask_sum. unfold not_empty_mask. rewrite map_map.
  apply map_ext. intros b.
  assert (Hz : Qc_eq_bool (qz (Z.of_nat (valid_count mask))) 0%Qc = false).
  { rewrite <- qz_0, qz_eq_bool. apply Z.eqb_neq. lia. }
  destruct b; cbn [b2f].
  - replace (fsub (F 1) (F 1)) with (F 0)
      by (unfold F; simpl; f_equal; rewrite Qcplus_opp_r; reflexivity).
    unfold F. cbn [fdiv]. rewrite Hz. f_equal.
    rewrite qz_0. unfold Qcdiv. apply Qcmult_0_l.
  - rewrite fsub_0_r. unfold F, one_over. cbn [fdiv]. rewrite Hz. reflexivity.
Qed.

(** C5.  The sampler takes the crowding-distance branch exactly when the
    front has three or more valid entries; with one or two valid entries
    the selection probabilities are 1 / (number of valid entries) on every
    valid slot and 0 on every empty slot, whatever the fitnesses. *)
Theorem tiny_front_uniform fit mask :
  (selection_probs fit mask
   = if 3 <=? valid_count mask
     then compute_crowding_distances (not_empty_mask mask) fit
     else compute_equal_probabilities mask)
  /\ (valid_count mask = 1 \/ valid_count mask = 2 ->
      selection_probs fit mask
      = map (fun b : bool => if b then F 0 else one_over (valid_count mask))
          mask).
Proof.
  rewrite selection_probs_branch. split.
  - destruct (Nat.leb_spec (valid_count mask) 2),
             (Nat.leb_spec 3 (valid_count mask)); auto; lia.
  - intros H.
    replace (valid_count mask <=? 2) with true
      by (symmetry; apply Nat.leb_le; lia).
    apply equal_probabilities_uniform. lia.
Qed.

Lemma tiny_front_uniform_witness :
  selection_probs ex_pair_fitnesses ex_pair_mask
  = [one_over 2; F 0; one_over 2].
Proof.
  apply (proj2 (tiny_front_uniform ex_pair_fitnesses ex_pair_mask)).
  right. reflexivity.
Defined.

(** ** The addition metrics *)

(** The removal counter is the stated difference of valid counts, whatever
    the value of the flag. *)
Lemma removed_count_formula pff pfg pfd mask nbf nbg nbd nmask u :
  update_masked_pareto_front pff pfg pfd mask nbf nbg nbd nmask = Some u ->
  removed_count u
  = (Z.of_nat (valid_count mask) - Z.of_nat (valid_count (new_mask u))
     - Z.b2z (added_bool u))%Z.
Proof. intros H. apply update_Some in H. tauto. Qed.

(** C9 at the failing input: the candidate is dominated and does not
    survive (the returned front is the resident front, row for row), yet
    [added_bool] is true, because the comparison is element-wise and any
    single matching coordinate sets it; [removed_count] then is -1. *)
Lemma added_flag_without_survivor :
  update_masked_pareto_front ex_full_fitnesses ex_full_genotypes
    ex_full_descriptors ex_full_mask ex_dominated_fitnesses
    ex_batch_genotypes ex_batch_descriptors ex_batch_mask
  = Some ex_dominated_update
  /\ new_front_fitnesses ex_dominated_update = ex_full_fitnesses
  /\ ~ In [F 1; F 2] (new_front_fitnesses ex_dominated_update)
  /\ added_bool ex_dominated_update = true
  /\ removed_count ex_dominated_update = (-1)%Z.
Proof.
  split; [apply update_returns; vm_compute; reflexivity|].
  split; [apply matrix_beq_eq; vm_compute; reflexivity|].
  split; [apply row_not_in; vm_compute; reflexivity|].
  split; vm_compute; reflexivity.
Qed.

(** ** The sort order on floats *)

Lemma Qle_bool_false (a b : Q) : Qle_bool a b = false -> Qle_bool b a = true.
Proof.
  intros H. apply Qle_bool_iff.
  destruct (Qlt_le_dec b a) as [Hlt|Hle]; [apply Qlt_le_weak; exact Hlt|].
  apply Qle_bool_iff in Hle. congruence.
Qed.

Lemma Qle_bool_trans (a b c : Q) :
  Qle_bool a b = true -> Qle_bool b c = true -> Qle_bool a c = true.
Proof.
  rewrite !Qle_bool_iff. apply Qle_trans.
Qed.

Lemma Qle_bool_antisym (a b : Qc) :
  Qle_bool a b = true -> Qle_bool b a = true -> a = b.
Proof.
  rewrite !Qle_bool_iff. intros H1 H2. apply Qc_is_canon.
  apply Qle_antisym; auto.
Qed.

Lemma sort_leb_total a b : sort_leb a b = false -> sort_leb b a = true.
Proof.
  destruct a, b; simpl; try discriminate; auto. apply Qle_bool_false.
Qed.

Lemma sort_leb_trans a b c :
  sort_leb a b = true -> sort_leb b c = true -> sort_leb a c = true.
Proof.
  destruct a, b, c; simpl; try discriminate; auto. apply Qle_bool_trans.
Qed.

(** On values that are not NaN the sort order is the IEEE order. *)
Lemma sort_leb_false_lt a b :
  isnan a = false -> isnan b = false ->
  sort_leb b a = false -> fltb a b = true.
Proof.
  destruct a, b; simpl; try discriminate; auto.
  intros _ _ H. rewrite H. reflexivity.
Qed.

Lemma sort_leb_antisym a b :
  sort_leb a b = true -> sort_leb b a = true -> a = b.
Proof.
  destruct a, b; simpl; try discriminate; auto.
  intros H1 H2. f_equal. now apply Qle_bool_antisym.
Qed.

Lemma sort_leb_cases a b :
  isnan a = false -> isnan b = false ->
  sort_leb b a = false \/ sort_leb a b = true ->
  fltb a b = true \/ a = b.
Proof.
  intros Ha Hb [H|H].
  - left. now apply sort_leb_false_lt.
  - destruct (sort_leb b a) eqn:E.
    + right. now apply sort_leb_antisym.
    + left. now apply sort_leb_false_lt.
Qed.

(** ** Truncation by crowding distance *)

Lemma In_firstn_nth {A} (l : list A) n x d :
  In x (firstn n l) -> exists p, p < n /\ p < length l /\ nth p l d = x.
Proof.
  revert n; induction l as [|a l IH]; intros [|n]; simpl; try tauto.
  intros [->|H].
  - exists 0. repeat split; auto; lia.
  - destruct (IH n H) as [p [H1 [H2 H3]]]. exists (S p). repeat split; auto; lia.
Qed.

Lemma In_skipn_nth {A} (l : list A) n x d :
  In x (skipn n l) -> exists q, n <= q < length l /\ nth q l d = x.
Proof.
  revert n; induction l as [|a l IH]; intros [|n]; simpl; try tauto.
  - intros [->|H].
    + exists 0. split; auto; lia.
    + apply (In_nth _ _ d) in H. destruct H as [q [H1 H2]].
      exists (S q). split; auto; lia.
  - intros H. destruct (IH n H) as [q [H1 H2]]. exists (S q). split; auto; lia.
Qed.

(** The last [n] entries of a stable argsort: an entry left out has a
    strictly smaller key than a kept one, or the same key and a smaller
    position. *)
Lemma lastn_argsort_rank (keys : list fl) n k u :
  1 <= n ->
  Forall (fun x => isnan x = false) keys ->
  In k (lastn n (argsort_fl keys)) ->
  u < length keys ->
  ~ In u (lastn n (argsort_fl keys)) ->
  fltb (nth u keys NaN) (nth k keys NaN) = true
  \/ (nth u keys NaN = nth k keys NaN /\ u < k).
Proof.
  intros Hn Hnan Hk Hu Hnot.
  unfold lastn in *. destruct (Nat.eqb_spec n 0) as [|_]; [lia|].
  set (l := argsort_fl keys) in *.
  set (c := length l - n) in *.
  assert (Hl : length l = length keys) by apply argsort_length.
  assert (Hin : In u (firstn c l)).
  { assert (H : In u l) by (apply argsort_In; exact Hu).
    rewrite <- (firstn_skipn c l) in H. apply in_app_or in H. tauto. }
  apply (In_firstn_nth _ _ _ 0) in Hin. destruct Hin as [p [Hp1 [Hp2 Hp3]]].
  apply (In_skipn_nth _ _ _ 0) in Hk. destruct Hk as [q [Hq1 Hq2]].
  pose proof (argsort_stable fl sort_leb sort_leb_total sort_leb_trans
                keys NaN p q ltac:(lia)) as St.
  cbv zeta in St. fold argsort_fl in St. fold l in St.
  rewrite Hp3, Hq2 in St.
  rewrite Forall_forall in Hnan.
  assert (Nu : isnan (nth u keys NaN) = false) by (apply Hnan, nth_In; lia).
  assert (Hklt : k < length keys).
  { apply (argsort_In fl sort_leb keys). fold argsort_fl. fold l.
    rewrite <- Hq2. apply nth_In. lia. }
  assert (Nk : isnan (nth k keys NaN) = false) by (apply Hnan, nth_In; lia).
  destruct St as [St|[St1 St2]].
  - left. now apply sort_leb_false_lt.
  - destruct (sort_leb_cases _ _ Nu Nk (or_intror St1)) as [H|H]; auto.
Qed.

Lemma crowding_distances_not_nan pff mask nbf nmask :
  Forall (fun x => isnan x = false) (crowding_distances pff mask nbf nmask).
Proof.
  unfold crowding_distances, upd_crowding_distances.
  apply Forall_forall. intros x Hx. apply in_map_iff in Hx.
  destruct Hx as [y [<- _]]. destruct y; reflexivity.
Qed.

(** C8 (amended).  The update keeps exactly [L] positions of the working
    buffer, those ranked last by the ascending stable sort of the crowding
    distances (NaN counted as -inf): a position left out has a strictly
    smaller distance than any kept position, or the same distance and a
    lower buffer index.  Ties are thus broken by keeping the entry with the
    higher index. *)
Theorem truncation_keeps_largest pff mask nbf nmask k u :
  length mask = length pff ->
  length nmask = length nbf ->
  1 <= length pff ->
  In k (keep_indices pff mask nbf nmask) ->
  u < length pff + length nbf ->
  ~ In u (keep_indices pff mask nbf nmask) ->
  let d := crowding_distances pff mask nbf nmask in
  length (keep_indices pff mask nbf nmask) = length pff
  /\ NoDup (keep_indices pff mask nbf nmask)
  /\ (fltb (nth u d NaN) (nth k d NaN) = true
      \/ (nth u d NaN = nth k d NaN /\ u < k)).
Proof.
  intros Hm Hn HL Hk Hu Hnot d. subst d.
  split; [apply keep_indices_length; auto|].
  split; [apply keep_indices_NoDup|].
  unfold keep_indices, sorted_distances_index, pareto_front_len in *.
  apply lastn_argsort_rank with (n := length pff); auto.
  - apply crowding_distances_not_nan.
  - rewrite (crowding_distances_length pff mask nbf nmask Hm Hn). exact Hu.
Qed.

Lemma truncation_keeps_largest_witness :
  let d := crowding_distances ex_trunc_fitnesses ex_trunc_mask ex_trunc_batch
             ex_batch_mask in
  length (keep_indices ex_trunc_fitnesses ex_trunc_mask ex_trunc_batch
            ex_batch_mask) = length ex_trunc_fitnesses
  /\ NoDup (keep_indices ex_trunc_fitnesses ex_trunc_mask ex_trunc_batch
              ex_batch_mask)
  /\ (fltb (nth 1 d NaN) (nth 0 d NaN) = true
      \/ (nth 1 d NaN = nth 0 d NaN /\ 1 < 0)).
Proof.
  apply (truncation_keeps_largest ex_trunc_fitnesses ex_trunc_mask
           ex_trunc_batch ex_batch_mask 0 1).
  - reflexivity.
  - reflexivity.
  - simpl. lia.
  - vm_compute. lia.
  - simpl. lia.
  - vm_compute. lia.
Defined.

(** C8 as stated fails on the tie: two non-dominated entries exceed the
    capacity 1, their distances are equal, and the entry kept is the one
    with the higher index (the candidate, position 1), not the lower
    one. *)
Lemma truncation_tie_counterexample :
  num_front_elements ex_tie_fitnesses ex_tie_mask ex_tie_batch ex_batch_mask
  = 2
  /\ crowding_distances ex_tie_fitnesses ex_tie_mask ex_tie_batch ex_batch_mask
     = [PInf; PInf]
  /\ keep_indices ex_tie_fitnesses ex_tie_mask ex_tie_batch ex_batch_mask = [1]
  /\ ~ In 0 (keep_indices ex_tie_fitnesses ex_tie_mask ex_tie_batch
               ex_batch_mask).
Proof.
  split; [vm_compute; reflexivity|].
  split; [vm_compute; reflexivity|].
  split; [vm_compute; reflexivity|].
  vm_compute. lia.
Qed.

(** When an objective has zero amplitude the distances of valid entries
    are NaN, hence -inf, and tie with those of empty rows: with capacity 2,
    three copies of fitness 0 on the front and one dominated candidate, the
    kept positions are 2 and 3, and position 3 is an empty row while the
    valid rows 0 and 1 are left out. *)
Remark truncation_keeps_empty_row :
  let pff := [[F 0]; [F 0]] in
  let nbf := [[F 0]; [F (-1)]] in
  num_front_elements pff [false; false] nbf [false; false] = 3
  /\ empty_mask pff [false; false] nbf [false; false]
     = [false; false; false; true]
  /\ keep_indices pff [false; false] nbf [false; false] = [2; 3].
Proof. repeat split; vm_compute; reflexivity. Qed.

(** ** Re-adding a resident entry *)

Lemma existsb_map2_false_intro {A B} (f : A -> B -> bool) l l' da db :
  (forall j, j < length l -> j < length l' ->
             f (nth j l da) (nth j l' db) = false) ->
  existsb id (map2 f l l') = false.
Proof.
  revert l'; induction l as [|a l IH]; intros [|b l'] H; simpl; auto.
  apply orb_false_iff. split.
  - apply (H 0); simpl; lia.
  - apply IH. intros j Hj Hj'. apply (H (S j)); simpl; lia.
Qed.

Lemma oracle_marks M mask i :
  i < length M -> i < length mask ->
  nth i mask true = false ->
  (forall j, j < length M -> j < length mask -> nth j mask true = false ->
             dominates (nth j M []) (nth i M []) = false) ->
  nth i (compute_masked_pareto_front M mask) false = true.
Proof.
  intros Hi Hi' Hm Hd. unfold compute_masked_pareto_front.
  rewrite (map2_nth _ _ _ _ [] true) by lia.
  rewrite Hm. simpl. apply negb_true_iff.
  apply (existsb_map2_false_intro _ _ _ [] true).
  intros j Hj Hj'. destruct (nth j mask true) eqn:E; simpl; auto.
Qed.

Lemma dominates_irrefl (r : row) : dominates r r = false.
Proof.
  unfold dominates. apply andb_false_iff. right.
  induction r as [|x r IH]; simpl; auto.
  rewrite IH, orb_false_r. destruct x; simpl; auto.
  destruct (Qle_bool q q) eqn:E; auto.
  pose proof (Qle_bool_false _ _ E). congruence.
Qed.

Lemma row_eq_any_refl (r : row) :
  r <> [] -> forallb is_finite r = true -> row_eq_any r r = true.
Proof.
  destruct r as [|x r]; [congruence|]. intros _ H. simpl in H.
  apply andb_true_iff in H. destruct H as [H _].
  unfold row_eq_any. simpl. apply orb_true_iff. left.
  destruct x; try discriminate. cbn [id feqb]. apply Qc_eq_bool_refl.
Qed.

Lemma valid_count_pos mask p :
  p < length mask -> nth p mask true = false -> 1 <= valid_count mask.
Proof.
  unfold valid_count, count_true.
  revert p; induction mask as [|b mask IH]; intros p Hp Hv; simpl in *; [lia|].
  destruct p as [|p].
  - subst b. simpl. lia.
  - assert (H := IH p ltac:(lia) Hv). destruct b; simpl; lia.
Qed.

Lemma indices_past_front pff mask nbf nmask k :
  length mask = length pff ->
  length nmask = length nbf ->
  num_front_elements pff mask nbf nmask <= k ->
  k < length pff + length nbf ->
  nth k (indices pff mask nbf nmask) 0 = length nbf + length pff - 1.
Proof.
  intros Hm Hn Hge Hk.
  rewrite (indices_eq pff mask nbf nmask Hm Hn).
  rewrite app_nth2; rewrite true_positions_length;
    [|unfold num_front_elements in Hge; lia].
  apply nth_repeat_lt.
  unfold num_front_elements in *. lia.
Qed.

(** Some kept position is among the first two of the buffer when the batch
    has one candidate: only one position is dropped. *)
Lemma keep_has_front_position pff mask nbf nmask :
  length mask = length pff ->
  length nmask = length nbf ->
  1 <= length pff ->
  length nbf = 1 ->
  exists k, In k (keep_indices pff mask nbf nmask) /\ k < 2.
Proof.
  intros Hm Hn HL HB.
  set (keep := keep_indices pff mask nbf nmask).
  destruct (in_dec Nat.eq_dec 0 keep) as [H0|H0]; [exists 0; auto|].
  destruct (in_dec Nat.eq_dec 1 keep) as [H1|H1]; [exists 1; auto|].
  exfalso.
  assert (Hincl : incl keep (seq 2 (length pff - 1))).
  { intros k Hk. apply in_seq.
    pose proof (keep_indices_lt pff mask nbf nmask Hm Hn k Hk).
    assert (k <> 0) by congruence. assert (k <> 1) by congruence. lia. }
  apply NoDup_incl_length in Hincl; [|apply keep_indices_NoDup].
  unfold keep in Hincl.
  rewrite (keep_indices_length pff mask nbf nmask Hm Hn HL), length_seq in Hincl.
  lia.
Qed.

Section ReAdd.
  (** A front whose only valid slot is [s], with finite fitness [f], and a
      batch made of one candidate with that same fitness. *)
Variables pff pfd : matrix.
Variable pfg : list genotype.
Variable mask : list bool.
Variables f g d : row.
Variable s : nat.

Hypothesis mask_shape : length mask = length pff.
Hypothesis slot_in_range : s < length pff.
Hypothesis slot_valid : nth s mask true = false.
Hypothesis others_empty :
  forall i, i < length pff -> i <> s -> nth i mask true = true.
Hypothesis slot_fitness : nth s pff [] = f.
Hypothesis fitness_not_empty : f <> [].
Hypothesis fitness_finite : forallb is_finite f = true.

Local Abbreviation L := (length pff).

Lemma readd_new_mask_shape : length [false] = length [f].
Proof. reflexivity. Qed.

Lemma readd_unmasked i :
  i < L + 1 ->
  nth i (cat_mask mask [false]) true = false ->
  nth i (cat_fitnesses pff [f]) [] = f.
Proof.
  intros Hi Hu. unfold cat_mask, cat_fitnesses in *.
  destruct (Nat.lt_ge_cases i L) as [Hlt|Hge].
  - rewrite app_nth1 in * by lia.
    destruct (Nat.eq_dec i s) as [->|Hne]; auto.
    rewrite others_empty in Hu by auto. discriminate.
  - rewrite app_nth2 by lia. replace (i - L) with 0 by lia. reflexivity.
Qed.

Lemma readd_marks i :
  i < L + 1 ->
  nth i (cat_mask mask [false]) true = false ->
  nth i (cat_bool_front pff mask [f] [false]) false = true.
Proof.
  intros Hi Hu. unfold cat_bool_front.
  pose proof (cat_fitnesses_length pff [f]) as Hcf.
  pose proof (cat_mask_length pff mask [f] [false] mask_shape
                readd_new_mask_shape) as Hcm.
  simpl length in Hcf, Hcm.
  apply oracle_marks; try lia; auto.
  intros j Hj Hj' Hmj.
  rewrite (readd_unmasked i), (readd_unmasked j); auto; try lia.
  apply dominates_irrefl.
Qed.

Lemma readd_marked_fitness i :
  nth i (cat_bool_front pff mask [f] [false]) false = true ->
  nth i (cat_fitnesses pff [f]) [] = f.
Proof.
  intros H. apply oracle_marked in H. destruct H as (H1 & H2 & H3 & _).
  apply readd_unmasked; auto.
  rewrite cat_fitnesses_length in H1. exact H1.
Qed.

Lemma readd_front_count : 2 <= num_front_elements pff mask [f] [false].
Proof.
  unfold num_front_elements. rewrite <- (true_positions_length 0).
  assert (Hincl : incl [s; L] (true_positions 0 (cat_bool_front pff mask [f] [false]))).
  { pose proof (cat_bool_front_length pff mask [f] [false] mask_shape
                  readd_new_mask_shape) as Hl. simpl length in Hl.
    intros i [<-|[<-|[]]]; apply true_positions_In; rewrite Nat.sub_0_r, Hl.
    - split; [lia|]. apply readd_marks; [lia|].
      unfold cat_mask. rewrite app_nth1 by lia. exact slot_valid.
    - split; [lia|]. apply readd_marks; [lia|].
      unfold cat_mask. rewrite app_nth2 by lia.
      rewrite mask_shape, Nat.sub_diag. reflexivity. }
  apply NoDup_incl_length in Hincl; [exact Hincl|].
  constructor; [simpl; intros [H|[]]; lia|repeat constructor; auto].
Qed.

(** A row of the working buffer that is not flagged empty is a copy of
    [f]; the first two rows are such rows. *)
Lemma readd_valid_row k :
  k < L + 1 ->
  nth k (empty_mask pff mask [f] [false]) false = false ->
  nth k (all_front_fitnesses_zeroed pff mask [f] [false]) [] = f.
Proof.
  intros Hk He.
  rewrite (empty_mask_nth pff mask [f] [false] mask_shape readd_new_mask_shape)
    in He by exact Hk.
  rewrite zeroed_nth, zeroed_row_id by exact He.
  rewrite (all_front_fitnesses_nth pff mask [f] [false] mask_shape
             readd_new_mask_shape) in * by exact Hk.
  destruct (Nat.ltb_spec k (num_front_elements pff mask [f] [false]))
    as [Hlt|Hge].
  - rewrite mask_fitness_true_row by exact He.
    apply readd_marked_fitness.
    apply (indices_marked pff mask [f] [false] mask_shape readd_new_mask_shape).
    exact Hlt.
  - exfalso.
    rewrite (indices_past_front pff mask [f] [false] k mask_shape
               readd_new_mask_shape Hge Hk) in He.
    rewrite (readd_unmasked (length [f] + L - 1)) in He.
    + destruct f; [congruence|]. simpl in He. discriminate.
    + simpl. lia.
    + unfold cat_mask. rewrite app_nth2 by (simpl; lia).
      rewrite mask_shape.
      replace (length [f] + L - 1 - L) with 0 by (simpl; lia).
      reflexivity.
Qed.

Lemma readd_front_row k :
  k < 2 -> nth k (empty_mask pff mask [f] [false]) false = false.
Proof.
  intros Hk. pose proof readd_front_count as Hnf.
  rewrite (empty_mask_nth pff mask [f] [false] mask_shape readd_new_mask_shape)
    by (simpl; lia).
  rewrite (all_front_fitnesses_nth pff mask [f] [false] mask_shape
             readd_new_mask_shape) by (simpl; lia).
  replace (k <? num_front_elements pff mask [f] [false]) with true
    by (symmetry; apply Nat.ltb_lt; lia).
  rewrite readd_marked_fitness.
  - apply finite_row_no_sentinel. exact fitness_finite.
  - apply (indices_marked pff mask [f] [false] mask_shape readd_new_mask_shape).
    lia.
Qed.

(** C4 (amended).  Re-adding the fitness of the only resident entry is
    not silent: the update returns, reports [added = true], and the
    returned front holds at least one valid entry, every valid entry
    carrying the fitness [f].  Nothing compares the candidate with the
    resident copy. *)
Theorem readd_reports_added :
  exists u,
    update_masked_pareto_front pff pfg pfd mask [f] [g] [d] [false] = Some u
    /\ added_bool u = true
    /\ 1 <= valid_count (new_mask u)
    /\ forall p, p < length (new_mask u) ->
                 nth p (new_mask u) true = false ->
                 nth p (new_front_fitnesses u) [] = f.
Proof.
  assert (HL : 1 <= L) by lia.
  pose proof (keep_indices_length pff mask [f] [false] mask_shape
                readd_new_mask_shape HL) as Hkl.
  set (keep := keep_indices pff mask [f] [false]) in *.
  set (fit := take [] (all_front_fitnesses_zeroed pff mask [f] [false]) keep).
  assert (Hrow : forall p, p < L ->
            nth p (take false (empty_mask pff mask [f] [false]) keep) true
            = false ->
            nth p fit [] = f).
  { intros p Hp Hv. unfold fit.
    rewrite (nth_indep _ true false) in Hv by (rewrite take_length; lia).
    rewrite take_nth in Hv by lia. rewrite take_nth by lia.
    apply readd_valid_row; auto.
    apply (keep_nth_lt pff mask [f] [false] p mask_shape readd_new_mask_shape).
    fold keep. lia. }
  destruct (keep_has_front_position pff mask [f] [false] mask_shape
              readd_new_mask_shape HL eq_refl) as [k [Hk Hk2]].
  fold keep in Hk. apply (In_nth _ _ 0) in Hk. destruct Hk as [p [Hp Hpk]].
  assert (Hvp : nth p (take false (empty_mask pff mask [f] [false]) keep) true
                = false).
  { rewrite (nth_indep _ true false) by (rewrite take_length; lia).
    rewrite take_nth by lia. rewrite Hpk. apply readd_front_row. exact Hk2. }
  assert (Hfp : nth p fit [] = f) by (apply Hrow; [lia|exact Hvp]).
  assert (Hfl : length fit = L) by (unfold fit; rewrite take_length; exact Hkl).
  assert (Hin : In f fit) by (rewrite <- Hfp; apply nth_In; lia).
  assert (Hadd : any_equal fit [f] = Some true).
  { clear Hrow Hfp. clearbody fit.
    unfold any_equal. rewrite Hfl. cbn [length].
    destruct (Nat.eqb_spec L 1) as [E|E].
    - f_equal. destruct fit as [|r0 [|r1 fit']]; simpl in Hfl; try lia.
      destruct Hin as [->|[]]. cbn [map2 existsb id].
      rewrite row_eq_any_refl; auto.
    - cbn [Nat.eqb]. f_equal. apply existsb_exists. exists f. split; auto.
      apply row_eq_any_refl; auto. }
  exists (updated_front pff pfg pfd mask [f] [g] [d] [false] true).
  split; [apply update_returns; exact Hadd|].
  split; [reflexivity|].
  split.
  - apply (valid_count_pos _ p); [|exact Hvp].
    simpl. rewrite take_length. fold keep. lia.
  - intros q Hq Hv. simpl in Hq, Hv. rewrite take_length in Hq.
    fold keep in Hq, Hv. simpl. apply Hrow; [lia|exact Hv].
Qed.
End ReAdd.

Lemma readd_reports_added_witness :
  exists u,
    update_masked_pareto_front ex_single_fitnesses ex_single_genotypes
      ex_single_descriptors ex_single_mask [[F 5]] [[F 7]] [[F 9]] [false]
    = Some u
    /\ added_bool u = true
    /\ 1 <= valid_count (new_mask u)
    /\ forall p, p < length (new_mask u) ->
                 nth p (new_mask u) true = false ->
                 nth p (new_front_fitnesses u) [] = [F 5].
Proof.
  apply (readd_reports_added ex_single_fitnesses ex_single_descriptors
           ex_single_genotypes ex_single_mask [F 5] [F 7] [F 9] 3).
  - reflexivity.
  - simpl. lia.
  - reflexivity.
  - intros i Hi Hne. simpl in Hi.
    destruct i as [|[|[|[|i]]]]; try reflexivity; lia.
  - reflexivity.
  - discriminate.
  - reflexivity.
Defined.

(** C4 as stated fails on that test: the second update stores a second
    copy (two valid entries instead of one, in slots 2 and 3) and reports
    [added = true]. *)
Lemma readd_counterexample :
  update_masked_pareto_front ex_single_fitnesses ex_single_genotypes
    ex_single_descriptors ex_single_mask [[F 5]] [[F 7]] [[F 9]] [false]
  = Some ex_readd_update
  /\ valid_count ex_single_mask = 1
  /\ valid_count (new_mask ex_readd_update) = 2
  /\ new_front_fitnesses ex_readd_update = [[F 0]; [F 0]; [F 5]; [F 5]]
  /\ new_mask ex_readd_update = [true; true; false; false]
  /\ added_bool ex_readd_update = true.
Proof.
  split; [apply update_returns; vm_compute; reflexivity|].
  split; [reflexivity|].
  split; [vm_compute; reflexivity|].
  split; [apply matrix_beq_eq; vm_compute; reflexivity|].
  split; vm_compute; reflexivity.
Qed.

(** ** Arithmetic on canonical rationals *)

Ltac qc_unfold :=
  unfold Qcdiv, Qcminus, Qcle, Qclt in *;
  unfold Qcplus, Qcmult, Qcopp, Qcinv in *;
  unfold Q2Qc in *; cbn [this] in *; rewrite ?Qred_correct in *.

Ltac qc_abstract :=
  repeat match goal with
    | |- context [this ?a] =>
        let v := fresh "q" in set (v := this a) in *; clearbody v
    | H : context [this ?a] |- _ =>
        let v := fresh "q" in set (v := this a) in *; clearbody v
    end.

Ltac qc_lra := qc_unfold; qc_abstract; lra.

Lemma Qle_bool_Qcle (a b : Qc) : Qle_bool a b = true <-> (a <= b)%Qc.
Proof. apply Qle_bool_iff. Qed.

Lemma Qle_bool_Qclt (a b : Qc) : Qle_bool a b = false <-> (b < a)%Qc.
Proof.
  split; intros H.
  - apply Qcnot_le_lt. intros Hle. apply Qle_bool_Qcle in Hle. congruence.
  - destruct (Qle_bool a b) eqn:E; auto. apply Qle_bool_Qcle in E.
    exfalso. revert E. apply Qclt_not_le. exact H.
Qed.

(** ** Drawing by inversion of the cumulative distribution *)

Lemma cumsum_from_Fin a qs :
  cumsum_from (Fin a) (map Fin qs) = map Fin (qcum a qs).
Proof.
  revert a; induction qs as [|x t IH]; intros a; simpl; auto.
  f_equal. apply IH.
Qed.

Lemma last_qcum a qs :
  qs <> [] -> last (map Fin (qcum a qs)) NaN = Fin (qsum a qs).
Proof.
  revert a; induction qs as [|x t IH]; intros a H; [congruence|].
  destruct t as [|y t]; [reflexivity|].
  change (last (map Fin (qcum a (x :: y :: t))) NaN)
    with (last (map Fin (qcum (a + x)%Qc (y :: t))) NaN).
  rewrite IH by discriminate. reflexivity.
Qed.

Lemma qsum_ge a qs : Forall (fun x => 0 <= x)%Qc qs -> (a <= qsum a qs)%Qc.
Proof.
  revert a; induction qs as [|x t IH]; intros a H; simpl.
  - apply Qcle_refl.
  - inversion H; subst. eapply Qcle_trans; [|apply IH; auto]. qc_lra.
Qed.

Lemma qsum_pos a qs x :
  Forall (fun x => 0 <= x)%Qc qs -> In x qs -> (0 < x)%Qc ->
  (a < qsum a qs)%Qc.
Proof.
  revert a; induction qs as [|y t IH]; intros a H Hin Hx; [destruct Hin|].
  inversion H; subst. simpl. destruct Hin as [->|Hin].
  - eapply Qclt_le_trans; [|apply qsum_ge; auto]. qc_lra.
  - eapply Qcle_lt_trans; [|apply IH; auto]. qc_lra.
Qed.

Lemma qcum_ge a qs :
  Forall (fun x => 0 <= x)%Qc qs -> Forall (fun c => a <= c)%Qc (qcum a qs).
Proof.
  revert a; induction qs as [|x t IH]; intros a H; simpl; constructor.
  - inversion H; subst. qc_lra.
  - inversion H; subst. eapply Forall_impl; [|apply IH; auto].
    simpl. intros c Hc. eapply Qcle_trans; [|exact Hc]. qc_lra.
Qed.

Lemma searchsorted_Fin cs r :
  searchsorted (map Fin cs) (Fin r)
  = length (filter (fun c : Qc => negb (Qle_bool r c)) cs).
Proof.
  unfold searchsorted. induction cs as [|c cs IH]; simpl; auto.
  destruct (negb (Qle_bool r c)); simpl; auto.
Qed.

Lemma inverse_cdf qs a r :
  Forall (fun x => 0 <= x)%Qc qs ->
  (a < r)%Qc -> (r <= qsum a qs)%Qc ->
  let i := length (filter (fun c : Qc => negb (Qle_bool r c)) (qcum a qs)) in
  i < length qs /\ (0 < nth i qs 0)%Qc.
Proof.
  revert a; induction qs as [|x t IH]; intros a Hnn Ha Hr.
  - exfalso. revert Hr. apply Qclt_not_le. exact Ha.
  - inversion Hnn; subst. cbn [qcum filter].
    change (qsum a (x :: t)) with (qsum (a + x)%Qc t) in Hr.
    destruct (Qle_bool r (a + x)%Qc) eqn:E; cbn [negb].
    + apply Qle_bool_Qcle in E.
      assert (Hnone : filter (fun c : Qc => negb (Qle_bool r c))
                        (qcum (a + x)%Qc t) = []).
      { pose proof (qcum_ge (a + x)%Qc t H2) as Hge.
        induction Hge as [|c cs Hc _ IHc]; cbn [filter]; auto.
        replace (Qle_bool r c) with true; auto.
        symmetry. apply Qle_bool_Qcle. eapply Qcle_trans; eauto. }
      rewrite Hnone. cbn [length nth]. split; [lia|].
      clear - Ha E. qc_lra.
    + apply Qle_bool_Qclt in E.
      destruct (IH (a + x)%Qc H2 E Hr) as [H3 H4].
      cbn [length nth]. split; [lia|exact H4].
Qed.

(** With non-negative weights, one of them positive, and a variate of
    [0, 1), the index drawn is in range and carries a positive weight. *)
Lemma choice_index_support qs u x :
  Forall (fun x => 0 <= x)%Qc qs -> In x qs -> (0 < x)%Qc ->
  (0 <= u)%Qc -> (u < 1)%Qc ->
  choice_index (map Fin qs) u < length qs
  /\ (0 < nth (choice_index (map Fin qs) u) qs 0)%Qc.
Proof.
  intros Hnn Hin Hx Hu0 Hu1.
  assert (Hne : qs <> []) by (intros ->; destruct Hin).
  unfold choice_index, cumsum. change (F 0) with (Fin 0%Qc).
  rewrite cumsum_from_Fin, last_qcum by exact Hne.
  change (fmul (Fin (qsum 0 qs)) (fsub (F 1) (Fin u)))
    with (Fin (qsum 0 qs * (qz 1 + - u))%Qc).
  rewrite searchsorted_Fin.
  pose proof (qsum_pos 0%Qc qs x Hnn Hin Hx) as HT.
  apply inverse_cdf; auto.
  - change (qz 1) with 1%Qc. set (T := qsum 0 qs) in *. clearbody T.
    qc_unfold. qc_abstract. apply Qmult_lt_0_compat; lra.
  - change (qz 1) with 1%Qc. set (T := qsum 0 qs) in *. clearbody T.
    qc_unfold. qc_abstract.
    assert (0 <= q * q0)%Q by (apply Qmult_le_0_compat; lra). lra.
Qed.

(** ** The archive sampler *)

Lemma qz_pos n : 1 <= n -> (0 < qz (Z.of_nat n))%Qc.
Proof.
  intros H. unfold qz. qc_unfold. unfold Qlt. simpl. lia.
Qed.

Lemma one_over_pos n : 1 <= n -> (0 < 1 / qz (Z.of_nat n))%Qc.
Proof.
  intros H. pose proof (qz_pos n H) as Hp.
  set (k := qz (Z.of_nat n)) in *. clearbody k.
  qc_unfold. qc_abstract. rewrite Qmult_1_l. now apply Qinv_lt_0_compat.
Qed.

Lemma fdiv_flag b n :
  1 <= n ->
  fdiv (b2f b) (F (Z.of_nat n)) = if b then one_over n else F 0.
Proof.
  intros Hn.
  assert (Hz : Qc_eq_bool (qz (Z.of_nat n)) 0%Qc = false).
  { rewrite <- qz_0, qz_eq_bool. apply Z.eqb_neq. lia. }
  destruct b; unfold b2f, F, one_over; cbn [fdiv]; rewrite Hz.
  - reflexivity.
  - f_equal. rewrite qz_0. unfold Qcdiv. apply Qcmult_0_l.
Qed.

Lemma count_true_zero (l : list bool) b :
  count_true l = 0 -> In b l -> b = false.
Proof.
  unfold count_true. induction l as [|a l IH]; simpl; [tauto|].
  destruct a; simpl; [discriminate|]. intros H [<-|Hin]; auto.
Qed.

Lemma count_true_pos (l : list bool) : 1 <= count_true l -> In true l.
Proof.
  unfold count_true. induction l as [|a l IH]; simpl; [lia|].
  destruct a; simpl; auto.
Qed.

Lemma cell_probs_weights r :
  1 <= count_true (occupied_cells r) ->
  cell_probs r
  = map Fin (map (cell_weight (count_true (occupied_cells r)))
               (occupied_cells r)).
Proof.
  intros Hk. unfold cell_probs. rewrite map_map. apply map_ext.
  intros b. rewrite fdiv_flag by exact Hk. destruct b; reflexivity.
Qed.

Lemma sampled_cell_occupied r u :
  1 <= count_true (occupied_cells r) ->
  (0 <= u)%Qc -> (u < 1)%Qc ->
  sampled_cell r u < length (occupied_cells r)
  /\ nth (sampled_cell r u) (occupied_cells r) false = true.
Proof.
  intros Hk Hu0 Hu1. unfold sampled_cell. rewrite cell_probs_weights by exact Hk.
  set (k := count_true (occupied_cells r)) in *.
  destruct (choice_index_support
              (map (cell_weight k) (occupied_cells r)) u (cell_weight k true))
    as [H1 H2]; auto.
  - apply Forall_forall. intros x Hx. apply in_map_iff in Hx.
    destruct Hx as [b [<- _]]. destruct b; simpl.
    + apply Qclt_le_weak, one_over_pos. exact Hk.
    + apply Qcle_refl.
  - apply in_map, count_true_pos. exact Hk.
  - apply one_over_pos. exact Hk.
  - rewrite length_map in H1. split; [exact H1|].
    change 0%Qc with (cell_weight k false) in H2. rewrite map_nth in H2.
    destruct (nth _ (occupied_cells r) false); auto.
    exfalso. revert H2. apply Qcle_not_lt, Qcle_refl.
Qed.

Lemma index_clamped_in_range {A} (d : A) x i :
  i < length x -> index_clamped d x i = nth i x d.
Proof.
  intros H. unfold index_clamped. f_equal. lia.
Qed.

(** C6 (amended).  The cell distribution is uniform over the occupied
    cells and zero on the empty ones; with at least one occupied cell every
    draw (made independently, from its own variate) lands on an occupied
    cell, whose front is then handed to the per-front sampler.  With no
    occupied cell nothing is checked: every cell probability is NaN and
    [sample] still returns one genotype per requested draw. *)
Theorem sample_over_occupied_cells r draws :
  length (genotypes r) = length (fitnesses r) ->
  Forall (fun d => 0 <= fst d /\ fst d < 1)%Qc draws ->
  let occ := occupied_cells r in
  let k := count_true occ in
  (1 <= k ->
   cell_probs r = map (fun b : bool => if b then one_over k else F 0) occ
   /\ Forall (fun d => nth (sampled_cell r (fst d)) occ false = true) draws
   /\ sample r draws
      = map (fun d =>
               let c := sampled_cell r (fst d) in
               sample_in_masked_pareto_front
                 (nth c (genotypes r) []) (nth c (fitnesses r) [])
                 (nth c (repertoire_empty r) []) (snd d))
          draws)
  /\ (k = 0 ->
      cell_probs r = map (fun _ => NaN) occ
      /\ length (sample r draws) = length draws).
Proof.
  intros Hshape Hdraws occ k. split.
  - intros Hk.
    assert (Hlen : length occ = length (fitnesses r))
      by (unfold occ, occupied_cells, repertoire_empty; now rewrite !length_map).
    split; [|split].
    + unfold cell_probs. apply map_ext. intros b. now apply fdiv_flag.
    + rewrite Forall_forall in *. intros d Hd.
      destruct (Hdraws d Hd) as [H0 H1].
      now apply sampled_cell_occupied.
    + unfold sample. apply map_ext_in. intros d Hd.
      rewrite Forall_forall in Hdraws. destruct (Hdraws d Hd) as [H0 H1].
      destruct (sampled_cell_occupied r (fst d) Hk H0 H1) as [Hc _].
      fold occ in Hc. cbv zeta.
      rewrite !index_clamped_in_range; auto.
      * unfold repertoire_empty. rewrite length_map. lia.
      * lia.
      * lia.
  - intros Hk. split.
    + unfold cell_probs. apply map_ext_in. intros b Hb. fold occ. fold k.
      rewrite Hk. rewrite (count_true_zero occ b Hk Hb). reflexivity.
    + unfold sample. apply length_map.
Qed.

Lemma sample_over_occupied_cells_witness :
  cell_probs ex_archive
  = map (fun b : bool => if b then one_over 1 else F 0)
      (occupied_cells ex_archive)
  /\ Forall (fun d => nth (sampled_cell ex_archive (fst d))
                        (occupied_cells ex_archive) false = true) ex_draws
  /\ sample ex_archive ex_draws
     = map (fun d =>
              let c := sampled_cell ex_archive (fst d) in
              sample_in_masked_pareto_front
                (nth c (genotypes ex_archive) [])
                (nth c (fitnesses ex_archive) [])
                (nth c (repertoire_empty ex_archive) []) (snd d))
         ex_draws.
Proof.
  apply (proj1 (sample_over_occupied_cells ex_archive ex_draws
                  ltac:(reflexivity)
                  ltac:(repeat constructor;
                        unfold Qcle, Qclt, Qle, Qlt; simpl; lia))).
  vm_compute. lia.
Defined.

(** C6 as stated fails on the archive with no occupied cell: the cell
    probabilities are 0 / 0, nothing rejects the call, and [sample]
    returns a genotype all the same (the zero payload of an empty
    slot). *)
Lemma sample_empty_archive_counterexample :
  count_true (occupied_cells ex_empty_archive) = 0
  /\ cell_probs ex_empty_archive = [NaN; NaN]
  /\ sample ex_empty_archive [(Q2Qc 0, Q2Qc 0)] = [[F 0]].
Proof.
  split; [reflexivity|]. split; [vm_compute; reflexivity|].
  apply matrix_beq_eq. vm_compute. reflexivity.
Qed.

(** ** Rounding to binary32

    Rounding is monotone, keeps the sign and keeps zero. *)

Lemma pow2_pos z : (0 < pow2 z)%Q.
Proof. apply Qpower_0_lt. reflexivity. Qed.

Lemma pow2_succ z : (pow2 (z + 1) == 2 * pow2 z)%Q.
Proof.
  unfold pow2. rewrite Qpower_plus by discriminate. rewrite Qpower_1_r.
  ring.
Qed.

Lemma pow2_le a b : (a <= b)%Z -> (pow2 a <= pow2 b)%Q.
Proof. intros H. apply Qpower_le_compat_l; [exact H|]. discriminate. Qed.

Lemma pow2_lt_inv a b : (pow2 a < pow2 b)%Q -> (a < b)%Z.
Proof. intros H. eapply Qpower_lt_compat_l_inv; [exact H|reflexivity]. Qed.

Lemma pow2_log2 (n : Z) :
  (0 < n)%Z ->
  (pow2 (Z.log2 n) <= inject_Z n)%Q /\ (inject_Z n < 2 * pow2 (Z.log2 n))%Q.
Proof.
  intros Hn. destruct (Z.log2_spec n Hn) as [H1 H2].
  pose proof (Z.log2_nonneg n) as H0.
  unfold pow2. rewrite <- (Zpower_Qpower 2) by exact H0.
  split.
  - rewrite <- Zle_Qle. exact H1.
  - change 2%Q with (inject_Z 2). rewrite <- inject_Z_mult, <- Zlt_Qlt.
    rewrite Z.pow_succ_r in H2 by exact H0. exact H2.
Qed.

Lemma binade_spec q :
  (0 < q)%Q -> (pow2 (binade q) <= q)%Q /\ (q < pow2 (binade q + 1))%Q.
Proof.
  intros Hq. unfold binade.
  set (n := Qnum q). set (d := Z.pos (Qden q)).
  assert (Hn : (0 < n)%Z).
  { unfold n. destruct q as [a b]. unfold Qlt in Hq. simpl in *. lia. }
  assert (Hd : (0 < d)%Z) by (unfold d; lia).
  destruct (pow2_log2 n Hn) as [N1 N2]. destruct (pow2_log2 d Hd) as [D1 D2].
  set (k := (Z.log2 n - Z.log2 d)%Z).
  assert (Ek : (pow2 k * pow2 (Z.log2 d) == pow2 (Z.log2 n))%Q).
  { unfold k, pow2. rewrite Qpower_minus by discriminate. field.
    apply Qpower_not_0. discriminate. }
  assert (Eq : (q * inject_Z d == inject_Z n)%Q).
  { unfold n, d. destruct q as [a b]. simpl. rewrite (Qmake_Qdiv a b).
    field. discriminate. }
  pose proof (pow2_pos k) as Pk. pose proof (pow2_pos (Z.log2 d)) as Pd.
  pose proof (pow2_pos (Z.log2 n)) as Pn.
  assert (Hd' : (0 < inject_Z d)%Q) by (rewrite Zlt_Qlt in Hd; exact Hd).
  destruct (Qle_bool (pow2 k) q) eqn:E.
  - apply Qle_bool_iff in E. split; [exact E|].
    rewrite pow2_succ.
    set (X := pow2 k) in *. set (P := pow2 (Z.log2 n)) in *.
    set (D := pow2 (Z.log2 d)) in *. set (n' := inject_Z n) in *.
    set (d' := inject_Z d) in *. clearbody X P D n' d'. nra.
  - assert (E' : (q < pow2 k)%Q).
    { apply Qnot_le_lt. intros H. apply Qle_bool_iff in H. congruence. }
    replace (k - 1 + 1)%Z with k by lia. split; [|exact E'].
    assert (E2 : (pow2 k == 2 * pow2 (k - 1))%Q).
    { rewrite <- pow2_succ. replace (k - 1 + 1)%Z with k by lia. reflexivity. }
    pose proof (pow2_pos (k - 1)) as Pk1.
    set (X := pow2 k) in *. set (P := pow2 (Z.log2 n)) in *.
    set (D := pow2 (Z.log2 d)) in *. set (n' := inject_Z n) in *.
    set (d' := inject_Z d) in *. set (Y := pow2 (k - 1)) in *.
    clearbody X P D n' d' Y. apply Qlt_le_weak. nra.
Qed.

Lemma binade_le a b : (0 < a)%Q -> (a <= b)%Q -> (binade a <= binade b)%Z.
Proof.
  intros Ha Hab. assert (Hb : (0 < b)%Q) by lra.
  destruct (binade_spec a Ha) as [A1 _]. destruct (binade_spec b Hb) as [_ B2].
  assert (H : (binade a < binade b + 1)%Z) by (apply pow2_lt_inv; lra).
  lia.
Qed.

Lemma rne_bounds x : (Qfloor x <= rne x <= Qfloor x + 1)%Z.
Proof.
  unfold rne. destruct (x - inject_Z (Qfloor x) ?= 1 # 2)%Q;
    [destruct (Z.even (Qfloor x))| |]; lia.
Qed.

Lemma rne_up x :
  rne x = (Qfloor x + 1)%Z -> (inject_Z (Qfloor x) + (1 # 2) <= x)%Q.
Proof.
  unfold rne. destruct (x - inject_Z (Qfloor x) ?= 1 # 2)%Q eqn:E.
  - intros _. apply Qeq_alt in E. lra.
  - intros H. lia.
  - intros _. apply Qgt_alt in E. lra.
Qed.

Lemma rne_le_int x z : (x <= inject_Z z)%Q -> (rne x <= z)%Z.
Proof.
  intros H. pose proof (rne_bounds x) as B. pose proof (Qfloor_le x) as F.
  destruct (Z.eq_dec (rne x) (Qfloor x + 1)) as [E|E].
  - apply rne_up in E.
    assert (L : (inject_Z (Qfloor x) < inject_Z z)%Q) by lra.
    rewrite <- Zlt_Qlt in L. lia.
  - assert (L : (inject_Z (Qfloor x) <= inject_Z z)%Q) by lra.
    rewrite <- Zle_Qle in L. lia.
Qed.

Lemma rne_ge_int x z : (inject_Z z <= x)%Q -> (z <= rne x)%Z.
Proof.
  intros H. pose proof (rne_bounds x) as B.
  apply Qfloor_resp_le in H. rewrite Qfloor_Z in H. lia.
Qed.

Lemma rne_mono x y : (x <= y)%Q -> (rne x <= rne y)%Z.
Proof.
  intros H. pose proof (Qfloor_resp_le x y H) as F.
  pose proof (rne_bounds x) as Bx. pose proof (rne_bounds y) as By.
  destruct (Z.eq_dec (Qfloor x) (Qfloor y)) as [E|E]; [|lia].
  unfold rne. rewrite <- E.
  destruct (x - inject_Z (Qfloor x) ?= 1 # 2)%Q eqn:Cx;
    destruct (y - inject_Z (Qfloor x) ?= 1 # 2)%Q eqn:Cy;
    try (destruct (Z.even (Qfloor x))); try lia; exfalso;
    repeat match goal with
      | H : (_ ?= _)%Q = Eq |- _ => apply Qeq_alt in H
      | H : (_ ?= _)%Q = Lt |- _ => apply Qlt_alt in H
      | H : (_ ?= _)%Q = Gt |- _ => apply Qgt_alt in H
      end; lra.
Qed.

Lemma ulp32_pos q : (0 < ulp32 q)%Q.
Proof. apply pow2_pos. Qed.

Lemma pow2_add a b : (pow2 (a + b) == pow2 a * pow2 b)%Q.
Proof. unfold pow2. apply Qpower_plus. discriminate. Qed.

Lemma round_pos_ge q :
  (0 < q)%Q -> (pow2 (binade q) <= round_pos q)%Q.
Proof.
  intros Hq. destruct (binade_spec q Hq) as [H1 _].
  unfold round_pos. pose proof (ulp32_pos q) as U.
  assert (E : (pow2 (binade q) == inject_Z (2 ^ 23) * ulp32 q)%Q).
  { unfold ulp32. replace (binade q) with (23 + (binade q - 23))%Z at 1 by lia.
    rewrite pow2_add. apply Qmult_comp; [|reflexivity].
    unfold pow2. now rewrite <- (Zpower_Qpower 2) by lia. }
  rewrite E. apply Qmult_le_compat_r; [|lra].
  rewrite <- Zle_Qle. apply rne_ge_int.
  apply Qle_shift_div_l; [exact U|]. lra.
Qed.

Lemma round_pos_le q :
  (0 < q)%Q -> (round_pos q <= pow2 (binade q + 1))%Q.
Proof.
  intros Hq. destruct (binade_spec q Hq) as [_ H2].
  unfold round_pos. pose proof (ulp32_pos q) as U.
  assert (E : (pow2 (binade q + 1) == inject_Z (2 ^ 24) * ulp32 q)%Q).
  { unfold ulp32.
    replace (binade q + 1)%Z with (24 + (binade q - 23))%Z at 1 by lia.
    rewrite pow2_add. apply Qmult_comp; [|reflexivity].
    unfold pow2. now rewrite <- (Zpower_Qpower 2) by lia. }
  rewrite E. apply Qmult_le_compat_r; [|lra].
  rewrite <- Zle_Qle. apply rne_le_int.
  apply Qle_shift_div_r; [exact U|]. lra.
Qed.

Lemma round_pos_pos q : (0 < q)%Q -> (0 < round_pos q)%Q.
Proof.
  intros Hq. pose proof (round_pos_ge q Hq). pose proof (pow2_pos (binade q)).
  lra.
Qed.

Lemma round_pos_mono a b :
  (0 < a)%Q -> (a <= b)%Q -> (round_pos a <= round_pos b)%Q.
Proof.
  intros Ha Hab. assert (Hb : (0 < b)%Q) by lra.
  pose proof (binade_le a b Ha Hab) as K.
  destruct (Z.eq_dec (binade a) (binade b)) as [E|E].
  - unfold round_pos, ulp32. rewrite E.
    pose proof (pow2_pos (binade b - 23)) as U.
    apply Qmult_le_compat_r; [|lra].
    rewrite <- Zle_Qle. apply rne_mono.
    apply Qmult_le_compat_r; [exact Hab|].
    apply Qlt_le_weak, Qinv_lt_0_compat. exact U.
  - pose proof (round_pos_le a Ha). pose proof (round_pos_ge b Hb).
    assert (pow2 (binade a + 1) <= pow2 (binade b))%Q by (apply pow2_le; lia).
    lra.
Qed.

Lemma round32_zero : round32 0 = 0%Qc.
Proof. reflexivity. Qed.

Lemma round32_pos (q : Qc) : (0 < q)%Qc -> (0 < round32 q)%Qc.
Proof.
  intros H. unfold round32. rewrite (proj1 (Qcgt_alt q 0) H).
  change (0 < Qred (round_pos q))%Q. rewrite Qred_correct.
  apply round_pos_pos. exact H.
Qed.

Lemma round32_neg (q : Qc) : (q < 0)%Qc -> (round32 q < 0)%Qc.
Proof.
  intros H. unfold round32. rewrite (proj1 (Qclt_alt q 0) H).
  assert (Hq : (0 < - q)%Q) by (unfold Qclt in H; cbn in H; lra).
  pose proof (round_pos_pos _ Hq) as P.
  change (Qred (- Qred (round_pos (- q))) < 0)%Q. rewrite !Qred_correct.
  lra.
Qed.

Lemma round32_le (a b : Qc) : (a <= b)%Qc -> (round32 a <= round32 b)%Qc.
Proof.
  intros H.
  destruct (Qc_dec a 0) as [[Ha|Ha]|Ha], (Qc_dec b 0) as [[Hb|Hb]|Hb].
  - unfold round32. rewrite (proj1 (Qclt_alt a 0) Ha), (proj1 (Qclt_alt b 0) Hb).
    change (Qred (- Qred (round_pos (- a))) <= Qred (- Qred (round_pos (- b))))%Q.
    rewrite !Qred_correct.
    assert (Ha' : (a < 0)%Q) by exact Ha. assert (Hb' : (b < 0)%Q) by exact Hb.
    assert (H' : (a <= b)%Q) by exact H.
    assert (L : (round_pos (- b) <= round_pos (- a))%Q)
      by (apply round_pos_mono; lra).
    lra.
  - apply Qclt_le_weak. eapply Qclt_trans;
      [apply round32_neg; exact Ha|apply round32_pos; exact Hb].
  - subst b. rewrite round32_zero. apply Qclt_le_weak, round32_neg, Ha.
  - exfalso. apply (Qclt_not_le _ _ Hb). eapply Qcle_trans; [|exact H].
    apply Qclt_le_weak, Ha.
  - unfold round32. rewrite (proj1 (Qcgt_alt a 0) Ha), (proj1 (Qcgt_alt b 0) Hb).
    change (Qred (round_pos a) <= Qred (round_pos b))%Q.
    rewrite !Qred_correct.
    assert (Ha' : (0 < a)%Q) by exact Ha. assert (H' : (a <= b)%Q) by exact H.
    apply round_pos_mono; lra.
  - subst b. exfalso. apply (Qclt_not_le _ _ Ha). exact H.
  - subst a. exfalso. apply (Qclt_not_le _ _ Hb). exact H.
  - subst a. rewrite round32_zero. apply Qclt_le_weak, round32_pos, Hb.
  - subst a b. apply Qcle_refl.
Qed.

Lemma round32_nonneg (a : Qc) : (0 <= a)%Qc -> (0 <= round32 a)%Qc.
Proof. intros H. rewrite <- round32_zero. now apply round32_le. Qed.

Lemma round32_eq_zero (a : Qc) : round32 a = 0%Qc -> a = 0%Qc.
Proof.
  intros E. destruct (Qc_dec a 0) as [[H|H]|H]; auto; exfalso.
  - apply round32_neg in H. rewrite E in H.
    revert H. apply Qcle_not_lt, Qcle_refl.
  - apply round32_pos in H. rewrite E in H.
    revert H. apply Qcle_not_lt, Qcle_refl.
Qed.

Lemma round32_pos_inv (a : Qc) : (0 < round32 a)%Qc -> (0 < a)%Qc.
Proof.
  intros H. destruct (Qclt_le_dec 0 a) as [|Hle]; auto. exfalso.
  apply round32_le in Hle. rewrite round32_zero in Hle.
  revert H. now apply Qcle_not_lt.
Qed.

(** A strictly smaller rounded value comes from a strictly smaller
    value. *)
Lemma round32_lt_inv (a b : Qc) :
  (round32 a < round32 b)%Qc -> (a < b)%Qc.
Proof.
  intros H. destruct (Qclt_le_dec a b) as [|Hle]; auto. exfalso.
  apply round32_le in Hle. revert H. now apply Qcle_not_lt.
Qed.

(** ** Gaps along one sorted objective *)

Lemma removelast_nth {A} (l : list A) d p :
  S p < length l -> nth p (removelast l) d = nth p l d.
Proof.
  revert p; induction l as [|a l IH]; intros p H; simpl in *; [lia|].
  destruct l as [|b l]; [simpl in H; lia|].
  destruct p; auto. apply IH. simpl in *. lia.
Qed.

Lemma removelast_length' {A} (l : list A) :
  length (removelast l) = length l - 1.
Proof.
  induction l as [|a l IH]; simpl; auto.
  destruct l; simpl in *; auto. rewrite IH. lia.
Qed.

Lemma tl_nth {A} (l : list A) d p : nth p (tl l) d = nth (S p) l d.
Proof. destruct l; simpl; auto. destruct p; auto. Qed.

Lemma dists_column_length srt : length (dists_column srt) = S (length srt).
Proof.
  unfold dists_column. rewrite map2_length, length_app. simpl. lia.
Qed.

Lemma dists_column_nth srt k :
  k <= length srt ->
  nth k (dists_column srt) NaN
  = fsub (if k <? length srt then nth k srt NaN else PInf) (before srt k).
Proof.
  intros Hk. unfold dists_column.
  rewrite (map2_nth _ _ _ _ NaN NaN) by (rewrite ?length_app; simpl; lia).
  f_equal.
  destruct (Nat.ltb_spec k (length srt)).
  - now rewrite app_nth1.
  - rewrite app_nth2 by lia. replace (k - length srt) with 0 by lia.
    reflexivity.
Qed.

Lemma dist_to_last_nth amp srt p :
  p < length srt ->
  nth p (dist_to_last_column amp srt) NaN
  = fdiv (fsub (nth p srt NaN) (before srt p)) amp.
Proof.
  intros Hp. unfold dist_to_last_column.
  rewrite (nth_indep _ NaN (fdiv NaN amp))
    by (rewrite length_map, removelast_length', dists_column_length; lia).
  rewrite (map_nth (fun d => fdiv d amp)).
  rewrite removelast_nth by (rewrite dists_column_length; lia).
  rewrite dists_column_nth by lia.
  replace (p <? length srt) with true by (symmetry; apply Nat.ltb_lt; lia).
  reflexivity.
Qed.

Lemma dist_to_next_nth amp srt p :
  p < length srt ->
  nth p (dist_to_next_column amp srt) NaN
  = fdiv (fsub (after srt p) (nth p srt NaN)) amp.
Proof.
  intros Hp. unfold dist_to_next_column.
  rewrite (nth_indep _ NaN (fdiv NaN amp))
    by (rewrite length_map; destruct (dists_column srt) eqn:E;
        [pose proof (dists_column_length srt) as H; rewrite E in H;
         discriminate
        |pose proof (dists_column_length srt) as H; rewrite E in H;
         simpl in *; lia]).
  rewrite (map_nth (fun d => fdiv d amp)).
  rewrite tl_nth, dists_column_nth by lia. reflexivity.
Qed.

Lemma dist_to_last_length amp srt :
  length (dist_to_last_column amp srt) = length srt.
Proof.
  unfold dist_to_last_column.
  rewrite length_map, removelast_length', dists_column_length. lia.
Qed.

Lemma dist_to_next_length amp srt :
  length (dist_to_next_column amp srt) = length srt.
Proof.
  unfold dist_to_next_column. rewrite length_map.
  pose proof (dists_column_length srt) as H.
  destruct (dists_column srt); simpl in *; lia.
Qed.

Lemma fdiv_PInf (a : Qc) : (0 <= a)%Qc -> fdiv PInf (Fin a) = PInf.
Proof.
  intros Ha. cbn [fdiv fsign]. destruct (Qc_eq_bool a 0) eqn:E; auto.
  assert (Hne : a <> 0%Qc).
  { intros ->. rewrite Qc_eq_bool_refl in E. discriminate. }
  assert (Hpos : (0 < a)%Qc).
  { destruct (Qcle_lt_or_eq _ _ Ha) as [H|H]; auto. congruence. }
  assert (Hgt : (a ?= 0)%Qc = Gt) by (apply Qcgt_alt; exact Hpos).
  rewrite Hgt. reflexivity.
Qed.

Lemma fdiv_Fin_pos (x a : Qc) :
  (0 < a)%Qc -> fdiv (Fin x) (Fin a) = Fin (x / a)%Qc.
Proof.
  intros Ha. cbn [fdiv]. destruct (Qc_eq_bool a 0) eqn:E; auto.
  apply Qc_eq_bool_correct in E. subst a.
  exfalso. revert Ha. apply Qcle_not_lt, Qcle_refl.
Qed.

Lemma fdiv_zero_zero : fdiv (Fin 0%Qc) (Fin 0%Qc) = NaN.
Proof. reflexivity. Qed.

Lemma srt_length e ys : length (sorted_column e ys) = e + length ys.
Proof.
  unfold sorted_column. now rewrite length_app, repeat_length, length_map.
Qed.

Lemma srt_empty e ys p : p < e -> nth p (sorted_column e ys) NaN = NInf.
Proof.
  intros H. unfold sorted_column.
  rewrite app_nth1 by (rewrite repeat_length; lia).
  apply nth_repeat_lt. exact H.
Qed.

Lemma srt_valid e ys j :
  j < length ys -> nth (e + j) (sorted_column e ys) NaN = Fin (nth j ys 0%Qc).
Proof.
  intros H. unfold sorted_column.
  rewrite app_nth2 by (rewrite repeat_length; lia).
  rewrite repeat_length. replace (e + j - e) with j by lia.
  rewrite (nth_indep _ NaN (Fin 0%Qc)) by (rewrite length_map; lia).
  apply (map_nth Fin).
Qed.

Lemma before_empty e ys p : p < e -> before (sorted_column e ys) p = NInf.
Proof.
  intros H. destruct p; simpl; auto. apply srt_empty. lia.
Qed.

Lemma before_first_valid e ys : before (sorted_column e ys) (e + 0) = NInf.
Proof.
  rewrite Nat.add_0_r. destruct e as [|e']; simpl; auto.
  apply (srt_empty (S e')). lia.
Qed.

Lemma before_valid e ys j :
  S j < length ys ->
  before (sorted_column e ys) (e + S j) = Fin (nth j ys 0%Qc).
Proof.
  intros H. replace (e + S j) with (S (e + j)) by lia. simpl.
  apply srt_valid. lia.
Qed.

Lemma after_valid e ys j :
  S j < length ys ->
  after (sorted_column e ys) (e + j) = Fin (nth (S j) ys 0%Qc).
Proof.
  intros H. unfold after. rewrite srt_length.
  replace (S (e + j) <? e + length ys) with true
    by (symmetry; apply Nat.ltb_lt; lia).
  replace (S (e + j)) with (e + S j) by lia. apply srt_valid. exact H.
Qed.

Lemma after_last_valid e ys j :
  S j = length ys -> after (sorted_column e ys) (e + j) = PInf.
Proof.
  intros H. unfold after. rewrite srt_length.
  replace (S (e + j) <? e + length ys) with false
    by (symmetry; apply Nat.ltb_ge; lia).
  reflexivity.
Qed.

(** An empty row contributes NaN. *)
Lemma contribution_empty e ys p amp :
  p < e ->
  with_ends_sum
    (fdiv (fsub (nth p (sorted_column e ys) NaN)
             (before (sorted_column e ys) p)) amp)
    (fdiv (fsub (after (sorted_column e ys) p)
             (nth p (sorted_column e ys) NaN)) amp)
  = NaN.
Proof.
  intros H. rewrite srt_empty, before_empty by exact H. reflexivity.
Qed.

Lemma fsub_Fin a b : fsub (Fin a) (Fin b) = Fin (a - b)%Qc.
Proof. reflexivity. Qed.

Lemma contribution_valid e ys A j :
  (0 < A)%Qc -> 2 <= length ys -> j < length ys ->
  with_ends_sum
    (fdiv (fsub (nth (e + j) (sorted_column e ys) NaN)
             (before (sorted_column e ys) (e + j))) (Fin A))
    (fdiv (fsub (after (sorted_column e ys) (e + j))
             (nth (e + j) (sorted_column e ys) NaN)) (Fin A))
  = Fin (ends_contrib A ys j).
Proof.
  intros HA Hv Hj. rewrite srt_valid by exact Hj.
  assert (HA0 : (0 <= A)%Qc) by (apply Qclt_le_weak; exact HA).
  unfold ends_contrib. destruct j as [|j'].
  - rewrite before_first_valid, after_valid by lia.
    change (fsub (Fin (nth 0 ys 0%Qc)) NInf) with PInf.
    rewrite fdiv_PInf, fsub_Fin, fdiv_Fin_pos by auto. reflexivity.
  - rewrite before_valid by lia. rewrite fsub_Fin, fdiv_Fin_pos by auto.
    replace (S j' - 1) with j' by lia. change (S j' =? 0) with false.
    cbv iota.
    destruct (Nat.eqb_spec (S (S j')) (length ys)) as [E|E].
    + rewrite after_last_valid by lia.
      change (fsub PInf (Fin (nth (S j') ys 0%Qc))) with PInf.
      rewrite fdiv_PInf by auto. reflexivity.
    + rewrite after_valid by lia. rewrite fsub_Fin, fdiv_Fin_pos by auto.
      reflexivity.
Qed.

Lemma contribution_valid_flat e ys j :
  2 <= length ys -> j < length ys ->
  (forall i, S i < length ys -> nth (S i) ys 0%Qc = nth i ys 0%Qc) ->
  with_ends_sum
    (fdiv (fsub (nth (e + j) (sorted_column e ys) NaN)
             (before (sorted_column e ys) (e + j))) (Fin 0%Qc))
    (fdiv (fsub (after (sorted_column e ys) (e + j))
             (nth (e + j) (sorted_column e ys) NaN)) (Fin 0%Qc))
  = NaN.
Proof.
  intros Hv Hj Hflat. rewrite srt_valid by exact Hj.
  assert (Hz : forall a : Qc, fdiv (fsub (Fin a) (Fin a)) (Fin 0%Qc) = NaN).
  { intros a. rewrite fsub_Fin. unfold Qcminus. rewrite Qcplus_opp_r.
    reflexivity. }
  destruct j as [|j'].
  - rewrite before_first_valid, after_valid by lia.
    rewrite Hflat by lia. rewrite Hz.
    change (fsub (Fin (nth 0 ys 0%Qc)) NInf) with PInf.
    rewrite fdiv_PInf by apply Qcle_refl. reflexivity.
  - rewrite before_valid by lia. rewrite Hflat by lia. rewrite Hz.
    reflexivity.
Qed.

Lemma gap_nonneg A ys j :
  (0 < A)%Qc -> StronglySorted Qcle ys -> S j < length ys ->
  (0 <= gap A ys j)%Qc.
Proof.
  intros HA Hs Hj.
  pose proof (StronglySorted_nth Qcle ys 0%Qc j (S j) Hs ltac:(lia)) as H.
  unfold gap. set (a := nth j ys 0%Qc) in *. set (b := nth (S j) ys 0%Qc) in *.
  clearbody a b. qc_unfold. qc_abstract.
  apply Qmult_le_0_compat; [lra|]. apply Qlt_le_weak, Qinv_lt_0_compat. lra.
Qed.

Lemma gap_pos A ys j :
  (0 < A)%Qc -> (nth j ys 0 < nth (S j) ys 0)%Qc -> (0 < gap A ys j)%Qc.
Proof.
  intros HA H.
  unfold gap. set (a := nth j ys 0%Qc) in *. set (b := nth (S j) ys 0%Qc) in *.
  clearbody a b. qc_unfold. qc_abstract.
  apply Qmult_lt_0_compat; [lra|]. apply Qinv_lt_0_compat. lra.
Qed.

Lemma Qc_sum_nonneg (a b : Qc) : (0 <= a)%Qc -> (0 <= b)%Qc -> (0 <= a + b)%Qc.
Proof. intros. qc_lra. Qed.

Lemma Qc_sum_pos_r (a b : Qc) : (0 <= a)%Qc -> (0 < b)%Qc -> (0 < a + b)%Qc.
Proof. intros. qc_lra. Qed.

Lemma Qc_sum_pos_l (a b : Qc) : (0 < a)%Qc -> (0 <= b)%Qc -> (0 < a + b)%Qc.
Proof. intros. qc_lra. Qed.

Lemma ends_contrib_nonneg A ys j :
  (0 < A)%Qc -> StronglySorted Qcle ys -> 2 <= length ys -> j < length ys ->
  (0 <= ends_contrib A ys j)%Qc.
Proof.
  intros HA Hs Hv Hj. unfold ends_contrib.
  destruct (Nat.eqb_spec j 0) as [->|H0].
  - apply Qc_sum_nonneg; apply gap_nonneg; auto; lia.
  - destruct (Nat.eqb_spec (S j) (length ys)).
    + apply Qc_sum_nonneg; apply gap_nonneg; auto; lia.
    + apply Qc_sum_nonneg; apply gap_nonneg; auto; lia.
Qed.

Lemma ends_contrib_pos A ys j :
  (0 < A)%Qc -> StronglySorted Qcle ys -> S j < length ys ->
  (nth j ys 0 < nth (S j) ys 0)%Qc ->
  (0 < ends_contrib A ys j)%Qc.
Proof.
  intros HA Hs Hj Hlt. unfold ends_contrib.
  destruct (Nat.eqb_spec j 0) as [->|H0].
  - apply Qc_sum_pos_l; [apply gap_pos; auto|apply gap_nonneg; auto].
  - destruct (Nat.eqb_spec (S j) (length ys)); [lia|].
    apply Qc_sum_pos_r; [apply gap_nonneg; auto; lia|apply gap_pos; auto].
Qed.

Lemma sorted_not_constant ys a b :
  StronglySorted Qcle ys -> In a ys -> In b ys -> (a < b)%Qc ->
  exists j, S j < length ys /\ (nth j ys 0 < nth (S j) ys 0)%Qc.
Proof.
  intros Hs. revert a b. induction Hs as [|x t Hs IH Hx]; intros a b Ha Hb Hab.
  - destruct Ha.
  - destruct t as [|y t'].
    + destruct Ha as [<-|[]]. destruct Hb as [<-|[]].
      exfalso. revert Hab. apply Qcle_not_lt, Qcle_refl.
    + inversion Hx as [|? ? Hxy _]; subst.
      destruct (Qcle_lt_or_eq _ _ Hxy) as [Hlt|Heq].
      * exists 0. split; [simpl; lia|exact Hlt].
      * subst y.
        assert (Ha' : In a (x :: t')) by (destruct Ha as [<-|Ha]; [left|]; auto).
        assert (Hb' : In b (x :: t')) by (destruct Hb as [<-|Hb]; [left|]; auto).
        destruct (IH a b Ha' Hb' Hab) as [j [Hj1 Hj2]].
        exists (S j). split; [simpl in *; lia|exact Hj2].
Qed.

(** ** Sorted keys, ranks and amplitudes *)

Lemma StronglySorted_map {A B} (f : A -> B) (R : B -> B -> Prop) l :
  StronglySorted (fun x y => R (f x) (f y)) l -> StronglySorted R (map f l).
Proof.
  induction 1 as [|a l Hs IH Ha]; simpl; constructor; auto.
  rewrite Forall_forall in *. intros y Hy. apply in_map_iff in Hy.
  destruct Hy as [x [<- Hx]]. auto.
Qed.

Lemma StronglySorted_impl {A} (R R' : A -> A -> Prop) l :
  (forall x y, R x y -> R' x y) -> StronglySorted R l -> StronglySorted R' l.
Proof.
  intros HR. induction 1 as [|a l Hs IH Ha]; constructor; auto.
  eapply Forall_impl; [|exact Ha]. auto.
Qed.

Lemma sorted_fl_sorted (keys : list fl) :
  StronglySorted (fun a b => sort_leb a b = true) (sorted sort_leb keys).
Proof.
  unfold sorted. apply StronglySorted_map.
  eapply StronglySorted_impl;
    [|apply (sort_keys_sorted fl sort_leb sort_leb_total sort_leb_trans)].
  intros x y [H|[H _]]; auto. now apply sort_leb_total.
Qed.

(** A sorted list of values that are -inf or finite is a sorted column. *)
Lemma sorted_column_shape (l : list fl) :
  StronglySorted (fun a b => sort_leb a b = true) l ->
  Forall (fun x => x = NInf \/ is_finite x = true) l ->
  exists e ys, l = sorted_column e ys /\ StronglySorted Qcle ys.
Proof.
  induction 1 as [|x l Hs IH Hx]; intros Hf.
  - exists 0, []. split; [reflexivity|constructor].
  - inversion Hf as [|? ? Hfx Hfl]; subst.
    destruct (IH Hfl) as [e [ys [-> Hys]]].
    destruct Hfx as [->|Hfin].
    + exists (S e), ys. split; [reflexivity|exact Hys].
    + destruct x as [q| | |]; try discriminate.
      destruct e as [|e].
      * exists 0, (q :: ys). split; [reflexivity|].
        constructor; auto. rewrite Forall_forall in *. intros y Hy.
        assert (H : sort_leb (Fin q) (Fin y) = true)
          by (apply Hx; unfold sorted_column; simpl; now apply in_map).
        simpl in H. now apply Qle_bool_Qcle.
      * exfalso. rewrite Forall_forall in Hx.
        specialize (Hx NInf (or_introl eq_refl)). discriminate.
Qed.

Lemma seq_sorted s n : StronglySorted le (seq s n).
Proof.
  revert s; induction n as [|n IH]; intros s; simpl; constructor; auto.
  rewrite Forall_forall. intros x Hx. apply in_seq in Hx. lia.
Qed.

(** [argsort] of a permutation of the positions is its inverse. *)
Lemma argsort_inverse (sigma : list nat) i :
  Permutation sigma (seq 0 (length sigma)) ->
  i < length sigma ->
  nth i (argsort_nat sigma) 0 < length sigma
  /\ nth (nth i (argsort_nat sigma) 0) sigma 0 = i.
Proof.
  intros P Hi.
  assert (Hlen : length (argsort_nat sigma) = length sigma)
    by apply argsort_length.
  split.
  - apply (argsort_In nat Nat.leb sigma). apply nth_In. fold argsort_nat. lia.
  - pose proof (sort_nat_eq sigma (seq 0 (length sigma))
                  (seq_sorted 0 _) P) as E.
    unfold sort_nat in E. rewrite (sorted_argsort nat Nat.leb sigma 0) in E.
    fold argsort_nat in E.
    assert (E' : nth i (take 0 sigma (argsort_nat sigma)) 0
                 = nth i (seq 0 (length sigma)) 0) by (rewrite E; reflexivity).
    rewrite take_nth in E' by lia. rewrite seq_nth in E' by lia. exact E'.
Qed.

Lemma argsort_inverse_r (sigma : list nat) p :
  Permutation sigma (seq 0 (length sigma)) ->
  p < length sigma ->
  nth (nth p sigma 0) (argsort_nat sigma) 0 = p.
Proof.
  intros P Hp.
  assert (Hnd : NoDup sigma)
    by (eapply Permutation_NoDup; [symmetry; exact P|apply seq_NoDup]).
  assert (Hin : nth p sigma 0 < length sigma).
  { assert (H : In (nth p sigma 0) (seq 0 (length sigma)))
      by (eapply Permutation_in; [exact P|apply nth_In; exact Hp]).
    apply in_seq in H. lia. }
  destruct (argsort_inverse sigma (nth p sigma 0) P Hin) as [H1 H2].
  apply (proj1 (NoDup_nth sigma 0) Hnd); auto.
Qed.

Lemma nanmax_spec (l : list fl) :
  Forall (fun x => x = NaN \/ is_finite x = true) l ->
  (nanmax l = NaN /\ forall q, ~ In (Fin q) l)
  \/ exists M, nanmax l = Fin M /\ In (Fin M) l
               /\ forall q, In (Fin q) l -> (q <= M)%Qc.
Proof.
  induction 1 as [|x t Hx Ht IH]; [left; split; auto|].
  unfold nanmax in *. cbn [fold_right].
  destruct Hx as [->|Hfin].
  - destruct IH as [[E Hn]|[M [E [HM Hb]]]].
    + left. rewrite E. split; auto. intros q [H|H]; [discriminate|].
      exact (Hn q H).
    + right. exists M. rewrite E. repeat split; [right; auto|].
      intros q [H|H]; [discriminate|auto].
  - destruct x as [a| | |]; try discriminate. right.
    destruct IH as [[E Hn]|[M [E [HM Hb]]]]; rewrite E.
    + exists a. repeat split; [left; auto|].
      intros q [H|H]; [inversion H; apply Qcle_refl|destruct (Hn q H)].
    + cbn [fmax2 fleb]. destruct (Qle_bool a M) eqn:Le.
      * exists M. repeat split; [right; auto|].
        intros q [H|H]; [inversion H; subst; now apply Qle_bool_Qcle|auto].
      * apply Qle_bool_Qclt in Le. exists a. repeat split; [left; auto|].
        intros q [H|H]; [inversion H; apply Qcle_refl|].
        eapply Qcle_trans; [apply Hb; exact H|apply Qclt_le_weak; exact Le].
Qed.

Lemma nanmin_spec (l : list fl) :
  Forall (fun x => x = NaN \/ is_finite x = true) l ->
  (nanmin l = NaN /\ forall q, ~ In (Fin q) l)
  \/ exists M, nanmin l = Fin M /\ In (Fin M) l
               /\ forall q, In (Fin q) l -> (M <= q)%Qc.
Proof.
  induction 1 as [|x t Hx Ht IH]; [left; split; auto|].
  unfold nanmin in *. cbn [fold_right].
  destruct Hx as [->|Hfin].
  - destruct IH as [[E Hn]|[M [E [HM Hb]]]].
    + left. rewrite E. split; auto. intros q [H|H]; [discriminate|].
      exact (Hn q H).
    + right. exists M. rewrite E. repeat split; [right; auto|].
      intros q [H|H]; [discriminate|auto].
  - destruct x as [a| | |]; try discriminate. right.
    destruct IH as [[E Hn]|[M [E [HM Hb]]]]; rewrite E.
    + exists a. repeat split; [left; auto|].
      intros q [H|H]; [inversion H; apply Qcle_refl|destruct (Hn q H)].
    + cbn [fmin2 fleb]. destruct (Qle_bool a M) eqn:Le.
      * apply Qle_bool_Qcle in Le. exists a. repeat split; [left; auto|].
        intros q [H|H]; [inversion H; apply Qcle_refl|].
        eapply Qcle_trans; [exact Le|apply Hb; exact H].
      * apply Qle_bool_Qclt in Le. exists M. repeat split; [right; auto|].
        intros q [H|H]; [inversion H; subst; apply Qclt_le_weak; exact Le|auto].
Qed.

(** ** One objective of a well-formed front in the sampler *)

Lemma well_formed_row fit bm i c :
  front_well_formed fit bm = true ->
  i < length fit -> c < shape1 fit ->
  length fit = length bm
  /\ (nth i bm false = true -> nth i (column c fit) NaN = NInf)
  /\ (nth i bm false = false ->
      exists y, nth i (column c fit) NaN = Fin y).
Proof.
  unfold front_well_formed. intros H Hi Hc.
  apply andb_true_iff in H. destruct H as [H H3].
  apply andb_true_iff in H. destruct H as [H1 H2].
  apply Nat.eqb_eq in H1. split; [exact H1|].
  pose proof (forallb_map2_nth _ _ _ [] false i H3 Hi ltac:(lia)) as E.
  cbv beta in E. apply andb_true_iff in E. destruct E as [E1 E2].
  apply Nat.eqb_eq in E1.
  assert (Hcol : nth i (column c fit) NaN = nth c (nth i fit []) NaN).
  { unfold column.
    rewrite (nth_indep _ NaN ((fun r : row => nth c r NaN) []))
      by (rewrite length_map; lia).
    apply (map_nth (fun r : row => nth c r NaN)). }
  rewrite Hcol.
  assert (Hin : In (nth c (nth i fit []) NaN) (nth i fit []))
    by (apply nth_In; lia).
  split; intros Hb; rewrite Hb in E2;
    rewrite forallb_forall in E2; specialize (E2 _ Hin).
  - now apply fl_beq_eq.
  - destruct (nth c (nth i fit []) NaN); try discriminate. eauto.
Qed.

Lemma column_length c (fit : matrix) : length (column c fit) = length fit.
Proof. apply length_map. Qed.

Lemma not_empty_mask_length bm : length (not_empty_mask bm) = length bm.
Proof. apply length_map. Qed.

Lemma not_empty_mask_nth bm i :
  i < length bm ->
  nth i (not_empty_mask bm) NaN = fsub (F 1) (b2f (nth i bm false)).
Proof.
  intros H. unfold not_empty_mask.
  rewrite (nth_indep _ NaN ((fun b => fsub (F 1) (b2f b)) false))
    by (rewrite length_map; lia).
  apply (map_nth (fun b => fsub (F 1) (b2f b))).
Qed.

Lemma map_nth_seq {A} (l : list A) d :
  map (fun i => nth i l d) (seq 0 (length l)) = l.
Proof.
  apply (nth_ext _ _ d d); [now rewrite length_map, length_seq|].
  intros i Hi. rewrite length_map, length_seq in Hi.
  rewrite (nth_indep _ d ((fun i => nth i l d) 0))
    by (rewrite length_map, length_seq; lia).
  rewrite (map_nth (fun i => nth i l d)). now rewrite seq_nth.
Qed.

Lemma take_perm {A} (d : A) l sigma :
  Permutation sigma (seq 0 (length l)) -> Permutation (take d l sigma) l.
Proof.
  intros P. unfold take. rewrite P. now rewrite map_nth_seq.
Qed.

Lemma StronglySorted_map_inv {A B} (f : A -> B) (R : B -> B -> Prop) l :
  StronglySorted R (map f l) -> StronglySorted (fun x y => R (f x) (f y)) l.
Proof.
  induction l as [|a l IH]; simpl; intros H; [constructor|].
  inversion H as [|? ? Hs Ha]; subst. constructor; auto.
  rewrite Forall_forall in *. intros x Hx. apply Ha. now apply in_map.
Qed.

Lemma keys_separate_nth col keys i j :
  keys_separate col keys = true ->
  i < length col -> j < length col ->
  fltb (nth i col NaN) (nth j col NaN) = true ->
  fltb (nth i keys NaN) (nth j keys NaN) = true.
Proof.
  unfold keys_separate. intros H Hi Hj Hlt.
  rewrite forallb_forall in H. specialize (H i ltac:(apply in_seq; lia)).
  rewrite forallb_forall in H. specialize (H j ltac:(apply in_seq; lia)).
  rewrite Hlt in H. exact H.
Qed.

(** A list of values that are -inf or finite, sorted by a key that keeps
    -inf and keeps finite values finite, is a sorted column: the order
    among the finite values is that of their keys. *)
Lemma keyed_column_shape (f : fl -> fl) (l : list fl) :
  f NInf = NInf -> (forall y, is_finite (f (Fin y)) = true) ->
  StronglySorted (fun a b => sort_leb (f a) (f b) = true) l ->
  Forall (fun x => x = NInf \/ is_finite x = true) l ->
  exists e ys,
    l = sorted_column e ys
    /\ StronglySorted (fun a b => sort_leb (f (Fin a)) (f (Fin b)) = true) ys.
Proof.
  intros Hinf Hfin. induction 1 as [|x l Hs IH Hx]; intros Hf.
  - exists 0, []. split; [reflexivity|constructor].
  - inversion Hf as [|? ? Hfx Hfl]; subst.
    destruct (IH Hfl) as [e [ys [-> Hys]]].
    destruct Hfx as [->|Hx'].
    + exists (S e), ys. split; [reflexivity|exact Hys].
    + destruct x as [q| | |]; try discriminate.
      destruct e as [|e].
      * exists 0, (q :: ys). split; [reflexivity|].
        constructor; auto. rewrite Forall_forall in *. intros y Hy.
        apply Hx. unfold sorted_column. simpl. now apply in_map.
      * exfalso. rewrite Forall_forall in Hx.
        specialize (Hx NInf (or_introl eq_refl)). rewrite Hinf in Hx.
        specialize (Hfin q). destruct (f (Fin q)); discriminate.
Qed.

Lemma finite_count (l : list fl) (bm : list bool) :
  length l = length bm ->
  (forall i, i < length l ->
             is_finite (nth i l NaN) = negb (nth i bm false)) ->
  length (filter is_finite l) = valid_count bm.
Proof.
  unfold valid_count, count_true.
  revert bm; induction l as [|x l IH]; intros [|b bm] Hl H; simpl in *;
    try discriminate; auto.
  pose proof (H 0 ltac:(lia)) as H0. simpl in H0. rewrite H0.
  assert (IH' := IH bm ltac:(lia)
                   (fun i Hi => H (S i) ltac:(lia))).
  destruct (negb b); simpl; rewrite IH'; reflexivity.
Qed.

Lemma sorted_column_finite_count e ys :
  length (filter is_finite (sorted_column e ys)) = length ys.
Proof.
  unfold sorted_column. rewrite filter_app.
  assert (H1 : filter is_finite (repeat NInf e) = [])
    by (induction e; simpl; auto).
  assert (H2 : filter is_finite (map Fin ys) = map Fin ys)
    by (induction ys as [|y t IH]; simpl; [|rewrite IH]; auto).
  rewrite H1, H2. simpl. apply length_map.
Qed.

Lemma Permutation_filter_length {A} (f : A -> bool) l l' :
  Permutation l l' -> length (filter f l) = length (filter f l').
Proof.
  induction 1; simpl; auto.
  - destruct (f x); simpl; auto.
  - destruct (f x), (f y); simpl; auto.
  - congruence.
Qed.

Lemma nem_true : fsub (F 1) (b2f true) = F 0.
Proof. unfold F; simpl; f_equal; rewrite Qcplus_opp_r; reflexivity. Qed.

Lemma nem_false : fsub (F 1) (b2f false) = F 1.
Proof. apply fsub_0_r. Qed.

Lemma fmul_one x : fmul (Fin x) (F 1) = Fin x.
Proof. unfold F. cbn [fmul]. f_equal. change (qz 1) with 1%Qc. ring. Qed.

Lemma valid_count_index bm :
  1 <= valid_count bm -> exists i, i < length bm /\ nth i bm false = false.
Proof.
  unfold valid_count, count_true. induction bm as [|b bm IH]; simpl; [lia|].
  destruct b; simpl.
  - intros H. destruct (IH H) as [i [H1 H2]]. exists (S i). split; auto; lia.
  - intros _. exists 0. split; auto; lia.
Qed.

Section SamplerColumn.
Variable fit : matrix.
Variable bm : list bool.
Variable c : nat.

Hypothesis well_formed : front_well_formed fit bm = true.
Hypothesis objective : c < shape1 fit.
Hypothesis two_valid : 2 <= valid_count bm.

Local Abbreviation n := (length fit).
Local Abbreviation mask := (not_empty_mask bm).
Local Abbreviation col := (column c fit).
Local Abbreviation amp := (smp_score_amplitude mask fit c).
Local Abbreviation sigma := (smp_sorted_index mask fit c).
Local Abbreviation srt := (smp_srt_fitnesses mask fit c).

Lemma smp_mask_shape : length fit = length bm.
Proof.
  unfold front_well_formed in well_formed.
  apply andb_true_iff in well_formed. destruct well_formed as [H _].
  apply andb_true_iff in H. destruct H as [H _]. now apply Nat.eqb_eq.
Qed.

Lemma col_cases i :
  i < n ->
  (nth i bm false = true /\ nth i col NaN = NInf)
  \/ (nth i bm false = false /\ exists y, nth i col NaN = Fin y).
Proof.
  intros Hi.
  destruct (well_formed_row fit bm i c well_formed Hi objective)
    as (_ & H1 & H2).
  destruct (nth i bm false); [left|right]; auto.
Qed.

Lemma masked_nth i :
  i < n ->
  nth i (smp_masked_column mask fit c) NaN
  = if nth i bm false then NaN else nth i col NaN.
Proof.
  intros Hi. pose proof smp_mask_shape as Hs. unfold smp_masked_column.
  rewrite (map2_nth _ _ _ _ NaN NaN)
    by (rewrite ?column_length, ?not_empty_mask_length; lia).
  rewrite not_empty_mask_nth by lia.
  destruct (col_cases i Hi) as [[Hb Hx]|[Hb [y Hx]]]; rewrite Hb, Hx.
  - rewrite nem_true. reflexivity.
  - rewrite nem_false. apply fmul_one.
Qed.

Lemma masked_length : length (smp_masked_column mask fit c) = n.
Proof.
  pose proof smp_mask_shape. unfold smp_masked_column.
  rewrite map2_length, column_length, not_empty_mask_length. lia.
Qed.

Lemma masked_values :
  Forall (fun x => x = NaN \/ is_finite x = true)
    (smp_masked_column mask fit c).
Proof.
  apply Forall_forall. intros x Hx. apply (In_nth _ _ NaN) in Hx.
  destruct Hx as [i [Hi <-]]. rewrite masked_length in Hi.
  rewrite masked_nth by exact Hi.
  destruct (col_cases i Hi) as [[Hb Hx]|[Hb [y Hx]]]; rewrite Hb; auto.
  rewrite Hx. auto.
Qed.

Lemma masked_In q :
  In (Fin q) (smp_masked_column mask fit c) <->
  exists i, i < n /\ nth i bm false = false /\ nth i col NaN = Fin q.
Proof.
  split.
  - intros H. apply (In_nth _ _ NaN) in H. destruct H as [i [Hi E]].
    rewrite masked_length in Hi. rewrite masked_nth in E by exact Hi.
    exists i. destruct (nth i bm false); [discriminate|auto].
  - intros [i [Hi [Hb E]]]. rewrite <- E.
    replace (nth i col NaN) with (nth i (smp_masked_column mask fit c) NaN)
      by (rewrite masked_nth, Hb; auto).
    apply nth_In. rewrite masked_length. exact Hi.
Qed.

(** The amplitude is the difference of two valid values that bound all
    the others. *)
Lemma amplitude_spec :
  exists M M',
    amp = Fin (round32 (M - M'))
    /\ In (Fin M) (smp_masked_column mask fit c)
    /\ In (Fin M') (smp_masked_column mask fit c)
    /\ forall q, In (Fin q) (smp_masked_column mask fit c) ->
                 (M' <= q)%Qc /\ (q <= M)%Qc.
Proof.
  destruct (valid_count_index bm ltac:(lia)) as [i [Hi Hb]].
  rewrite <- smp_mask_shape in Hi.
  destruct (col_cases i Hi) as [[Hb' _]|[_ [y Hy]]]; [congruence|].
  assert (Hin : In (Fin y) (smp_masked_column mask fit c))
    by (apply masked_In; eauto).
  unfold smp_score_amplitude.
  destruct (nanmax_spec _ masked_values) as [[_ Hn]|[M [EM [HM HbM]]]];
    [destruct (Hn y Hin)|].
  destruct (nanmin_spec _ masked_values) as [[_ Hn]|[M' [EM' [HM' HbM']]]];
    [destruct (Hn y Hin)|].
  exists M, M'. rewrite EM, EM'. repeat split; auto.
Qed.

Lemma dist_fitnesses_length : length (smp_dist_fitnesses mask fit c) = n.
Proof.
  pose proof smp_mask_shape. unfold smp_dist_fitnesses.
  rewrite map2_length, column_length, not_empty_mask_length. lia.
Qed.

Lemma dist_fitnesses_nth A i :
  amp = Fin A -> i < n ->
  nth i (smp_dist_fitnesses mask fit c) NaN
  = shift (key_shift A) (nth i col NaN).
Proof.
  intros EA Hi. pose proof smp_mask_shape as Hs. unfold smp_dist_fitnesses.
  rewrite (map2_nth _ _ _ _ NaN NaN)
    by (rewrite ?column_length, ?not_empty_mask_length; lia).
  rewrite not_empty_mask_nth by lia. rewrite EA.
  destruct (col_cases i Hi) as [[Hb Hx]|[Hb [y Hx]]]; rewrite Hb, Hx;
    reflexivity.
Qed.

Lemma sigma_perm : Permutation sigma (seq 0 n).
Proof.
  unfold smp_sorted_index, argsort_fl.
  rewrite <- dist_fitnesses_length. apply argsort_perm.
Qed.

Lemma sigma_length : length sigma = n.
Proof. rewrite (Permutation_length sigma_perm). apply length_seq. Qed.

Lemma sigma_lt p : p < n -> nth p sigma 0 < n.
Proof.
  intros Hp.
  assert (H : In (nth p sigma 0) (seq 0 n)).
  { eapply Permutation_in; [apply sigma_perm|].
    apply nth_In. rewrite sigma_length. exact Hp. }
  apply in_seq in H. lia.
Qed.

Lemma srt_nth p : p < n -> nth p srt NaN = nth (nth p sigma 0) col NaN.
Proof.
  intros Hp. unfold smp_srt_fitnesses, srt_column.
  apply take_nth. rewrite sigma_length. exact Hp.
Qed.

Lemma srt_column_length : length srt = n.
Proof.
  unfold smp_srt_fitnesses, srt_column. rewrite take_length.
  apply sigma_length.
Qed.

(** The sorted column is sorted by key, not by value. *)
Lemma srt_sorted A :
  amp = Fin A ->
  StronglySorted
    (fun a b => sort_leb (shift (key_shift A) a) (shift (key_shift A) b) = true)
    srt.
Proof.
  intros EA.
  pose proof (sorted_fl_sorted (smp_dist_fitnesses mask fit c)) as Hs.
  rewrite (sorted_argsort fl sort_leb _ NaN) in Hs.
  fold argsort_fl in Hs. fold (smp_sorted_index mask fit c) in Hs.
  assert (E : take NaN (smp_dist_fitnesses mask fit c) sigma
              = map (shift (key_shift A)) srt).
  { unfold smp_srt_fitnesses, srt_column, take. rewrite map_map.
    apply map_ext_in. intros i Hi. apply dist_fitnesses_nth; auto.
    apply (Permutation_in _ sigma_perm) in Hi. apply in_seq in Hi. lia. }
  rewrite E in Hs. now apply StronglySorted_map_inv in Hs.
Qed.

Lemma srt_perm : Permutation srt col.
Proof.
  unfold smp_srt_fitnesses, srt_column. apply take_perm.
  rewrite column_length. apply sigma_perm.
Qed.

Lemma col_finite i :
  i < n -> is_finite (nth i col NaN) = negb (nth i bm false).
Proof.
  intros Hi.
  destruct (col_cases i Hi) as [[Hb Hx]|[Hb [y Hx]]]; rewrite Hb, Hx;
    reflexivity.
Qed.

(** The sorted column: the empty rows first, then the valid values in
    the order of their keys. *)
Lemma srt_shape A :
  amp = Fin A ->
  exists e ys,
    srt = sorted_column e ys
    /\ StronglySorted
         (fun a b => sort_leb (shift (key_shift A) (Fin a))
                       (shift (key_shift A) (Fin b)) = true) ys
    /\ length ys = valid_count bm /\ e + length ys = n.
Proof.
  intros EA.
  assert (Hvals : Forall (fun x => x = NInf \/ is_finite x = true) srt).
  { apply Forall_forall. intros x Hx.
    apply (Permutation_in _ srt_perm) in Hx.
    apply (In_nth _ _ NaN) in Hx. destruct Hx as [i [Hi <-]].
    rewrite column_length in Hi.
    destruct (col_cases i Hi) as [[_ Hx]|[_ [y Hx]]]; rewrite Hx; auto. }
  destruct (keyed_column_shape (shift (key_shift A)) srt eq_refl
              (fun y => eq_refl) (srt_sorted A EA) Hvals)
    as [e [ys [E Hys]]].
  exists e, ys. split; [exact E|]. split; [exact Hys|].
  assert (Hcount : length ys = valid_count bm).
  { rewrite <- (sorted_column_finite_count e ys), <- E.
    rewrite (Permutation_filter_length is_finite _ _ srt_perm).
    apply finite_count.
    - rewrite column_length. apply smp_mask_shape.
    - intros i Hi. rewrite column_length in Hi. now apply col_finite. }
  split; [exact Hcount|].
  rewrite <- (srt_length e ys), <- E. apply srt_column_length.
Qed.

Local Abbreviation tau := (argsort_nat sigma).

(** The rank of row [i]: its position in the sorted column. *)
Lemma rank_spec i :
  i < n -> nth i tau 0 < n /\ nth (nth i tau 0) sigma 0 = i.
Proof.
  intros Hi. pose proof sigma_perm as P. pose proof sigma_length as Hl.
  rewrite <- Hl in P, Hi. rewrite <- Hl at 1.
  now apply argsort_inverse.
Qed.

Lemma rank_of_position p : p < n -> nth (nth p sigma 0) tau 0 = p.
Proof.
  intros Hp. pose proof sigma_perm as P. pose proof sigma_length as Hl.
  rewrite <- Hl in P, Hp. now apply argsort_inverse_r.
Qed.

Lemma smp_contribution_nth i :
  i < n ->
  let p := nth i tau 0 in
  nth i (smp_contribution mask fit c) NaN
  = with_ends_sum
      (fdiv (fsub (nth p srt NaN) (before srt p)) amp)
      (fdiv (fsub (after srt p) (nth p srt NaN)) amp).
Proof.
  intros Hi p. destruct (rank_spec i Hi) as [Hp _]. fold p in Hp.
  unfold smp_contribution.
  set (f := fun ji => fadd (nth ji (dist_to_last_with_ends mask fit c) NaN)
                        (nth ji (dist_to_next_with_ends mask fit c) NaN)).
  rewrite (nth_indep _ NaN (f 0))
    by (rewrite length_map; unfold argsort_nat; rewrite argsort_length,
          sigma_length; exact Hi).
  rewrite (map_nth f). fold p. unfold f, with_ends_sum.
  unfold dist_to_last_with_ends, dist_to_next_with_ends.
  unfold smp_dist_to_last, smp_dist_to_next.
  rewrite !(map2_nth _ _ _ _ NaN NaN)
    by (rewrite ?dist_to_last_length, ?dist_to_next_length,
          ?srt_column_length; exact Hp).
  rewrite dist_to_last_nth, dist_to_next_nth
    by (rewrite srt_column_length; exact Hp).
  reflexivity.
Qed.

Lemma sorted_column_In e ys q :
  In (Fin q) (sorted_column e ys) -> In q ys.
Proof.
  unfold sorted_column. intros H. apply in_app_or in H.
  destruct H as [H|H].
  - apply repeat_spec in H. discriminate.
  - apply in_map_iff in H. destruct H as [y [E Hy]]. inversion E; subst; auto.
Qed.

Lemma masked_In_sorted e ys q :
  srt = sorted_column e ys ->
  In (Fin q) (smp_masked_column mask fit c) -> In q ys.
Proof.
  intros E H. apply masked_In in H. destruct H as [i [Hi [_ Hx]]].
  apply (sorted_column_In e). rewrite <- E.
  apply (Permutation_in _ (Permutation_sym srt_perm)).
  rewrite <- Hx. apply nth_In. rewrite column_length. exact Hi.
Qed.

(** Position of a row in terms of the shape of the sorted column. *)
Lemma rank_empty e ys i :
  srt = sorted_column e ys -> e + length ys = n ->
  i < n -> nth i bm false = true -> nth i tau 0 < e.
Proof.
  intros E Hn Hi Hb. destruct (rank_spec i Hi) as [Hp Hs].
  destruct (Nat.lt_ge_cases (nth i tau 0) e) as [|Hge]; auto. exfalso.
  pose proof (srt_nth _ Hp) as Hx. rewrite Hs, E in Hx.
  replace (nth i tau 0) with (e + (nth i tau 0 - e)) in Hx by lia.
  rewrite srt_valid in Hx by lia.
  destruct (col_cases i Hi) as [[_ Hc]|[Hb' _]]; congruence.
Qed.

Lemma rank_valid e ys i :
  srt = sorted_column e ys -> e + length ys = n ->
  i < n -> nth i bm false = false ->
  exists j, j < length ys /\ nth i tau 0 = e + j.
Proof.
  intros E Hn Hi Hb. destruct (rank_spec i Hi) as [Hp Hs].
  destruct (Nat.lt_ge_cases (nth i tau 0) e) as [Hlt|Hge].
  - exfalso. pose proof (srt_nth _ Hp) as Hx. rewrite Hs, E in Hx.
    rewrite srt_empty in Hx by exact Hlt.
    destruct (col_cases i Hi) as [[Hb' _]|[_ [y Hc]]]; congruence.
  - exists (nth i tau 0 - e). split; lia.
Qed.

(** With a positive amplitude, an empty row contributes NaN and a valid
    row a finite amount. *)
Lemma column_contribution_values A :
  amp = Fin A -> (0 < A)%Qc ->
  (forall i, i < n -> nth i bm false = true ->
             nth i (smp_contribution mask fit c) NaN = NaN)
  /\ (forall i, i < n -> nth i bm false = false ->
                exists g, nth i (smp_contribution mask fit c) NaN = Fin g).
Proof.
  intros EA HA. destruct (srt_shape A EA) as [e [ys [E [Hys [Hcnt Hn]]]]].
  assert (Hv : 2 <= length ys) by (rewrite Hcnt; exact two_valid).
  split.
  - intros i Hi Hb. rewrite smp_contribution_nth by exact Hi. cbv zeta.
    rewrite E. apply contribution_empty. now apply (rank_empty e ys).
  - intros i Hi Hb. rewrite smp_contribution_nth by exact Hi. cbv zeta.
    destruct (rank_valid e ys i E Hn Hi Hb) as [j [Hj ->]].
    rewrite E, EA, contribution_valid by auto.
    eexists; reflexivity.
Qed.

(** With a zero amplitude every row contributes NaN. *)
Lemma column_contribution_flat :
  amp = Fin 0%Qc ->
  forall i, i < n -> nth i (smp_contribution mask fit c) NaN = NaN.
Proof.
  intros EA i Hi.
  destruct (srt_shape 0%Qc EA) as [e [ys [E [Hys [Hcnt Hn]]]]].
  assert (Hv : 2 <= length ys) by (rewrite Hcnt; exact two_valid).
  rewrite smp_contribution_nth by exact Hi. cbv zeta.
  destruct (nth i bm false) eqn:Hb.
  - rewrite E. apply contribution_empty. now apply (rank_empty e ys).
  - destruct (rank_valid e ys i E Hn Hi Hb) as [j [Hj ->]].
    rewrite E, EA. apply contribution_valid_flat; auto.
    destruct amplitude_spec as [M [M' [EM [_ [_ Hbound]]]]].
    rewrite EA in EM.
    assert (EM0 : (M - M')%Qc = 0%Qc) by (apply round32_eq_zero; congruence).
    assert (HMM : M = M').
    { replace M with ((M - M') + M')%Qc by ring. rewrite EM0. ring. }
    assert (Hall : forall k, k < length ys -> nth k ys 0%Qc = M).
    { intros k Hk.
      assert (Hin : In (Fin (nth k ys 0%Qc)) (smp_masked_column mask fit c)).
      { assert (Hp : e + k < n) by lia.
        pose proof (sigma_lt _ Hp) as Hi'.
        pose proof (srt_nth _ Hp) as Hx. rewrite E, srt_valid in Hx by lia.
        apply masked_In. exists (nth (e + k) sigma 0).
        split; [exact Hi'|]. split; [|symmetry; exact Hx].
        destruct (col_cases _ Hi') as [[_ Hc]|[Hb' _]]; [congruence|auto]. }
      destruct (Hbound _ Hin) as [H1 H2].
      apply Qcle_antisym; [exact H2|]. rewrite HMM at 1. exact H1. }
    intros k Hk. rewrite !Hall by lia. reflexivity.
Qed.
Lemma amplitude_nonneg : exists A, amp = Fin A /\ (0 <= A)%Qc.
Proof.
  destruct amplitude_spec as [M [M' [EM [HM [_ Hbound]]]]].
  exists (round32 (M - M')). split; [exact EM|].
  destruct (Hbound M HM) as [H _]. apply round32_nonneg. clear - H. qc_lra.
Qed.

(** What stands at the first and at the last valid position of the sorted
    column, whatever the amplitude. *)
Lemma gap_not_PInf (A a b : Qc) :
  (0 <= A)%Qc -> (A = 0%Qc -> a = b) ->
  fdiv (fsub (Fin b) (Fin a)) (Fin A) <> PInf.
Proof.
  intros HA Hflat. destruct (Qcle_lt_or_eq _ _ HA) as [Hpos|Hz].
  - rewrite fsub_Fin, fdiv_Fin_pos by exact Hpos. discriminate.
  - rewrite <- Hz, (Hflat (eq_sym Hz)), fsub_Fin. unfold Qcminus.
    rewrite Qcplus_opp_r. discriminate.
Qed.

Lemma valid_values_flat e ys :
  amp = Fin 0%Qc -> srt = sorted_column e ys -> e + length ys = n ->
  forall k k', k < length ys -> k' < length ys ->
               nth k ys 0%Qc = nth k' ys 0%Qc.
Proof.
  intros EA E Hn.
  destruct amplitude_spec as [M [M' [EM [_ [_ Hbound]]]]].
  rewrite EA in EM.
  assert (EM0 : (M - M')%Qc = 0%Qc) by (apply round32_eq_zero; congruence).
  assert (HMM : M = M').
  { replace M with ((M - M') + M')%Qc by ring. rewrite EM0. ring. }
  assert (Hall : forall k, k < length ys -> nth k ys 0%Qc = M).
  { intros k Hk.
    assert (Hin : In (Fin (nth k ys 0%Qc)) (smp_masked_column mask fit c)).
    { assert (Hp : e + k < n) by lia.
      pose proof (sigma_lt _ Hp) as Hi'.
      pose proof (srt_nth _ Hp) as Hx. rewrite E, srt_valid in Hx by lia.
      apply masked_In. exists (nth (e + k) sigma 0).
      split; [exact Hi'|]. split; [|symmetry; exact Hx].
      destruct (col_cases _ Hi') as [[_ Hc]|[Hb' _]]; [congruence|auto]. }
    destruct (Hbound _ Hin) as [H1 H2].
    apply Qcle_antisym; [exact H2|]. rewrite HMM at 1. exact H1. }
  intros k k' Hk Hk'. now rewrite !Hall.
Qed.

Lemma column_contribution_finite i :
  i < n ->
  nth i (smp_contribution mask fit c) NaN = NaN
  \/ is_finite (nth i (smp_contribution mask fit c) NaN) = true.
Proof.
  intros Hi. destruct amplitude_nonneg as [A [EA HA]].
  destruct (Qcle_lt_or_eq _ _ HA) as [Hpos|Hz].
  - destruct (column_contribution_values A EA Hpos) as [H1 H2].
    destruct (nth i bm false) eqn:Hb; [left; now apply H1|right].
    destruct (H2 i Hi Hb) as [g ->]. reflexivity.
  - left. apply column_contribution_flat; [|exact Hi]. now rewrite Hz.
Qed.

Lemma boundary_substitution :
  let first := n - valid_count bm in
  let last := n - 1 in
  nth first (smp_dist_to_last mask fit c) NaN = PInf
  /\ nth first (dist_to_last_with_ends mask fit c) NaN
     = nth first (smp_dist_to_next mask fit c) NaN
  /\ nth first (smp_dist_to_next mask fit c) NaN <> PInf
  /\ nth last (smp_dist_to_next mask fit c) NaN = PInf
  /\ nth last (dist_to_next_with_ends mask fit c) NaN
     = nth last (smp_dist_to_last mask fit c) NaN
  /\ nth last (smp_dist_to_last mask fit c) NaN <> PInf.
Proof.
  intros first last. destruct amplitude_nonneg as [A [EA HA]].
  destruct (srt_shape A EA) as [e [ys [E [Hys [Hcnt Hn]]]]].
  assert (Hv : 2 <= length ys) by (rewrite Hcnt; exact two_valid).
  assert (Hfirst : first = e + 0) by (unfold first; lia).
  assert (Hlast : last = e + (length ys - 1)) by (unfold last; lia).
  assert (Hflat : A = 0%Qc -> forall k k', k < length ys -> k' < length ys ->
                                nth k ys 0%Qc = nth k' ys 0%Qc).
  { intros ->. now apply (valid_values_flat e ys). }
  assert (Lf : nth first (smp_dist_to_last mask fit c) NaN = PInf).
  { unfold smp_dist_to_last.
    rewrite dist_to_last_nth by (rewrite srt_column_length; lia).
    rewrite E, EA, Hfirst, srt_valid, before_first_valid by lia.
    now apply fdiv_PInf. }
  assert (Nf : nth first (smp_dist_to_next mask fit c) NaN <> PInf).
  { unfold smp_dist_to_next.
    rewrite dist_to_next_nth by (rewrite srt_column_length; lia).
    rewrite E, EA, Hfirst, srt_valid, after_valid by lia.
    apply gap_not_PInf; [exact HA|]. intros Hz. apply Hflat; auto; lia. }
  assert (Nl : nth last (smp_dist_to_next mask fit c) NaN = PInf).
  { unfold smp_dist_to_next.
    rewrite dist_to_next_nth by (rewrite srt_column_length; lia).
    rewrite E, EA, Hlast, srt_valid, after_last_valid by lia.
    now apply fdiv_PInf. }
  assert (Ll : nth last (smp_dist_to_last mask fit c) NaN <> PInf).
  { unfold smp_dist_to_last.
    rewrite dist_to_last_nth by (rewrite srt_column_length; lia).
    rewrite E, EA, Hlast, srt_valid by lia.
    replace (e + (length ys - 1)) with (e + S (length ys - 2)) by lia.
    rewrite before_valid by lia.
    apply gap_not_PInf; [exact HA|]. intros Hz. apply Hflat; auto; lia. }
  repeat split; auto.
  - unfold dist_to_last_with_ends.
    rewrite (map2_nth _ _ _ _ NaN NaN)
      by (unfold smp_dist_to_last, smp_dist_to_next;
          rewrite ?dist_to_last_length, ?dist_to_next_length,
            ?srt_column_length; lia).
    rewrite Lf. reflexivity.
  - unfold dist_to_next_with_ends.
    rewrite (map2_nth _ _ _ _ NaN NaN)
      by (unfold smp_dist_to_last, smp_dist_to_next;
          rewrite ?dist_to_last_length, ?dist_to_next_length,
            ?srt_column_length; lia).
    rewrite Nl. reflexivity.
Qed.
(** From here on rounding merges no two keys of the objective: the valid
    values of the sorted column are then in increasing order. *)
Hypothesis separate :
  keys_separate col (smp_dist_fitnesses mask fit c) = true.

Lemma separate_values A a b :
  amp = Fin A -> In (Fin a) col -> In (Fin b) col -> (a < b)%Qc ->
  sort_leb (shift (key_shift A) (Fin b)) (shift (key_shift A) (Fin a)) = false.
Proof.
  intros EA Ha Hb Hab.
  apply (In_nth _ _ NaN) in Ha. destruct Ha as [i [Hi Ei]].
  apply (In_nth _ _ NaN) in Hb. destruct Hb as [j [Hj Ej]].
  assert (Hlt : fltb (nth i col NaN) (nth j col NaN) = true).
  { rewrite Ei, Ej. cbn [fltb]. apply negb_true_iff.
    now apply Qle_bool_Qclt. }
  pose proof (keys_separate_nth _ _ i j separate Hi Hj Hlt) as Hk.
  rewrite column_length in Hi, Hj.
  rewrite !(dist_fitnesses_nth A) in Hk by assumption.
  rewrite Ei, Ej in Hk. cbn [shift fltb sort_leb fleb] in *.
  now apply negb_true_iff in Hk.
Qed.

Lemma srt_values_sorted A e ys :
  amp = Fin A -> srt = sorted_column e ys ->
  StronglySorted
    (fun a b => sort_leb (shift (key_shift A) (Fin a))
                  (shift (key_shift A) (Fin b)) = true) ys ->
  StronglySorted Qcle ys.
Proof.
  intros EA E Hys.
  assert (Hin : forall a, In a ys -> In (Fin a) col).
  { intros a Ha. apply (Permutation_in _ srt_perm). rewrite E.
    unfold sorted_column. apply in_or_app. right. now apply in_map. }
  clear E. induction Hys as [|a ys Hs IH Ha]; constructor.
  - apply IH. intros b Hb. apply Hin. now right.
  - rewrite Forall_forall in *. intros b Hb. specialize (Ha b Hb).
    destruct (Qclt_le_dec b a) as [Hlt|]; auto. exfalso.
    rewrite (separate_values A b a EA) in Ha; auto; try discriminate.
    + apply Hin. now right.
    + apply Hin. now left.
Qed.

(** With a positive amplitude, an empty row contributes NaN and a valid
    row a non-negative finite amount, positive for some valid row. *)
Lemma column_contribution A :
  amp = Fin A -> (0 < A)%Qc ->
  (forall i, i < n -> nth i bm false = true ->
             nth i (smp_contribution mask fit c) NaN = NaN)
  /\ (forall i, i < n -> nth i bm false = false ->
                exists g, nth i (smp_contribution mask fit c) NaN = Fin g
                          /\ (0 <= g)%Qc)
  /\ (exists i g, i < n /\ nth i bm false = false
                  /\ nth i (smp_contribution mask fit c) NaN = Fin g
                  /\ (0 < g)%Qc).
Proof.
  intros EA HA. destruct (srt_shape A EA) as [e [ys [E [Hks [Hcnt Hn]]]]].
  pose proof (srt_values_sorted A e ys EA E Hks) as Hys.
  assert (Hv : 2 <= length ys) by (rewrite Hcnt; exact two_valid).
  split; [|split].
  - intros i Hi Hb. rewrite smp_contribution_nth by exact Hi. cbv zeta.
    rewrite E. apply contribution_empty. now apply (rank_empty e ys).
  - intros i Hi Hb. rewrite smp_contribution_nth by exact Hi. cbv zeta.
    destruct (rank_valid e ys i E Hn Hi Hb) as [j [Hj ->]].
    rewrite E, EA, contribution_valid by auto.
    eexists; split; [reflexivity|]. now apply ends_contrib_nonneg.
  - destruct amplitude_spec as [M [M' [EM [HM [HM' _]]]]].
    assert (HltM : (M' < M)%Qc).
    { rewrite EA in EM. inversion EM; subst A.
      apply round32_pos_inv in HA. clear - HA. qc_lra. }
    destruct (sorted_not_constant ys M' M Hys
                (masked_In_sorted e ys M' E HM')
                (masked_In_sorted e ys M E HM) HltM) as [j [Hj Hgap]].
    assert (Hp : e + j < n) by lia.
    exists (nth (e + j) sigma 0), (ends_contrib A ys j).
    pose proof (sigma_lt _ Hp) as Hi.
    assert (Hb : nth (nth (e + j) sigma 0) bm false = false).
    { pose proof (srt_nth _ Hp) as Hx. rewrite E, srt_valid in Hx by lia.
      destruct (col_cases _ Hi) as [[_ Hc]|[Hb _]]; [congruence|exact Hb]. }
    split; [exact Hi|]. split; [exact Hb|]. split.
    + rewrite smp_contribution_nth by exact Hi. cbv zeta.
      rewrite rank_of_position by exact Hp.
      rewrite E, EA. apply contribution_valid; auto; lia.
    + now apply ends_contrib_pos.
Qed.
End SamplerColumn.

(** ** Sums of finite floats *)

Lemma fsum_map_Fin gs : fsum (map Fin gs) = Fin (qtotal gs).
Proof.
  unfold fsum. induction gs as [|g gs IH]; [reflexivity|].
  cbn [map fold_right]. rewrite IH. reflexivity.
Qed.

Lemma all_finite_map (l : list fl) :
  Forall (fun x => is_finite x = true) l -> l = map Fin (map to_qc l).
Proof.
  induction 1 as [|x l Hx _ IH]; [reflexivity|].
  cbn [map]. rewrite <- IH. destruct x; try discriminate. reflexivity.
Qed.

Lemma nan_to_map_Fin d gs : map (nan_to d) (map Fin gs) = map Fin gs.
Proof. rewrite map_map. apply map_ext. reflexivity. Qed.

Lemma qtotal_nonneg gs : Forall (fun g => 0 <= g)%Qc gs -> (0 <= qtotal gs)%Qc.
Proof.
  induction 1 as [|g gs Hg _ IH]; [apply Qcle_refl|].
  cbn [qtotal fold_right]. now apply Qc_sum_nonneg.
Qed.

Lemma qtotal_pos gs g :
  Forall (fun g => 0 <= g)%Qc gs -> In g gs -> (0 < g)%Qc ->
  (0 < qtotal gs)%Qc.
Proof.
  induction 1 as [|x gs Hx Hgs IH]; intros Hin Hg; [destruct Hin|].
  cbn [qtotal fold_right]. destruct Hin as [->|Hin].
  - apply Qc_sum_pos_l; [exact Hg|now apply qtotal_nonneg].
  - apply Qc_sum_pos_r; [exact Hx|now apply IH].
Qed.

Lemma qtotal_scaled gs (s : Qc) :
  qtotal (map (fun g => g / s)%Qc gs) = (qtotal gs / s)%Qc.
Proof.
  induction gs as [|g gs IH]; cbn [map qtotal fold_right].
  - unfold Qcdiv. ring.
  - fold (qtotal (map (fun g => (g / s)%Qc) gs)). rewrite IH.
    fold (qtotal gs). unfold Qcdiv. ring.
Qed.

Lemma normalised_sum gs :
  (0 < qtotal gs)%Qc ->
  fsum (map (fun x => fdiv x (Fin (qtotal gs))) (map Fin gs)) = F 1.
Proof.
  intros Hpos. rewrite map_map.
  rewrite (map_ext _ (fun g => Fin (g / qtotal gs)%Qc))
    by (intros g; now apply fdiv_Fin_pos).
  rewrite <- (map_map (fun g => (g / qtotal gs)%Qc) Fin).
  rewrite fsum_map_Fin, qtotal_scaled. unfold F. f_equal.
  change (qz 1) with 1%Qc. unfold Qcdiv. apply Qcmult_inv_r.
  intros E. rewrite E in Hpos. revert Hpos. apply Qcle_not_lt, Qcle_refl.
Qed.

Lemma qz_succ k : qz (Z.of_nat (S k)) = (qz (Z.of_nat k) + 1)%Qc.
Proof.
  change 1%Qc with (qz 1). rewrite qz_add. f_equal. lia.
Qed.

Lemma uniform_total bm (w : Qc) :
  qtotal (map (fun b : bool => if b then 0%Qc else w) bm)
  = (qz (Z.of_nat (valid_count bm)) * w)%Qc.
Proof.
  unfold valid_count, count_true.
  induction bm as [|b bm IH]; cbn [map qtotal fold_right negb filter id length].
  - change (qz (Z.of_nat 0)) with 0%Qc. ring.
  - fold (qtotal (map (fun b : bool => if b then 0%Qc else w) bm)).
    rewrite IH. destruct b; cbn [negb id length].
    + ring.
    + rewrite qz_succ. ring.
Qed.

(** The uniform distribution over the valid slots sums to 1. *)
Lemma uniform_probabilities_sum bm :
  1 <= valid_count bm ->
  fsum (map (fun b : bool => if b then F 0 else one_over (valid_count bm)) bm)
  = F 1.
Proof.
  intros Hv.
  rewrite (map_ext _ (fun b : bool =>
             Fin (if b then 0%Qc else (1 / qz (Z.of_nat (valid_count bm)))%Qc)))
    by (intros []; reflexivity).
  rewrite <- (map_map (fun b : bool =>
                if b then 0%Qc else (1 / qz (Z.of_nat (valid_count bm)))%Qc)
               Fin).
  rewrite fsum_map_Fin, uniform_total. unfold F. f_equal.
  change (qz 1) with 1%Qc. unfold Qcdiv. rewrite Qcmult_1_l.
  apply Qcmult_inv_r. intros E.
  pose proof (qz_pos _ Hv) as Hp. rewrite E in Hp.
  revert Hp. apply Qcle_not_lt, Qcle_refl.
Qed.

(** ** The crowding branch of the per-front sampler *)

Lemma fsum_NaN (l : list fl) : In NaN l -> fsum l = NaN.
Proof.
  unfold fsum. induction l as [|x l IH]; [intros []|].
  intros [->|H]; cbn [fold_right]; [reflexivity|].
  rewrite IH by exact H. destruct x; reflexivity.
Qed.

Lemma Qc_div_nonneg (a b : Qc) : (0 <= a)%Qc -> (0 < b)%Qc -> (0 <= a / b)%Qc.
Proof.
  intros Ha Hb. qc_unfold. qc_abstract.
  apply Qmult_le_0_compat; [lra|]. apply Qlt_le_weak, Qinv_lt_0_compat. lra.
Qed.

Lemma Qc_div_pos (a b : Qc) : (0 < a)%Qc -> (0 < b)%Qc -> (0 < a / b)%Qc.
Proof.
  intros Ha Hb. qc_unfold. qc_abstract.
  apply Qmult_lt_0_compat; [lra|]. apply Qinv_lt_0_compat. lra.
Qed.

Section SamplerFront.
Variable fit : matrix.
Variable bm : list bool.

Hypothesis well_formed : front_well_formed fit bm = true.
Hypothesis two_valid : 2 <= valid_count bm.

Local Abbreviation n := (length fit).
Local Abbreviation m := (shape1 fit).
Local Abbreviation mask := (not_empty_mask bm).
Local Abbreviation crowd := (smp_crowding_distances mask fit).

Lemma objectives_pos : 1 <= m.
Proof.
  unfold front_well_formed in well_formed.
  apply andb_true_iff in well_formed. destruct well_formed as [H _].
  apply andb_true_iff in H. destruct H as [_ H]. now apply Nat.leb_le.
Qed.

Lemma crowd_length : length crowd = n.
Proof.
  unfold smp_crowding_distances, mean_over_columns.
  now rewrite !length_map, length_seq.
Qed.

Lemma crowd_nth i :
  i < n ->
  nth i crowd NaN
  = nan_to (F 0) (fdiv (fsum (terms fit bm i)) (F (Z.of_nat m))).
Proof.
  intros Hi. unfold smp_crowding_distances, mean_over_columns.
  rewrite map_map.
  set (f := fun i => nan_to (F 0)
              (fdiv (fsum (map (fun col : list fl => nth i col NaN)
                             (map (smp_contribution mask fit) (seq 0 m))))
                 (F (Z.of_nat m)))).
  rewrite (nth_indep _ NaN (f 0)) by (rewrite length_map, length_seq; exact Hi).
  rewrite (map_nth f), seq_nth by exact Hi. unfold f, terms.
  now rewrite map_map.
Qed.

Lemma mean_of_finite gs :
  Forall (fun g => 0 <= g)%Qc gs ->
  exists G, fdiv (fsum (map Fin gs)) (F (Z.of_nat m)) = Fin G
            /\ (0 <= G)%Qc
            /\ (forall g, In g gs -> (0 < g)%Qc -> (0 < G)%Qc).
Proof.
  intros Hgs. pose proof (qz_pos m objectives_pos) as Hm.
  rewrite fsum_map_Fin. unfold F. rewrite fdiv_Fin_pos by exact Hm.
  eexists; split; [reflexivity|]. split.
  - apply Qc_div_nonneg; [now apply qtotal_nonneg|exact Hm].
  - intros g Hin Hg. apply Qc_div_pos; [|exact Hm].
    now apply (qtotal_pos gs g).
Qed.

Hypothesis amplitudes : positive_amplitudes fit bm = true.

Lemma positive_amplitude_at c :
  c < m ->
  exists A, smp_score_amplitude mask fit c = Fin A /\ (0 < A)%Qc.
Proof.
  intros Hc. unfold positive_amplitudes in amplitudes.
  rewrite forallb_forall in amplitudes.
  specialize (amplitudes c ltac:(apply in_seq; lia)).
  destruct (smp_score_amplitude mask fit c) as [A| | |]; try discriminate.
  exists A. split; [reflexivity|].
  apply negb_true_iff in amplitudes.
  now apply (proj1 (Qle_bool_Qclt A 0%Qc)).
Qed.

Lemma crowd_empty i :
  i < n -> nth i bm false = true -> nth i crowd NaN = F 0.
Proof.
  intros Hi Hb. rewrite crowd_nth by exact Hi.
  rewrite fsum_NaN; [reflexivity|].
  unfold terms. pose proof objectives_pos as Hm.
  destruct (positive_amplitude_at 0 ltac:(lia)) as [A [EA HA]].
  destruct (column_contribution_values fit bm 0 well_formed ltac:(lia)
              two_valid A EA HA) as [H _].
  apply in_map_iff. exists 0. split; [now apply H|apply in_seq; lia].
Qed.

(** From here on rounding merges no two keys, on any objective. *)
Hypothesis separate : smp_keys_separate fit bm = true.

Lemma separate_at c :
  c < m ->
  keys_separate (column c fit) (smp_dist_fitnesses mask fit c) = true.
Proof.
  intros Hc. unfold smp_keys_separate in separate.
  rewrite forallb_forall in separate. apply separate. apply in_seq. lia.
Qed.

Lemma terms_valid i :
  i < n -> nth i bm false = false ->
  Forall (fun x => exists g, x = Fin g /\ (0 <= g)%Qc) (terms fit bm i).
Proof.
  intros Hi Hb. apply Forall_forall. intros x Hx. unfold terms in Hx.
  apply in_map_iff in Hx. destruct Hx as [c [<- Hc]]. apply in_seq in Hc.
  destruct (positive_amplitude_at c ltac:(lia)) as [A [EA HA]].
  destruct (column_contribution fit bm c well_formed ltac:(lia) two_valid
              (separate_at c ltac:(lia)) A EA HA) as [_ [H _]].
  exact (H i Hi Hb).
Qed.

Lemma terms_as_rationals i :
  i < n -> nth i bm false = false ->
  terms fit bm i = map Fin (map to_qc (terms fit bm i))
  /\ Forall (fun g => 0 <= g)%Qc (map to_qc (terms fit bm i)).
Proof.
  intros Hi Hb. pose proof (terms_valid i Hi Hb) as H. split.
  - apply all_finite_map. eapply Forall_impl; [|exact H].
    intros x [g [-> _]]. reflexivity.
  - apply Forall_forall. intros g Hg. apply in_map_iff in Hg.
    destruct Hg as [x [<- Hx]]. rewrite Forall_forall in H.
    destruct (H x Hx) as [g [-> Hg]]. exact Hg.
Qed.

Lemma crowd_valid i :
  i < n -> nth i bm false = false ->
  exists G, nth i crowd NaN = Fin G /\ (0 <= G)%Qc.
Proof.
  intros Hi Hb. rewrite crowd_nth by exact Hi.
  destruct (terms_as_rationals i Hi Hb) as [E Hnn].
  rewrite E. destruct (mean_of_finite _ Hnn) as [G [EG [HG _]]].
  rewrite EG. exists G. split; [reflexivity|exact HG].
Qed.

Lemma crowd_some_positive :
  exists i G, i < n /\ nth i crowd NaN = Fin G /\ (0 < G)%Qc.
Proof.
  pose proof objectives_pos as Hm.
  destruct (positive_amplitude_at 0 ltac:(lia)) as [A [EA HA]].
  destruct (column_contribution fit bm 0 well_formed ltac:(lia) two_valid
              (separate_at 0 ltac:(lia)) A EA HA)
    as [_ [_ [i [g [Hi [Hb [Eg Hg]]]]]]].
  destruct (terms_as_rationals i Hi Hb) as [E Hnn].
  destruct (mean_of_finite _ Hnn) as [G [EG [_ HG]]].
  exists i, G. split; [exact Hi|]. split.
  - rewrite crowd_nth by exact Hi. rewrite E, EG. reflexivity.
  - apply (HG g); [|exact Hg].
    change g with (to_qc (Fin g)). apply in_map. rewrite <- Eg.
    unfold terms.
    apply (in_map (fun c => nth i (smp_contribution mask fit c) NaN)).
    apply in_seq. lia.
Qed.

Lemma crowd_entry i :
  i < n ->
  exists G, nth i crowd NaN = Fin G /\ (0 <= G)%Qc
            /\ (nth i bm false = true -> G = 0%Qc).
Proof.
  intros Hi. destruct (nth i bm false) eqn:Hb.
  - exists 0%Qc. split; [now apply crowd_empty|].
    split; [apply Qcle_refl|reflexivity].
  - destruct (crowd_valid i Hi Hb) as [G [E HG]].
    exists G. split; [exact E|]. split; [exact HG|discriminate].
Qed.

(** The crowding distances are finite and non-negative rationals, not all
    zero. *)
Lemma crowd_as_rationals :
  crowd = map Fin (map to_qc crowd)
  /\ Forall (fun g => 0 <= g)%Qc (map to_qc crowd)
  /\ (0 < qtotal (map to_qc crowd))%Qc.
Proof.
  assert (Hall : forall x, In x crowd -> exists G, x = Fin G /\ (0 <= G)%Qc).
  { intros x Hx. apply (In_nth _ _ NaN) in Hx. destruct Hx as [i [Hi <-]].
    rewrite crowd_length in Hi.
    destruct (crowd_entry i Hi) as [G [E [HG _]]]. eauto. }
  assert (Hnn : Forall (fun g => 0 <= g)%Qc (map to_qc crowd)).
  { apply Forall_forall. intros g Hg. apply in_map_iff in Hg.
    destruct Hg as [x [<- Hx]]. destruct (Hall x Hx) as [G [-> HG]].
    exact HG. }
  split; [|split; [exact Hnn|]].
  - apply all_finite_map. apply Forall_forall. intros x Hx.
    destruct (Hall x Hx) as [G [-> _]]. reflexivity.
  - destruct crowd_some_positive as [i [G [Hi [E HG]]]].
    apply (qtotal_pos _ G); auto.
    change G with (to_qc (Fin G)). rewrite <- E. apply in_map.
    apply nth_In. rewrite crowd_length. exact Hi.
Qed.

(** The normalised crowding distances form a probability distribution
    supported by the valid slots. *)
Lemma crowding_probabilities :
  let P := compute_crowding_distances mask fit in
  length P = n
  /\ (forall i, i < n ->
                exists q, nth i P NaN = Fin q /\ (0 <= q)%Qc
                          /\ (nth i bm false = true -> q = 0%Qc))
  /\ fsum P = F 1.
Proof.
  destruct crowd_as_rationals as [E [Hnn Hpos]].
  set (gs := map to_qc crowd) in *.
  assert (HS : nansum crowd = Fin (qtotal gs)).
  { unfold nansum. rewrite E, nan_to_map_Fin. apply fsum_map_Fin. }
  cbv zeta. unfold compute_crowding_distances. rewrite HS.
  split; [rewrite length_map; apply crowd_length|]. split.
  - intros i Hi. destruct (crowd_entry i Hi) as [G [EG [HG Hz]]].
    set (f := fun d => fdiv d (Fin (qtotal gs))).
    rewrite (nth_indep _ NaN (f NaN)) by (rewrite length_map, crowd_length; auto).
    rewrite (map_nth f), EG. unfold f. rewrite fdiv_Fin_pos by exact Hpos.
    eexists; split; [reflexivity|]. split.
    + now apply Qc_div_nonneg.
    + intros Hb. rewrite (Hz Hb). unfold Qcdiv. ring.
  - rewrite E. now apply normalised_sum.
Qed.
End SamplerFront.

(** ** The selection probabilities *)

Lemma valid_count_zero bm b : valid_count bm = 0 -> In b bm -> b = true.
Proof.
  intros H Hin. apply (in_map negb) in Hin.
  apply (count_true_zero _ _ H) in Hin. now destruct b.
Qed.

Lemma well_formed_shape fit bm :
  front_well_formed fit bm = true -> length fit = length bm.
Proof.
  unfold front_well_formed. intros H.
  apply andb_true_iff in H. destruct H as [H _].
  apply andb_true_iff in H. destruct H as [H _]. now apply Nat.eqb_eq.
Qed.




(** ** End points of the sorted objectives *)

Lemma fsum_nan_or_finite (l : list fl) :
  Forall (fun x => x = NaN \/ is_finite x = true) l ->
  fsum l = NaN \/ is_finite (fsum l) = true.
Proof.
  unfold fsum. induction 1 as [|x l Hx _ IH]; [right; reflexivity|].
  cbn [fold_right]. destruct Hx as [->|Hx]; [left; reflexivity|].
  destruct x; try discriminate.
  destruct IH as [->|IH]; [left; reflexivity|].
  destruct (fold_right fadd (F 0) l); try discriminate. right; reflexivity.
Qed.

Lemma crowding_scores_finite fit bm :
  front_well_formed fit bm = true ->
  2 <= valid_count bm ->
  Forall (fun x => is_finite x = true)
    (smp_crowding_distances (not_empty_mask bm) fit).
Proof.
  intros WF Hv. apply Forall_forall. intros x Hx.
  apply (In_nth _ _ NaN) in Hx. destruct Hx as [i [Hi <-]].
  rewrite crowd_length in Hi. rewrite crowd_nth by exact Hi.
  pose proof (objectives_pos fit bm WF) as Hm.
  assert (Hz : Qc_eq_bool (qz (Z.of_nat (shape1 fit))) 0%Qc = false).
  { rewrite <- qz_0, qz_eq_bool. apply Z.eqb_neq. lia. }
  destruct (fsum_nan_or_finite (terms fit bm i)) as [E|E].
  - apply Forall_forall. intros y Hy. unfold terms in Hy.
    apply in_map_iff in Hy. destruct Hy as [c [<- Hc]]. apply in_seq in Hc.
    apply column_contribution_finite; auto. lia.
  - rewrite E. reflexivity.
  - destruct (fsum (terms fit bm i)); try discriminate.
    unfold F. cbn [fdiv]. rewrite Hz. reflexivity.
Qed.

(** C7 (amended).  In the sampling path, on a well-formed front with at
    least two valid entries and for every objective: the first valid
    position of the sorted column has no predecessor (its distance to the
    last is +inf) and receives its distance to the next instead; the last
    position has no successor and receives its distance to the last
    instead; neither substitute is infinite, and every crowding score is
    finite. *)
Theorem sampling_boundary_substitution fit bm c :
  front_well_formed fit bm = true ->
  2 <= valid_count bm ->
  c < shape1 fit ->
  let mask := not_empty_mask bm in
  let first := length fit - valid_count bm in
  let last := length fit - 1 in
  (nth first (smp_dist_to_last mask fit c) NaN = PInf
   /\ nth first (dist_to_last_with_ends mask fit c) NaN
      = nth first (smp_dist_to_next mask fit c) NaN
   /\ nth first (smp_dist_to_next mask fit c) NaN <> PInf
   /\ nth last (smp_dist_to_next mask fit c) NaN = PInf
   /\ nth last (dist_to_next_with_ends mask fit c) NaN
      = nth last (smp_dist_to_last mask fit c) NaN
   /\ nth last (smp_dist_to_last mask fit c) NaN <> PInf)
  /\ Forall (fun x => is_finite x = true) (smp_crowding_distances mask fit).
Proof.
  intros WF Hv Hc mask first last. split.
  - exact (boundary_substitution fit bm c WF Hc Hv).
  - now apply crowding_scores_finite.
Qed.

Lemma sampling_boundary_substitution_witness :
  let mask := not_empty_mask ex_crowd_mask in
  let first := length ex_crowd_fitnesses - valid_count ex_crowd_mask in
  let last := length ex_crowd_fitnesses - 1 in
  (nth first (smp_dist_to_last mask ex_crowd_fitnesses 0) NaN = PInf
   /\ nth first (dist_to_last_with_ends mask ex_crowd_fitnesses 0) NaN
      = nth first (smp_dist_to_next mask ex_crowd_fitnesses 0) NaN
   /\ nth first (smp_dist_to_next mask ex_crowd_fitnesses 0) NaN <> PInf
   /\ nth last (smp_dist_to_next mask ex_crowd_fitnesses 0) NaN = PInf
   /\ nth last (dist_to_next_with_ends mask ex_crowd_fitnesses 0) NaN
      = nth last (smp_dist_to_last mask ex_crowd_fitnesses 0) NaN
   /\ nth last (smp_dist_to_last mask ex_crowd_fitnesses 0) NaN <> PInf)
  /\ Forall (fun x => is_finite x = true)
       (smp_crowding_distances mask ex_crowd_fitnesses).
Proof.
  apply (sampling_boundary_substitution ex_crowd_fitnesses ex_crowd_mask 0).
  - vm_compute. reflexivity.
  - vm_compute. lia.
  - vm_compute. lia.
Defined.

(** C7 as stated fails in the truncation path: in the spec's own
    truncation scenario the two extreme entries keep the infinite distance
    of their missing neighbour, only the interior entry scores a finite
    value. *)
Lemma truncation_boundary_counterexample :
  crowding_distances ex_trunc_fitnesses ex_trunc_mask ex_trunc_batch
    ex_batch_mask
  = [PInf; F 1; PInf].
Proof. apply row_beq_eq. vm_compute. reflexivity. Qed.

(** ** Payload of the valid slots *)

Lemma fmask_true_row (r : list fl) : map (fun x => fmask x true) r = r.
Proof. induction r as [|x r IH]; cbn [map]; [|rewrite IH]; reflexivity. Qed.

Lemma all_front_genotypes_nth pff pfg mask nbf nbg nmask k :
  length mask = length pff ->
  length nmask = length nbf ->
  k < length pff + length nbf ->
  nth k (all_front_genotypes pff pfg mask nbf nbg nmask) []
  = map (fun x => fmask x (0 <? num_front_elements pff mask nbf nmask))
      (nth (nth k (indices pff mask nbf nmask) 0) (cat_genotypes pfg nbg) []).
Proof.
  intros Hm Hn Hk. unfold all_front_genotypes.
  rewrite (new_mask_indices_nth pff mask nbf nmask Hm Hn 0) by lia.
  set (f := map (fun x => fmask x (0 <? num_front_elements pff mask nbf nmask))).
  match goal with
  | |- nth k (map f ?l) [] = _ => change (nth k (map f l) (f []) = f
      (nth (nth k (indices pff mask nbf nmask) 0) (cat_genotypes pfg nbg) []))
  end.
  rewrite (map_nth f). f_equal.
  apply take_nth. rewrite (indices_length pff mask nbf nmask Hm Hn). lia.
Qed.

(** A slot that the update returns as valid, with at least one objective,
    lies on the compacted front. *)
Lemma kept_valid_on_front pff mask nbf nmask k :
  length mask = length pff ->
  length nmask = length nbf ->
  k < length pff + length nbf ->
  nth k (empty_mask pff mask nbf nmask) false = false ->
  nth k (all_front_fitnesses_zeroed pff mask nbf nmask) [] <> [] ->
  k < num_front_elements pff mask nbf nmask.
Proof.
  intros Hm Hn Hk He Hne.
  destruct (Nat.lt_ge_cases k (num_front_elements pff mask nbf nmask))
    as [Hlt|Hge]; auto.
  exfalso. apply Hne.
  rewrite (empty_mask_nth pff mask nbf nmask Hm Hn) in He by auto.
  rewrite zeroed_nth.
  rewrite (all_front_fitnesses_nth pff mask nbf nmask Hm Hn) in * by auto.
  apply Nat.ltb_ge in Hge. rewrite Hge in *.
  destruct (nth (nth k (indices pff mask nbf nmask) 0)
              (cat_fitnesses pff nbf) []) as [|x r]; auto.
  simpl in He. discriminate.
Qed.

Lemma front_row_payload pff pfg pfd mask nbf nbg nbd nmask k :
  length mask = length pff ->
  length nmask = length nbf ->
  k < length pff + length nbf ->
  k < num_front_elements pff mask nbf nmask ->
  nth k (empty_mask pff mask nbf nmask) false = false ->
  let i := nth k (indices pff mask nbf nmask) 0 in
  nth k (all_front_fitnesses_zeroed pff mask nbf nmask) []
  = nth i (cat_fitnesses pff nbf) []
  /\ nth k (all_front_genotypes pff pfg mask nbf nbg nmask) []
     = nth i (cat_genotypes pfg nbg) []
  /\ nth k (all_front_descriptors pff pfd mask nbf nbd nmask) []
     = nth i (cat_descriptors pfd nbd) [].
Proof.
  intros Hm Hn Hk Hlt He i. subst i.
  rewrite (empty_mask_nth pff mask nbf nmask Hm Hn) in He by auto.
  rewrite zeroed_nth, zeroed_row_id by exact He.
  rewrite (all_front_fitnesses_nth pff mask nbf nmask Hm Hn) in * by auto.
  rewrite (all_front_genotypes_nth pff pfg mask nbf nbg nmask k Hm Hn Hk).
  rewrite (all_front_descriptors_nth pff pfd mask nbf nbd nmask Hm Hn) by auto.
  apply Nat.ltb_lt in Hlt as Hb. rewrite Hb in *.
  replace (0 <? num_front_elements pff mask nbf nmask) with true
    by (symmetry; apply Nat.ltb_lt; lia).
  rewrite !fmask_true_row. split; [|split]; auto.
  apply mask_fitness_true_row. exact He.
Qed.

(** X1.  Every slot the update returns as valid (with at least one
    objective) carries the fitness, the genotype and the descriptor of one
    and the same input entry, resident or candidate, and that entry was
    not masked out and is on the front the oracle computed. *)
Theorem valid_slots_hold_input_entries pff pfg pfd mask nbf nbg nbd nmask u p :
  length mask = length pff ->
  length nmask = length nbf ->
  update_masked_pareto_front pff pfg pfd mask nbf nbg nbd nmask = Some u ->
  p < length (new_mask u) ->
  nth p (new_mask u) true = false ->
  nth p (new_front_fitnesses u) [] <> [] ->
  exists i,
    i < length pff + length nbf
    /\ nth i (mask ++ nmask) true = false
    /\ nth i (cat_bool_front pff mask nbf nmask) false = true
    /\ nth p (new_front_fitnesses u) [] = nth i (pff ++ nbf) []
    /\ nth p (new_front_genotypes u) [] = nth i (pfg ++ nbg) []
    /\ nth p (new_front_descriptors u) [] = nth i (pfd ++ nbd) [].
Proof.
  intros Hm Hn Hu Hp Vp Hne.
  apply update_Some in Hu. destruct Hu as (Hf & Hg & Hd & Hmk & _).
  rewrite Hmk, take_length in Hp. rewrite Hmk in Vp.
  rewrite (nth_indep _ true false) in Vp by (rewrite take_length; auto).
  rewrite take_nth in Vp by auto.
  rewrite Hf, take_nth in Hne by auto.
  rewrite Hf, Hg, Hd, !take_nth by auto.
  pose proof (keep_nth_lt pff mask nbf nmask p Hm Hn Hp) as Kp.
  set (k := nth p (keep_indices pff mask nbf nmask) 0) in *.
  pose proof (kept_valid_on_front pff mask nbf nmask k Hm Hn Kp Vp Hne) as Hlt.
  destruct (front_row_payload pff pfg pfd mask nbf nbg nbd nmask k
              Hm Hn Kp Hlt Vp) as (E1 & E2 & E3).
  pose proof (indices_marked pff mask nbf nmask Hm Hn k Hlt) as Hmark.
  exists (nth k (indices pff mask nbf nmask) 0).
  apply oracle_marked in Hmark as Ho. destruct Ho as (H1 & H2 & H3 & _).
  rewrite cat_fitnesses_length in H1.
  repeat split; auto.
Qed.

Lemma valid_slots_hold_input_entries_witness :
  exists i,
    i < length ex_front_fitnesses + length ex_batch_fitnesses
    /\ nth i (ex_front_mask ++ ex_batch_mask) true = false
    /\ nth i (cat_bool_front ex_front_fitnesses ex_front_mask
                ex_batch_fitnesses ex_batch_mask) false = true
    /\ nth 1 (new_front_fitnesses ex_update) []
       = nth i (ex_front_fitnesses ++ ex_batch_fitnesses) []
    /\ nth 1 (new_front_genotypes ex_update) []
       = nth i (ex_front_genotypes ++ ex_batch_genotypes) []
    /\ nth 1 (new_front_descriptors ex_update) []
       = nth i (ex_front_descriptors ++ ex_batch_descriptors) [].
Proof.
  apply (valid_slots_hold_input_entries ex_front_fitnesses ex_front_genotypes
           ex_front_descriptors ex_front_mask ex_batch_fitnesses
           ex_batch_genotypes ex_batch_descriptors ex_batch_mask ex_update 1).
  - reflexivity.
  - reflexivity.
  - apply update_returns. vm_compute. reflexivity.
  - vm_compute. lia.
  - vm_compute. reflexivity.
  - vm_compute. discriminate.
Defined.

(** X2.  No input entry is returned twice: two different slots that the
    update returns as valid (with at least one objective) carry the
    payload of two different positions of the input. *)
Theorem valid_slots_hold_distinct_entries
    pff pfg pfd mask nbf nbg nbd nmask u p q :
  length mask = length pff ->
  length nmask = length nbf ->
  update_masked_pareto_front pff pfg pfd mask nbf nbg nbd nmask = Some u ->
  p < length (new_mask u) ->
  q < length (new_mask u) ->
  p <> q ->
  nth p (new_mask u) true = false ->
  nth q (new_mask u) true = false ->
  nth p (new_front_fitnesses u) [] <> [] ->
  nth q (new_front_fitnesses u) [] <> [] ->
  exists i j,
    i <> j
    /\ i < length pff + length nbf
    /\ j < length pff + length nbf
    /\ nth p (new_front_fitnesses u) [] = nth i (pff ++ nbf) []
    /\ nth p (new_front_genotypes u) [] = nth i (pfg ++ nbg) []
    /\ nth p (new_front_descriptors u) [] = nth i (pfd ++ nbd) []
    /\ nth q (new_front_fitnesses u) [] = nth j (pff ++ nbf) []
    /\ nth q (new_front_genotypes u) [] = nth j (pfg ++ nbg) []
    /\ nth q (new_front_descriptors u) [] = nth j (pfd ++ nbd) [].
Proof.
  intros Hm Hn Hu Hp Hq Hpq Vp Vq Np Nq.
  apply update_Some in Hu. destruct Hu as (Hf & Hg & Hd & Hmk & _).
  rewrite Hmk, take_length in Hp, Hq. rewrite Hmk in Vp, Vq.
  rewrite (nth_indep _ true false) in Vp by (rewrite take_length; auto).
  rewrite (nth_indep _ true false) in Vq by (rewrite take_length; auto).
  rewrite take_nth in Vp, Vq by auto.
  rewrite Hf, take_nth in Np, Nq by auto.
  rewrite Hf, Hg, Hd, !take_nth by auto.
  pose proof (keep_nth_lt pff mask nbf nmask p Hm Hn Hp) as Kp.
  pose proof (keep_nth_lt pff mask nbf nmask q Hm Hn Hq) as Kq.
  pose proof (NoDup_nth_neq _ 0 p q (keep_indices_NoDup pff mask nbf nmask)
                Hp Hq Hpq) as Hne.
  set (kp := nth p (keep_indices pff mask nbf nmask) 0) in *.
  set (kq := nth q (keep_indices pff mask nbf nmask) 0) in *.
  pose proof (kept_valid_on_front pff mask nbf nmask kp Hm Hn Kp Vp Np) as Lp.
  pose proof (kept_valid_on_front pff mask nbf nmask kq Hm Hn Kq Vq Nq) as Lq.
  destruct (front_row_payload pff pfg pfd mask nbf nbg nbd nmask kp
              Hm Hn Kp Lp Vp) as (P1 & P2 & P3).
  destruct (front_row_payload pff pfg pfd mask nbf nbg nbd nmask kq
              Hm Hn Kq Lq Vq) as (Q1 & Q2 & Q3).
  exists (nth kp (indices pff mask nbf nmask) 0),
         (nth kq (indices pff mask nbf nmask) 0).
  split; [now apply (indices_injective pff mask nbf nmask Hm Hn)|].
  assert (Hlt : forall k, k < num_front_elements pff mask nbf nmask ->
                          nth k (indices pff mask nbf nmask) 0
                          < length pff + length nbf).
  { intros k Hk.
    pose proof (indices_marked pff mask nbf nmask Hm Hn k Hk) as H.
    apply oracle_marked in H. destruct H as [H _].
    now rewrite cat_fitnesses_length in H. }
  repeat split; auto.
Qed.

Lemma valid_slots_hold_distinct_entries_witness :
  exists i j,
    i <> j
    /\ i < length ex_front_fitnesses + length ex_batch_fitnesses
    /\ j < length ex_front_fitnesses + length ex_batch_fitnesses
    /\ nth 0 (new_front_fitnesses ex_update) []
       = nth i (ex_front_fitnesses ++ ex_batch_fitnesses) []
    /\ nth 0 (new_front_genotypes ex_update) []
       = nth i (ex_front_genotypes ++ ex_batch_genotypes) []
    /\ nth 0 (new_front_descriptors ex_update) []
       = nth i (ex_front_descriptors ++ ex_batch_descriptors) []
    /\ nth 1 (new_front_fitnesses ex_update) []
       = nth j (ex_front_fitnesses ++ ex_batch_fitnesses) []
    /\ nth 1 (new_front_genotypes ex_update) []
       = nth j (ex_front_genotypes ++ ex_batch_genotypes) []
    /\ nth 1 (new_front_descriptors ex_update) []
       = nth j (ex_front_descriptors ++ ex_batch_descriptors) [].
Proof.
  apply (valid_slots_hold_distinct_entries ex_front_fitnesses
           ex_front_genotypes ex_front_descriptors ex_front_mask
           ex_batch_fitnesses ex_batch_genotypes ex_batch_descriptors
           ex_batch_mask ex_update 0 1).
  - reflexivity.
  - reflexivity.
  - apply update_returns. vm_compute. reflexivity.
  - vm_compute. lia.
  - vm_compute. lia.
  - lia.
  - vm_compute. reflexivity.
  - vm_compute. reflexivity.
  - vm_compute. discriminate.
  - vm_compute. discriminate.
Defined.

(** X3.  No input entry that is not masked out, resident or candidate,
    dominates an entry that the update returns as valid. *)
Theorem valid_slots_not_dominated_by_inputs
    pff pfg pfd mask nbf nbg nbd nmask u p j :
  length mask = length pff ->
  length nmask = length nbf ->
  update_masked_pareto_front pff pfg pfd mask nbf nbg nbd nmask = Some u ->
  p < length (new_mask u) ->
  nth p (new_mask u) true = false ->
  j < length pff + length nbf ->
  nth j (mask ++ nmask) true = false ->
  dominates (nth j (pff ++ nbf) []) (nth p (new_front_fitnesses u) []) = false.
Proof.
  intros Hm Hn Hu Hp Vp Hj Mj.
  apply update_Some in Hu. destruct Hu as (Hf & _ & _ & Hmk & _).
  rewrite Hmk, take_length in Hp. rewrite Hmk in Vp.
  rewrite (nth_indep _ true false) in Vp by (rewrite take_length; auto).
  rewrite take_nth in Vp by auto.
  rewrite Hf, take_nth by auto.
  pose proof (keep_nth_lt pff mask nbf nmask p Hm Hn Hp) as Kp.
  destruct (kept_valid_row pff mask nbf nmask _ Hm Hn Kp Vp) as [->|[i [Hi ->]]];
    [apply dominates_nil_r|].
  apply oracle_marked in Hi. destruct Hi as (_ & _ & _ & Hi).
  apply Hi; auto.
  - rewrite cat_fitnesses_length. exact Hj.
  - rewrite (cat_mask_length pff mask nbf nmask Hm Hn). exact Hj.
Qed.

Lemma valid_slots_not_dominated_by_inputs_witness :
  dominates (nth 2 (ex_front_fitnesses ++ ex_batch_fitnesses) [])
    (nth 0 (new_front_fitnesses ex_update) []) = false.
Proof.
  apply (valid_slots_not_dominated_by_inputs ex_front_fitnesses
           ex_front_genotypes ex_front_descriptors ex_front_mask
           ex_batch_fitnesses ex_batch_genotypes ex_batch_descriptors
           ex_batch_mask ex_update 0 2).
  - reflexivity.
  - reflexivity.
  - apply update_returns. vm_compute. reflexivity.
  - vm_compute. lia.
  - vm_compute. reflexivity.
  - vm_compute. lia.
  - vm_compute. reflexivity.
Defined.

(** X4.  Whatever the inputs, no fitness value the update returns is NaN
    or -inf: NaN is first replaced by -inf, and -inf then by 0. *)
Theorem returned_fitnesses_without_sentinel
    pff pfg pfd mask nbf nbg nbd nmask u r x :
  update_masked_pareto_front pff pfg pfd mask nbf nbg nbd nmask = Some u ->
  In r (new_front_fitnesses u) -> In x r ->
  x <> NaN /\ x <> NInf.
Proof.
  intros Hu Hr Hx.
  apply update_Some in Hu. destruct Hu as (Hf & _).
  rewrite Hf in Hr. unfold take in Hr. apply in_map_iff in Hr.
  destruct Hr as [k [<- _]]. rewrite zeroed_nth in Hx.
  apply in_map_iff in Hx. destruct Hx as [y [<- Hy]].
  assert (Hnan : y <> NaN).
  { unfold all_front_fitnesses in Hy.
    destruct (Nat.lt_ge_cases k
                (length (all_front_fitnesses pff mask nbf nmask))) as [Hk|Hk].
    - unfold all_front_fitnesses in Hk.
      rewrite (map2_nth _ _ _ _ [] false) in Hy
        by (rewrite map2_length in Hk; lia).
      apply in_map_iff in Hy. destruct Hy as [z [<- _]].
      unfold nan_to. destruct (fsub _ _); simpl; discriminate.
    - unfold all_front_fitnesses in Hk. rewrite nth_overflow in Hy by exact Hk.
      destruct Hy. }
  destruct y; simpl; try congruence; split; discriminate.
Qed.

Lemma returned_fitnesses_without_sentinel_witness :
  nth 0 (nth 0 (new_front_fitnesses ex_first_update) []) NaN <> NaN
  /\ nth 0 (nth 0 (new_front_fitnesses ex_first_update) []) NaN <> NInf.
Proof.
  apply (returned_fitnesses_without_sentinel ex_empty_fitnesses
           ex_empty_genotypes ex_empty_descriptors ex_empty_mask
           ex_batch_fitnesses ex_batch_genotypes ex_batch_descriptors
           ex_batch_mask ex_first_update
           (nth 0 (new_front_fitnesses ex_first_update) [])).
  - apply update_returns. vm_compute. reflexivity.
  - apply nth_In. vm_compute. lia.
  - apply nth_In. vm_compute. lia.
Defined.

(** A position on the front has an index in the compacted buffer. *)
Lemma front_position_index pff mask nbf nmask i :
  length mask = length pff ->
  length nmask = length nbf ->
  nth i (cat_bool_front pff mask nbf nmask) false = true ->
  exists k, k < num_front_elements pff mask nbf nmask
            /\ nth k (indices pff mask nbf nmask) 0 = i.
Proof.
  intros Hm Hn Hi.
  set (front := cat_bool_front pff mask nbf nmask) in *.
  assert (Hin : In i (true_positions 0 front)).
  { apply true_positions_In. rewrite Nat.sub_0_r. split; auto.
    split; [lia|]. simpl.
    destruct (Nat.lt_ge_cases i (length front)); auto.
    rewrite nth_overflow in Hi by auto. discriminate. }
  apply (In_nth _ _ 0) in Hin. destruct Hin as [k [Hk Ek]].
  rewrite true_positions_length in Hk. exists k. split; [exact Hk|].
  rewrite (indices_front pff mask nbf nmask Hm Hn) by exact Hk. exact Ek.
Qed.

(** X5.  The index vector built with the sort: its first
    [num_front_elements] entries are the positions on the front, in
    increasing order and each exactly once; every later entry is the last
    position of the buffer. *)
Theorem front_positions_compacted pff mask nbf nmask :
  length mask = length pff ->
  length nmask = length nbf ->
  let front := cat_bool_front pff mask nbf nmask in
  let nf := num_front_elements pff mask nbf nmask in
  let idx := indices pff mask nbf nmask in
  length idx = length pff + length nbf
  /\ (forall k, k < nf -> nth (nth k idx 0) front false = true)
  /\ (forall k k', k < k' -> k' < nf -> nth k idx 0 < nth k' idx 0)
  /\ (forall i, nth i front false = true -> exists k, k < nf /\ nth k idx 0 = i)
  /\ (forall k, nf <= k -> k < length pff + length nbf ->
                nth k idx 0 = length pff + length nbf - 1).
Proof.
  intros Hm Hn front nf idx.
  pose proof (indices_eq pff mask nbf nmask Hm Hn) as E.
  pose proof (num_front_elements_le pff mask nbf nmask Hm Hn) as Hle.
  fold front nf idx in E, Hle.
  assert (Hlen : length (true_positions 0 front) = nf)
    by apply true_positions_length.
  split; [apply indices_length; auto|].
  split; [intros k Hk; now apply indices_marked|].
  split; [|split].
  - intros k k' Hkk Hk'. subst idx.
    rewrite !(indices_front pff mask nbf nmask Hm Hn) by lia.
    apply (StronglySorted_nth lt); [apply true_positions_sorted|].
    fold front. rewrite Hlen. lia.
  - intros i Hi. now apply front_position_index.
  - intros k Hk1 Hk2. rewrite E.
    rewrite app_nth2 by (rewrite Hlen; lia). rewrite Hlen.
    rewrite nth_repeat_lt by lia. lia.
Qed.

Lemma front_positions_compacted_witness :
  let front := cat_bool_front ex_front_fitnesses ex_front_mask
                 ex_batch_fitnesses ex_batch_mask in
  let nf := num_front_elements ex_front_fitnesses ex_front_mask
              ex_batch_fitnesses ex_batch_mask in
  let idx := indices ex_front_fitnesses ex_front_mask ex_batch_fitnesses
               ex_batch_mask in
  length idx = length ex_front_fitnesses + length ex_batch_fitnesses
  /\ (forall k, k < nf -> nth (nth k idx 0) front false = true)
  /\ (forall k k', k < k' -> k' < nf -> nth k idx 0 < nth k' idx 0)
  /\ (forall i, nth i front false = true -> exists k, k < nf /\ nth k idx 0 = i)
  /\ (forall k, nf <= k ->
                k < length ex_front_fitnesses + length ex_batch_fitnesses ->
                nth k idx 0
                = length ex_front_fitnesses + length ex_batch_fitnesses - 1).
Proof.
  apply (front_positions_compacted ex_front_fitnesses ex_front_mask
           ex_batch_fitnesses ex_batch_mask); reflexivity.
Defined.

(** X6.  With a front of capacity at least 1, the update fails exactly
    when the batch cannot be broadcast against the front in the metrics
    comparison: when the batch size is neither 1 nor the capacity, and the
    capacity is not 1. *)
Theorem update_fails_iff_not_broadcastable pff pfg pfd mask nbf nbg nbd nmask :
  length mask = length pff ->
  length nmask = length nbf ->
  1 <= length pff ->
  update_masked_pareto_front pff pfg pfd mask nbf nbg nbd nmask = None
  <-> (length nbf <> 1 /\ length nbf <> length pff /\ length pff <> 1).
Proof.
  intros Hm Hn HL.
  pose proof (keep_indices_length pff mask nbf nmask Hm Hn HL) as Hk.
  unfold update_masked_pareto_front.
  set (a := take [] (all_front_fitnesses_zeroed pff mask nbf nmask)
              (keep_indices pff mask nbf nmask)).
  assert (Ha : length a = length pff) by (unfold a; now rewrite take_length).
  split.
  - intros H.
    destruct (Nat.eq_dec (length nbf) 1) as [E1|E1];
      [|destruct (Nat.eq_dec (length nbf) (length pff)) as [E2|E2];
        [|destruct (Nat.eq_dec (length pff) 1) as [E3|E3]; [|auto]]];
      exfalso;
      destruct (any_equal_defined a nbf) as [r Hr];
      try (rewrite Ha; tauto); rewrite Hr in H; discriminate.
  - intros (H1 & H2 & H3).
    rewrite any_equal_undefined; auto; rewrite Ha; auto.
Qed.

Lemma update_fails_iff_not_broadcastable_witness :
  update_masked_pareto_front ex_three_fitnesses ex_three_genotypes
    ex_three_descriptors ex_three_mask ex_two_fitnesses ex_two_genotypes
    ex_two_descriptors ex_two_mask = None
  <-> (length ex_two_fitnesses <> 1
       /\ length ex_two_fitnesses <> length ex_three_fitnesses
       /\ length ex_three_fitnesses <> 1).
Proof.
  apply (update_fails_iff_not_broadcastable ex_three_fitnesses
           ex_three_genotypes ex_three_descriptors ex_three_mask
           ex_two_fitnesses ex_two_genotypes ex_two_descriptors ex_two_mask).
  - reflexivity.
  - reflexivity.
  - simpl. lia.
Defined.

Lemma row_eq_any_self (r : list fl) x :
  In x r -> x <> NaN -> row_eq_any r r = true.
Proof.
  unfold row_eq_any. intros Hx Hnan.
  induction r as [|y t IH]; [destruct Hx|].
  simpl. apply orb_true_iff. destruct Hx as [->|Hx].
  - left. destruct x; cbn [feqb id]; try congruence; try reflexivity.
    apply Qc_eq_bool_refl.
  - right. auto.
Qed.

(** A returned row equal to the single candidate sets the flag. *)
Lemma candidate_row_sets_flag (nff : matrix) (cand : list fl) x :
  In cand nff -> In x cand -> x <> NaN ->
  any_equal nff [cand] = Some true.
Proof.
  intros Hin Hx Hnan.
  pose proof (row_eq_any_self cand x Hx Hnan) as Hrow.
  unfold any_equal. cbn [length hd].
  destruct (Nat.eqb_spec (length nff) 1) as [E|E].
  - destruct nff as [|r [|? ?]]; try discriminate.
    destruct Hin as [->|[]]. simpl. now rewrite Hrow.
  - cbn [Nat.eqb]. f_equal. apply existsb_exists. exists cand. auto.
Qed.

(** X7.  The flag [added_bool] has no false negative: when the single
    candidate of a batch sits in a slot of the returned front and one of
    its fitness values is not NaN, the flag is set. *)
Theorem added_flag_set_when_candidate_kept
    pff pfg pfd mask nbf nbg nbd nmask u (cand : list fl) p x :
  nbf = [cand] ->
  update_masked_pareto_front pff pfg pfd mask nbf nbg nbd nmask = Some u ->
  p < length (new_front_fitnesses u) ->
  nth p (new_front_fitnesses u) [] = cand ->
  In x cand -> x <> NaN ->
  added_bool u = true.
Proof.
  intros -> Hu Hp Ep Hx Hnan.
  apply update_Some in Hu. destruct Hu as (_ & _ & _ & _ & Ha & _).
  assert (Hin : In cand (new_front_fitnesses u))
    by (rewrite <- Ep; apply nth_In; exact Hp).
  rewrite (candidate_row_sets_flag _ cand x Hin Hx Hnan) in Ha.
  now inversion Ha.
Qed.

Lemma added_flag_set_when_candidate_kept_witness :
  added_bool ex_update = true.
Proof.
  apply (added_flag_set_when_candidate_kept ex_front_fitnesses
           ex_front_genotypes ex_front_descriptors ex_front_mask
           ex_batch_fitnesses ex_batch_genotypes ex_batch_descriptors
           ex_batch_mask ex_update [F 3; F 3] 1 (F 3)).
  - reflexivity.
  - apply update_returns. vm_compute. reflexivity.
  - vm_compute. lia.
  - apply row_beq_eq. vm_compute. reflexivity.
  - left. reflexivity.
  - discriminate.
Defined.

(** ** One objective of the working buffer in the update *)

Lemma is_distance_fadd x y :
  is_distance x = true -> is_distance y = true -> is_distance (fadd x y) = true.
Proof.
  destruct x as [a| | |], y as [b| | |]; cbn [is_distance fadd];
    try discriminate; auto.
Qed.

Lemma is_distance_fsum (l : list fl) :
  Forall (fun x => is_distance x = true) l -> is_distance (fsum l) = true.
Proof.
  unfold fsum. induction 1 as [|x l Hx _ IH]; [reflexivity|].
  cbn [fold_right]. now apply is_distance_fadd.
Qed.

Lemma fsum_PInf (l : list fl) :
  l <> [] -> Forall (eq PInf) l -> fsum l = PInf.
Proof.
  unfold fsum. induction l as [|x l IH]; [congruence|].
  intros _ H. inversion H as [|? ? <- Hl]; subst. cbn [fold_right].
  destruct l as [|y l]; [reflexivity|].
  rewrite IH by (auto; discriminate). reflexivity.
Qed.

Lemma is_distance_mean x m :
  1 <= m -> is_distance x = true ->
  is_distance (fdiv x (F (Z.of_nat m))) = true.
Proof.
  intros Hm Hx. pose proof (qz_pos m Hm) as Hp.
  destruct x as [a| | |]; try discriminate.
  - unfold F. rewrite fdiv_Fin_pos by exact Hp. reflexivity.
  - unfold F. rewrite fdiv_PInf by (apply Qclt_le_weak; exact Hp).
    reflexivity.
Qed.

Section UpdateColumn.
Variable fit : matrix.
Variable em : list bool.
Variable c : nat.

Hypothesis well_formed : front_well_formed fit em = true.
Hypothesis objective : c < shape1 fit.

Local Abbreviation n := (length fit).
Local Abbreviation col := (column c fit).
Local Abbreviation amp := (upd_score_amplitude fit em c).
Local Abbreviation keys := (upd_dist_fitnesses fit em c).
Local Abbreviation sigma := (upd_sorted_index fit em c).
Local Abbreviation srt := (upd_srt_fitnesses fit em c).

Lemma upd_mask_shape : length em = n.
Proof. symmetry. exact (smp_mask_shape fit em well_formed). Qed.

Lemma upd_masked_length : length (upd_masked_column fit em c) = n.
Proof.
  unfold upd_masked_column.
  rewrite map2_length, column_length, length_map, upd_mask_shape. lia.
Qed.

Lemma upd_masked_nth i :
  i < n ->
  nth i (upd_masked_column fit em c) NaN
  = if nth i em false then F 0 else nth i col NaN.
Proof.
  intros Hi. pose proof upd_mask_shape as Hs. unfold upd_masked_column.
  rewrite (map2_nth _ _ _ _ NaN true)
    by (rewrite ?column_length, ?length_map; lia).
  change true with (negb false) at 1. rewrite (map_nth negb).
  destruct (nth i em false); reflexivity.
Qed.

(** The amplitude of an objective is a non-negative number: every entry of
    the masked column is finite, an empty row counting as 0. *)
Lemma upd_amplitude_nonneg :
  1 <= n -> exists A, amp = Fin A /\ (0 <= A)%Qc.
Proof.
  intros Hn.
  assert (Hall : Forall (fun x => x = NaN \/ is_finite x = true)
                   (upd_masked_column fit em c)).
  { apply Forall_forall. intros x Hx. apply (In_nth _ _ NaN) in Hx.
    destruct Hx as [i [Hi <-]]. rewrite upd_masked_length in Hi.
    rewrite upd_masked_nth by exact Hi.
    destruct (col_cases fit em c well_formed objective i Hi)
      as [[Hb Hx]|[Hb [y Hx]]]; rewrite Hb; [right; reflexivity|].
    rewrite Hx. right; reflexivity. }
  assert (Hin : exists y, In (Fin y) (upd_masked_column fit em c)).
  { assert (H0 : 0 < n) by lia.
    pose proof (upd_masked_nth 0 H0) as E.
    assert (In (nth 0 (upd_masked_column fit em c) NaN)
              (upd_masked_column fit em c))
      by (apply nth_In; rewrite upd_masked_length; exact H0).
    destruct (col_cases fit em c well_formed objective 0 H0)
      as [[Hb Hx]|[Hb [y Hx]]]; rewrite Hb in E; rewrite E in H.
    - eexists. exact H.
    - rewrite Hx in H. eauto. }
  destruct Hin as [y Hy]. unfold upd_score_amplitude.
  destruct (nanmax_spec _ Hall) as [[_ Hn']|[M [EM [HM HbM]]]];
    [destruct (Hn' y Hy)|].
  destruct (nanmin_spec _ Hall) as [[_ Hn']|[M' [EM' [HM' HbM']]]];
    [destruct (Hn' y Hy)|].
  rewrite EM, EM'. exists (round32 (M - M')). split; [reflexivity|].
  specialize (HbM' M HM). apply round32_nonneg. clear - HbM'. qc_lra.
Qed.

Lemma upd_keys_length : length keys = n.
Proof.
  unfold upd_dist_fitnesses.
  rewrite map2_length, column_length, upd_mask_shape. lia.
Qed.

(** The sorting key of an empty row is -inf; that of a valid row is its
    value shifted by a constant, and rounded. *)
Lemma upd_keys_nth A i :
  amp = Fin A -> i < n ->
  nth i keys NaN
  = if nth i em false then NInf
    else shift (upd_key_shift A) (nth i col NaN).
Proof.
  intros EA Hi. pose proof upd_mask_shape as Hs. unfold upd_dist_fitnesses.
  rewrite (map2_nth _ _ _ _ NaN false) by (rewrite ?column_length; lia).
  rewrite EA.
  destruct (col_cases fit em c well_formed objective i Hi)
    as [[Hb Hx]|[Hb [y Hx]]]; rewrite Hb, Hx; reflexivity.
Qed.

Lemma upd_sigma_perm : Permutation sigma (seq 0 n).
Proof.
  unfold upd_sorted_index, argsort_fl. rewrite <- upd_keys_length.
  apply argsort_perm.
Qed.

Lemma upd_sigma_length : length sigma = n.
Proof.
  unfold upd_sorted_index, argsort_fl. rewrite argsort_length.
  apply upd_keys_length.
Qed.

Lemma upd_sigma_lt p : p < n -> nth p sigma 0 < n.
Proof.
  intros Hp.
  assert (H : In (nth p sigma 0) (seq 0 n)).
  { eapply Permutation_in; [apply upd_sigma_perm|].
    apply nth_In. rewrite upd_sigma_length. exact Hp. }
  apply in_seq in H. lia.
Qed.

Lemma upd_srt_nth p :
  p < n -> nth p srt NaN = nth (nth p sigma 0) col NaN.
Proof.
  intros Hp. unfold upd_srt_fitnesses, srt_column.
  apply take_nth. rewrite upd_sigma_length. exact Hp.
Qed.

Lemma upd_srt_length : length srt = n.
Proof.
  unfold upd_srt_fitnesses, srt_column. rewrite take_length.
  apply upd_sigma_length.
Qed.

(** Along the sorted order the keys increase. *)
Lemma upd_keys_sorted p q :
  p < q -> q < n ->
  sort_leb (nth (nth p sigma 0) keys NaN) (nth (nth q sigma 0) keys NaN) = true.
Proof.
  intros Hpq Hq.
  pose proof (argsort_stable fl sort_leb sort_leb_total sort_leb_trans
                keys NaN p q) as St.
  rewrite upd_keys_length in St. specialize (St ltac:(lia)).
  cbv zeta in St. fold argsort_fl in St.
  change (argsort_fl keys) with sigma in St.
  destruct St as [St|[St _]]; auto. now apply sort_leb_total.
Qed.

(** The rank of row [i]. *)
Lemma upd_rank_spec i :
  i < n ->
  nth i (argsort_nat sigma) 0 < n
  /\ nth (nth i (argsort_nat sigma) 0) sigma 0 = i.
Proof.
  intros Hi. pose proof upd_sigma_perm as P.
  rewrite <- upd_sigma_length in P, Hi.
  destruct (argsort_inverse sigma i P Hi) as [H1 H2].
  rewrite upd_sigma_length in H1. auto.
Qed.

Lemma upd_contribution_nth i :
  i < n ->
  let p := nth i (argsort_nat sigma) 0 in
  nth i (upd_contribution fit em c) NaN
  = fadd (fdiv (fsub (nth p srt NaN) (before srt p)) amp)
         (fdiv (fsub (after srt p) (nth p srt NaN)) amp).
Proof.
  intros Hi p. destruct (upd_rank_spec i Hi) as [Hp _]. fold p in Hp.
  unfold upd_contribution.
  set (f := fun ji => fadd (nth ji (upd_dist_to_last fit em c) NaN)
                        (nth ji (upd_dist_to_next fit em c) NaN)).
  rewrite (nth_indep _ NaN (f 0))
    by (rewrite length_map; unfold argsort_nat;
        rewrite argsort_length, upd_sigma_length; exact Hi).
  rewrite (map_nth f). fold p. unfold f, upd_dist_to_last, upd_dist_to_next.
  rewrite dist_to_last_nth by (rewrite upd_srt_length; exact Hp).
  rewrite dist_to_next_nth by (rewrite upd_srt_length; exact Hp).
  reflexivity.
Qed.

(** The row sorted just before an empty row is empty. *)
Lemma upd_empty_before p q :
  1 <= n -> p < q -> q < n ->
  nth (nth q sigma 0) em false = true ->
  nth (nth p sigma 0) em false = true.
Proof.
  intros Hn Hpq Hq He.
  destruct (upd_amplitude_nonneg Hn) as [A [EA _]].
  pose proof (upd_keys_sorted p q Hpq Hq) as Hs.
  rewrite !(upd_keys_nth A) in Hs
    by (auto; apply upd_sigma_lt; lia).
  rewrite He in Hs.
  destruct (col_cases fit em c well_formed objective (nth p sigma 0)
              (upd_sigma_lt p ltac:(lia))) as [[Hb _]|[Hb [y Hy]]]; auto.
  rewrite Hb, Hy in Hs. simpl in Hs. discriminate.
Qed.

(** An empty row contributes NaN to the sum over the objectives. *)
Lemma upd_contribution_empty i :
  i < n -> nth i em false = true ->
  nth i (upd_contribution fit em c) NaN = NaN.
Proof.
  intros Hi He. rewrite upd_contribution_nth by exact Hi.
  destruct (upd_rank_spec i Hi) as [Hp Es].
  set (p := nth i (argsort_nat sigma) 0) in *.
  assert (Hn : 1 <= n) by lia.
  assert (Ep : nth p srt NaN = NInf).
  { rewrite upd_srt_nth by exact Hp. rewrite Es.
    destruct (col_cases fit em c well_formed objective i Hi)
      as [[_ Hx]|[Hb _]]; [exact Hx|congruence]. }
  assert (Eb : before srt p = NInf).
  { unfold before. destruct p as [|p']; [reflexivity|].
    rewrite upd_srt_nth by lia.
    assert (Hb : nth (nth p' sigma 0) em false = true).
    { apply (upd_empty_before p' (S p')); auto. rewrite Es. exact He. }
    destruct (col_cases fit em c well_formed objective (nth p' sigma 0)
                (upd_sigma_lt p' ltac:(lia))) as [[_ Hx]|[Hb' _]];
      [exact Hx|congruence]. }
  rewrite Ep, Eb. reflexivity.
Qed.

(** What stands before and after a valid row in the sorted column. *)
Lemma upd_before_valid p y :
  p < n ->
  nth (nth p sigma 0) em false = false ->
  nth (nth p sigma 0) col NaN = Fin y ->
  before srt p = NInf \/ exists y', before srt p = Fin y'.
Proof.
  intros Hp Hv Ey. unfold before. destruct p as [|p']; [left; reflexivity|].
  rewrite upd_srt_nth by lia.
  destruct (col_cases fit em c well_formed objective (nth p' sigma 0)
              (upd_sigma_lt p' ltac:(lia))) as [[_ Hx]|[Hb [y' Hy']]];
    [left; exact Hx|].
  right. exists y'. exact Hy'.
Qed.

Lemma upd_after_valid p y :
  p < n ->
  nth (nth p sigma 0) em false = false ->
  nth (nth p sigma 0) col NaN = Fin y ->
  after srt p = PInf
  \/ exists y', after srt p = Fin y'
                /\ S p < n /\ nth (nth (S p) sigma 0) em false = false.
Proof.
  intros Hp Hv Ey. unfold after. rewrite upd_srt_length.
  destruct (Nat.ltb_spec (S p) n) as [Hlt|Hge]; [|left; reflexivity].
  rewrite upd_srt_nth by lia.
  destruct (col_cases fit em c well_formed objective (nth (S p) sigma 0)
              (upd_sigma_lt (S p) Hlt)) as [[Hb _]|[Hb [y' Hy']]].
  - pose proof (upd_empty_before p (S p) ltac:(lia) ltac:(lia) Hlt Hb).
    congruence.
  - right. exists y'. split; [exact Hy'|]. auto.
Qed.

Lemma gap_distance (a b A : Qc) :
  (0 < A)%Qc ->
  is_distance (fdiv (fsub (Fin b) (Fin a)) (Fin A)) = true.
Proof.
  intros HA. cbn [fsub fneg fadd]. rewrite fdiv_Fin_pos by exact HA.
  reflexivity.
Qed.

(** With a positive amplitude a valid row contributes a number or +inf. *)
Lemma upd_contribution_valid A i :
  amp = Fin A -> (0 < A)%Qc ->
  i < n -> nth i em false = false ->
  is_distance (nth i (upd_contribution fit em c) NaN) = true.
Proof.
  intros EA HA Hi Hv. rewrite upd_contribution_nth by exact Hi.
  destruct (upd_rank_spec i Hi) as [Hp Es].
  set (p := nth i (argsort_nat sigma) 0) in *.
  destruct (col_cases fit em c well_formed objective i Hi)
    as [[Hb _]|[_ [y Hy]]]; [congruence|].
  assert (Ep : nth p srt NaN = Fin y)
    by (rewrite upd_srt_nth by exact Hp; rewrite Es; exact Hy).
  rewrite <- Es in Hv, Hy.
  rewrite Ep, EA. apply is_distance_fadd.
  - destruct (upd_before_valid p y Hp Hv Hy) as [->|[y' ->]].
    + cbn [fsub fneg fadd]. rewrite fdiv_PInf; [reflexivity|].
      now apply Qclt_le_weak.
    + now apply gap_distance.
  - destruct (upd_after_valid p y Hp Hv Hy) as [->|[y' [-> _]]].
    + cbn [fsub fneg fadd]. rewrite fdiv_PInf; [reflexivity|].
      now apply Qclt_le_weak.
    + now apply gap_distance.
Qed.

(** The only valid row of a buffer contributes +inf, whatever the
    amplitude. *)
Lemma upd_contribution_sole i :
  i < n -> nth i em false = false ->
  (forall j, j < n -> j <> i -> nth j em false = true) ->
  nth i (upd_contribution fit em c) NaN = PInf.
Proof.
  intros Hi Hv Hsole. rewrite upd_contribution_nth by exact Hi.
  destruct (upd_rank_spec i Hi) as [Hp Es].
  set (p := nth i (argsort_nat sigma) 0) in *.
  destruct (upd_amplitude_nonneg ltac:(lia)) as [A [EA HA]].
  destruct (col_cases fit em c well_formed objective i Hi)
    as [[Hb _]|[_ [y Hy]]]; [congruence|].
  assert (Ep : nth p srt NaN = Fin y)
    by (rewrite upd_srt_nth by exact Hp; rewrite Es; exact Hy).
  assert (Hother : forall q, q < n -> q <> p ->
                             nth (nth q sigma 0) em false = true).
  { intros q Hq Hne. apply Hsole; [now apply upd_sigma_lt|].
    intros E. apply Hne. rewrite <- Es in E.
    pose proof upd_sigma_perm as P.
    assert (Hnd : NoDup sigma)
      by (eapply Permutation_NoDup; [symmetry; exact P|apply seq_NoDup]).
    apply (proj1 (NoDup_nth sigma 0) Hnd); rewrite ?upd_sigma_length; auto. }
  rewrite <- Es in Hv, Hy.
  assert (Eb : before srt p = NInf).
  { destruct (upd_before_valid p y Hp Hv Hy) as [E|[y' E]]; auto.
    unfold before in E. destruct p as [|p']; [discriminate|].
    rewrite upd_srt_nth in E by lia.
    destruct (col_cases fit em c well_formed objective (nth p' sigma 0)
                (upd_sigma_lt p' ltac:(lia))) as [[_ Hx]|[Hb _]].
    - congruence.
    - rewrite Hother in Hb by lia. discriminate. }
  assert (Ea : after srt p = PInf).
  { destruct (upd_after_valid p y Hp Hv Hy) as [E|[y' [_ [Hlt Hb]]]]; auto.
    rewrite Hother in Hb by lia. discriminate. }
  rewrite Ep, Eb, Ea, EA. cbn [fsub fneg fadd].
  rewrite fdiv_PInf by exact HA. reflexivity.
Qed.
End UpdateColumn.

(** ** The crowding distances of the working buffer *)

Section UpdateBuffer.
Variable fit : matrix.
Variable em : list bool.

Hypothesis well_formed : front_well_formed fit em = true.

Local Abbreviation n := (length fit).
Local Abbreviation m := (shape1 fit).
Local Abbreviation crowd := (upd_crowding_distances fit em m).

Lemma upd_crowd_length : length crowd = n.
Proof.
  unfold upd_crowding_distances, mean_over_columns.
  now rewrite !length_map, length_seq.
Qed.

Lemma upd_crowd_nth i :
  i < n ->
  nth i crowd NaN
  = nan_to NInf
      (fdiv (fsum (map (fun c => nth i (upd_contribution fit em c) NaN)
                     (seq 0 m)))
         (F (Z.of_nat m))).
Proof.
  intros Hi. unfold upd_crowding_distances, mean_over_columns.
  rewrite map_map.
  set (f := fun i0 => nan_to NInf
              (fdiv (fsum (map (fun col => nth i0 col NaN)
                             (map (upd_contribution fit em) (seq 0 m))))
                 (F (Z.of_nat m)))).
  rewrite (nth_indep _ NaN (f 0)) by (rewrite length_map, length_seq; exact Hi).
  rewrite (map_nth f), seq_nth by exact Hi. unfold f. cbn [Nat.add].
  now rewrite map_map.
Qed.

(** An empty row has crowding distance -inf. *)
Lemma upd_crowd_empty i :
  i < n -> nth i em false = true -> nth i crowd NaN = NInf.
Proof.
  intros Hi He. rewrite upd_crowd_nth by exact Hi.
  pose proof (objectives_pos fit em well_formed) as Hm.
  rewrite fsum_NaN; [reflexivity|].
  apply in_map_iff. exists 0. split; [|apply in_seq; lia].
  apply upd_contribution_empty; auto.
Qed.

(** With a positive amplitude on every objective, a valid row has a
    crowding distance that is a number or +inf. *)
Lemma upd_crowd_valid i :
  (forall c, c < m ->
             exists A, upd_score_amplitude fit em c = Fin A /\ (0 < A)%Qc) ->
  i < n -> nth i em false = false ->
  is_distance (nth i crowd NaN) = true.
Proof.
  intros Hamp Hi Hv. rewrite upd_crowd_nth by exact Hi.
  pose proof (objectives_pos fit em well_formed) as Hm.
  assert (H : is_distance
                (fdiv (fsum (map (fun c => nth i (upd_contribution fit em c) NaN)
                               (seq 0 m)))
                   (F (Z.of_nat m))) = true).
  { apply is_distance_mean; [exact Hm|]. apply is_distance_fsum.
    apply Forall_forall. intros x Hx. apply in_map_iff in Hx.
    destruct Hx as [c [<- Hc]]. apply in_seq in Hc.
    destruct (Hamp c ltac:(lia)) as [A [EA HA]].
    apply (upd_contribution_valid fit em c well_formed ltac:(lia) A); auto. }
  destruct (fdiv _ _); try discriminate; exact H.
Qed.

(** The only valid row of a buffer has crowding distance +inf. *)
Lemma upd_crowd_sole i :
  i < n -> nth i em false = false ->
  (forall j, j < n -> j <> i -> nth j em false = true) ->
  nth i crowd NaN = PInf.
Proof.
  intros Hi Hv Hsole. rewrite upd_crowd_nth by exact Hi.
  pose proof (objectives_pos fit em well_formed) as Hm.
  rewrite fsum_PInf.
  - unfold F. rewrite fdiv_PInf; [reflexivity|].
    apply Qclt_le_weak, qz_pos. exact Hm.
  - destruct m; [lia|]. rewrite <- cons_seq. discriminate.
  - apply Forall_forall. intros x Hx. apply in_map_iff in Hx.
    destruct Hx as [c [<- Hc]]. apply in_seq in Hc. symmetry.
    apply upd_contribution_sole; auto. lia.
Qed.
End UpdateBuffer.

(** ** The working buffer of the update is a well-formed front *)

Lemma forallb_map2_intro {A B} (f : A -> B -> bool) l l' da db :
  (forall j, j < length l -> j < length l' ->
             f (nth j l da) (nth j l' db) = true) ->
  forallb id (map2 f l l') = true.
Proof.
  revert l'; induction l as [|a l IH]; intros [|b l'] H; simpl; auto.
  apply andb_true_iff. split.
  - apply (H 0); simpl; lia.
  - apply IH. intros j Hj Hj'. apply (H (S j)); simpl; lia.
Qed.

Lemma uniform_rows_nth m (M : matrix) i :
  uniform_rows m M = true -> i < length M -> length (nth i M []) = m.
Proof.
  unfold uniform_rows. intros H Hi. rewrite forallb_forall in H.
  apply Nat.eqb_eq. apply H. now apply nth_In.
Qed.

Lemma mask_fitness_false_row (r : list fl) :
  map (mask_fitness false) r = repeat NInf (length r).
Proof. induction r as [|x r IH]; simpl; [|rewrite IH]; reflexivity. Qed.

Lemma finite_row_kept (r : list fl) :
  forallb is_finite r = true -> map (mask_fitness true) r = r.
Proof.
  intros H. apply mask_fitness_true_row. now apply finite_row_no_sentinel.
Qed.

Section Buffer.
Variables pff nbf : matrix.
Variables mask nmask : list bool.

Hypothesis mask_shape : length mask = length pff.
Hypothesis new_mask_shape : length nmask = length nbf.
Hypothesis objectives : 1 <= num_criteria nbf.
Hypothesis widths : uniform_rows (num_criteria nbf) (pff ++ nbf) = true.
Hypothesis front_finite : valid_finite pff mask = true.
Hypothesis batch_finite : valid_finite nbf nmask = true.

Local Abbreviation L := (length pff).
Local Abbreviation B := (length nbf).
Local Abbreviation m := (num_criteria nbf).
Local Abbreviation nf := (num_front_elements pff mask nbf nmask).
Local Abbreviation idx := (indices pff mask nbf nmask).
Local Abbreviation aff := (all_front_fitnesses pff mask nbf nmask).
Local Abbreviation emask := (empty_mask pff mask nbf nmask).
Local Abbreviation crowd := (crowding_distances pff mask nbf nmask).

Lemma batch_not_empty : 1 <= B.
Proof.
  unfold num_criteria, shape1 in objectives.
  destruct nbf; simpl in *; lia.
Qed.

Lemma indices_lt k : k < L + B -> nth k idx 0 < L + B.
Proof.
  intros Hk. destruct (Nat.lt_ge_cases k nf) as [Hlt|Hge].
  - pose proof (indices_marked pff mask nbf nmask mask_shape new_mask_shape
                  k Hlt) as H.
    apply oracle_marked in H. destruct H as [H _].
    now rewrite cat_fitnesses_length in H.
  - rewrite indices_past_front; auto. lia.
Qed.

Lemma buffer_row_width k :
  k < L + B -> length (nth (nth k idx 0) (cat_fitnesses pff nbf) []) = m.
Proof.
  intros Hk. apply uniform_rows_nth; [exact widths|].
  fold (cat_fitnesses pff nbf). rewrite cat_fitnesses_length.
  now apply indices_lt.
Qed.

(** A row of the compacted front is the row of a marked entry, unchanged;
    a row past the front is filled with -inf. *)
Lemma buffer_row k :
  k < L + B ->
  nth k aff []
  = if k <? nf then nth (nth k idx 0) (cat_fitnesses pff nbf) []
    else repeat NInf m.
Proof.
  intros Hk.
  rewrite (all_front_fitnesses_nth pff mask nbf nmask mask_shape new_mask_shape)
    by exact Hk.
  destruct (Nat.ltb_spec k nf) as [Hlt|Hge].
  - apply finite_row_kept.
    pose proof (indices_marked pff mask nbf nmask mask_shape new_mask_shape
                  k Hlt) as H.
    apply oracle_marked in H. destruct H as (H1 & H2 & H3 & _).
    apply valid_finite_cat with (mask := mask) (nmask := nmask); auto.
    now rewrite cat_fitnesses_length in H1.
  - rewrite mask_fitness_false_row, buffer_row_width by exact Hk. reflexivity.
Qed.

Lemma buffer_row_finite k :
  k < nf -> forallb is_finite (nth k aff []) = true.
Proof.
  intros Hlt.
  pose proof (num_front_elements_le pff mask nbf nmask mask_shape
                new_mask_shape) as Hle.
  rewrite buffer_row by lia.
  replace (k <? nf) with true by (symmetry; apply Nat.ltb_lt; exact Hlt).
  pose proof (indices_marked pff mask nbf nmask mask_shape new_mask_shape
                k Hlt) as H.
  apply oracle_marked in H. destruct H as (H1 & H2 & H3 & _).
  apply valid_finite_cat with (mask := mask) (nmask := nmask); auto.
  now rewrite cat_fitnesses_length in H1.
Qed.

(** The rows flagged empty are exactly the rows past the front. *)
Lemma empty_mask_flags k :
  k < L + B -> nth k emask false = (nf <=? k).
Proof.
  intros Hk.
  rewrite (empty_mask_nth pff mask nbf nmask mask_shape new_mask_shape)
    by exact Hk.
  destruct (Nat.leb_spec nf k) as [Hge|Hlt].
  - rewrite buffer_row by exact Hk.
    replace (k <? nf) with false by (symmetry; apply Nat.ltb_ge; exact Hge).
    destruct m; [lia|]. reflexivity.
  - pose proof (buffer_row_finite k Hlt) as Hf.
    destruct (existsb _ _) eqn:E; auto.
    apply existsb_exists in E. destruct E as [x [Hx Ex]].
    rewrite forallb_forall in Hf. specialize (Hf x Hx).
    destruct x; discriminate.
Qed.

Lemma buffer_shape1 : shape1 aff = m.
Proof.
  pose proof batch_not_empty as HB.
  unfold shape1.
  assert (E : hd [] aff = nth 0 aff []) by (destruct aff; reflexivity).
  rewrite E, buffer_row by lia.
  destruct (0 <? nf); [apply buffer_row_width; lia|apply repeat_length].
Qed.

Lemma buffer_well_formed : front_well_formed aff emask = true.
Proof.
  pose proof batch_not_empty as HB.
  pose proof (all_front_fitnesses_length pff mask nbf nmask mask_shape
                new_mask_shape) as Hl.
  pose proof (empty_mask_length pff mask nbf nmask mask_shape
                new_mask_shape) as Hl'.
  unfold front_well_formed. rewrite buffer_shape1.
  apply andb_true_iff. split; [apply andb_true_iff; split|].
  - apply Nat.eqb_eq. lia.
  - apply Nat.leb_le. exact objectives.
  - apply (forallb_map2_intro _ _ _ [] false). intros k Hk _.
    rewrite Hl in Hk. rewrite empty_mask_flags by exact Hk.
    destruct (Nat.leb_spec nf k) as [Hge|Hlt].
    + rewrite buffer_row by exact Hk.
      replace (k <? nf) with false by (symmetry; apply Nat.ltb_ge; exact Hge).
      rewrite repeat_length, Nat.eqb_refl. cbn [andb].
      apply forallb_forall. intros x Hx. apply repeat_spec in Hx.
      subst x. reflexivity.
    + rewrite (buffer_row_finite k Hlt), andb_true_r.
      apply Nat.eqb_eq. rewrite buffer_row by exact Hk.
      replace (k <? nf) with true by (symmetry; apply Nat.ltb_lt; exact Hlt).
      now apply buffer_row_width.
Qed.

Lemma crowding_distances_buffer :
  crowd = upd_crowding_distances aff emask (shape1 aff).
Proof. unfold crowding_distances. now rewrite buffer_shape1. Qed.

(** A row past the front has crowding distance -inf. *)
Lemma crowd_past_front k :
  nf <= k -> k < L + B -> nth k crowd NaN = NInf.
Proof.
  intros Hge Hk. rewrite crowding_distances_buffer.
  apply (upd_crowd_empty aff emask buffer_well_formed).
  - now rewrite (all_front_fitnesses_length pff mask nbf nmask mask_shape
                   new_mask_shape).
  - rewrite empty_mask_flags by exact Hk. now apply Nat.leb_le.
Qed.

(** A row of the front has a crowding distance that is a number or +inf:
    when it is the only one, or when every objective has a positive
    amplitude. *)
Lemma crowd_on_front k :
  (2 <= nf -> upd_positive_amplitudes pff mask nbf nmask = true) ->
  k < nf -> is_distance (nth k crowd NaN) = true.
Proof.
  intros Hamp Hlt.
  pose proof (num_front_elements_le pff mask nbf nmask mask_shape
                new_mask_shape) as Hle.
  pose proof (all_front_fitnesses_length pff mask nbf nmask mask_shape
                new_mask_shape) as Hl.
  rewrite crowding_distances_buffer.
  destruct (Nat.le_gt_cases 2 nf) as [H2|H1].
  - apply (upd_crowd_valid aff emask buffer_well_formed).
    + intros c Hc. rewrite buffer_shape1 in Hc.
      specialize (Hamp H2). unfold upd_positive_amplitudes in Hamp.
      rewrite forallb_forall in Hamp.
      specialize (Hamp c ltac:(apply in_seq; lia)).
      destruct (upd_score_amplitude aff emask c) as [A| | |]; try discriminate.
      exists A. split; [reflexivity|].
      apply negb_true_iff in Hamp. now apply (proj1 (Qle_bool_Qclt A 0%Qc)).
    + rewrite Hl. lia.
    + rewrite empty_mask_flags by lia. apply Nat.leb_gt. exact Hlt.
  - assert (k = 0) by lia. subst k.
    rewrite (upd_crowd_sole aff emask buffer_well_formed 0); [reflexivity| | |].
    + rewrite Hl. lia.
    + rewrite empty_mask_flags by lia. apply Nat.leb_gt. exact Hlt.
    + intros j Hj Hne. rewrite Hl in Hj.
      rewrite empty_mask_flags by exact Hj. apply Nat.leb_le. lia.
Qed.
End Buffer.

(** ** Where the update puts the valid entries *)

Lemma StronglySorted_of_nth {A} (R : A -> A -> Prop) (l : list A) d :
  (forall p q, p < q -> q < length l -> R (nth p l d) (nth q l d)) ->
  StronglySorted R l.
Proof.
  induction l as [|a l IH]; intros H; constructor.
  - apply IH. intros p q Hpq Hq. apply (H (S p) (S q)); simpl; lia.
  - apply Forall_forall. intros x Hx. apply (In_nth _ _ d) in Hx.
    destruct Hx as [q [Hq <-]]. apply (H 0 (S q)); simpl; lia.
Qed.

(** A vector of flags in which no [true] follows a [false]. *)
Lemma monotone_flags (l : list bool) :
  StronglySorted (fun a b : bool => b = true -> a = true) l ->
  l = repeat true (count_true l) ++ repeat false (length l - count_true l).
Proof.
  unfold count_true. induction 1 as [|a l Hs IH Ha]; [reflexivity|].
  destruct a; cbn [filter id length].
  - cbn [repeat app Nat.sub]. f_equal. exact IH.
  - assert (Hall : forall b, In b l -> b = false).
    { rewrite Forall_forall in Ha. intros b Hb. specialize (Ha b Hb).
      destruct b; auto. specialize (Ha eq_refl). discriminate. }
    assert (E : filter id l = []).
    { clear - Hall. induction l as [|b l IH]; [reflexivity|].
      simpl. rewrite (Hall b (or_introl eq_refl)). apply IH.
      intros b' Hb'. apply Hall. now right. }
    rewrite E in *. cbn [length repeat app Nat.sub] in *.
    rewrite Nat.sub_0_r in IH. f_equal. exact IH.
Qed.

Lemma count_true_app (l l' : list bool) :
  count_true (l ++ l') = count_true l + count_true l'.
Proof. unfold count_true. now rewrite filter_app, length_app. Qed.

Lemma count_past nf n :
  count_true (map (fun k => nf <=? k) (seq 0 n)) = n - nf.
Proof.
  induction n as [|n IH]; [reflexivity|].
  rewrite seq_S, map_app, count_true_app, IH. cbn [Nat.add map].
  unfold count_true at 1. cbn [filter].
  destruct (Nat.leb_spec nf n); cbn [id length]; lia.
Qed.

Lemma skipn_repeat {A} (a : A) j x : skipn j (repeat a x) = repeat a (x - j).
Proof.
  revert j; induction x as [|x IH]; intros [|j]; simpl; auto.
Qed.

Lemma skipn_flags j x y :
  skipn j (repeat true x ++ repeat false y)
  = repeat true (x - j) ++ repeat false (y - (j - x)).
Proof.
  rewrite skipn_app, !skipn_repeat, repeat_length. reflexivity.
Qed.

Lemma lastn_skipn {A} n (a : list A) :
  1 <= n -> lastn n a = skipn (length a - n) a.
Proof.
  intros H. unfold lastn. destruct (Nat.eqb_spec n 0); [lia|reflexivity].
Qed.

Section KeptLayout.
Variables pff nbf : matrix.
Variables mask nmask : list bool.

Hypothesis mask_shape : length mask = length pff.
Hypothesis new_mask_shape : length nmask = length nbf.
Hypothesis capacity : 1 <= length pff.

Local Abbreviation L := (length pff).
Local Abbreviation B := (length nbf).
Local Abbreviation nf := (num_front_elements pff mask nbf nmask).
Local Abbreviation emask := (empty_mask pff mask nbf nmask).
Local Abbreviation crowd := (crowding_distances pff mask nbf nmask).
Local Abbreviation sidx := (sorted_distances_index pff mask nbf nmask).
Local Abbreviation keep := (keep_indices pff mask nbf nmask).

Hypothesis flags : forall k, k < L + B -> nth k emask false = (nf <=? k).
Hypothesis past : forall k, nf <= k -> k < L + B -> nth k crowd NaN = NInf.
Hypothesis front :
  forall k, k < nf -> is_distance (nth k crowd NaN) = true.

Lemma sidx_lt p : p < L + B -> nth p sidx 0 < L + B.
Proof.
  intros Hp.
  assert (H : In (nth p sidx 0) sidx).
  { apply nth_In.
    now rewrite (sorted_distances_index_length pff mask nbf nmask mask_shape
                   new_mask_shape). }
  unfold sorted_distances_index, argsort_fl in H. apply argsort_In in H.
  now rewrite (crowding_distances_length pff mask nbf nmask mask_shape
                 new_mask_shape) in H.
Qed.

(** In the order of increasing crowding distance the rows past the front
    come first. *)
Lemma sorted_flags :
  take false emask sidx = repeat true (L + B - nf) ++ repeat false nf.
Proof.
  pose proof (sorted_distances_index_length pff mask nbf nmask mask_shape
                new_mask_shape) as Hl.
  pose proof (crowding_distances_length pff mask nbf nmask mask_shape
                new_mask_shape) as Hc.
  pose proof (num_front_elements_le pff mask nbf nmask mask_shape
                new_mask_shape) as Hle.
  assert (E : take false emask sidx = map (fun k => nf <=? k) sidx).
  { unfold take. apply map_ext_in. intros k Hk.
    apply flags. apply (In_nth _ _ 0) in Hk. destruct Hk as [p [Hp <-]].
    apply sidx_lt. lia. }
  rewrite E.
  assert (Hcount : count_true (map (fun k => nf <=? k) sidx) = L + B - nf).
  { rewrite <- (count_past nf (L + B)). unfold count_true.
    apply Permutation_filter_length, Permutation_map.
    unfold sorted_distances_index, argsort_fl. rewrite <- Hc.
    apply argsort_perm. }
  rewrite (monotone_flags (map (fun k => nf <=? k) sidx)).
  - rewrite Hcount, length_map, Hl. f_equal. f_equal. lia.
  - apply StronglySorted_map.
    apply (StronglySorted_of_nth _ _ 0). intros p q Hpq Hq Hqe.
    rewrite Hl in Hq. apply Nat.leb_le in Hqe. apply Nat.leb_le.
    destruct (Nat.le_gt_cases nf (nth p sidx 0)) as [|Hlt]; auto. exfalso.
    pose proof (argsort_stable fl sort_leb sort_leb_total sort_leb_trans
                  crowd NaN p q) as St.
    rewrite Hc in St. specialize (St ltac:(lia)). cbv zeta in St.
    fold argsort_fl in St.
    change (argsort_fl crowd) with sidx in St.
    rewrite (past (nth q sidx 0)) in St by (auto; apply sidx_lt; lia).
    pose proof (front _ Hlt) as Hd.
    destruct (nth (nth p sidx 0) crowd NaN); try discriminate;
      destruct St as [St|[St _]]; discriminate.
Qed.

(** The mask of the kept rows: the empty slots first, the valid entries
    packed at the end. *)
Lemma kept_flags :
  take false emask keep = repeat true (L - nf) ++ repeat false (Nat.min nf L).
Proof.
  pose proof (sorted_distances_index_length pff mask nbf nmask mask_shape
                new_mask_shape) as Hl.
  pose proof (num_front_elements_le pff mask nbf nmask mask_shape
                new_mask_shape) as Hle.
  unfold keep_indices, pareto_front_len. rewrite lastn_skipn by exact capacity.
  unfold take. rewrite <- skipn_map. fold (take false emask sidx).
  rewrite sorted_flags, skipn_flags, Hl. f_equal; f_equal; lia.
Qed.

Lemma keep_nth_valid p :
  p < L -> (L - nf <= p <-> nth p keep 0 < nf).
Proof.
  intros Hp.
  pose proof (keep_indices_length pff mask nbf nmask mask_shape new_mask_shape
                capacity) as Hk.
  pose proof (keep_nth_lt pff mask nbf nmask p mask_shape new_mask_shape
                ltac:(lia)) as Hlt.
  assert (E : nth p (take false emask keep) false = (nf <=? nth p keep 0)).
  { rewrite take_nth by lia. now apply flags. }
  rewrite kept_flags in E.
  destruct (Nat.lt_ge_cases p (L - nf)) as [H|H].
  - rewrite app_nth1 in E by (rewrite repeat_length; exact H).
    rewrite nth_repeat_lt in E by exact H.
    symmetry in E. apply Nat.leb_le in E. lia.
  - rewrite app_nth2 in E by (rewrite repeat_length; exact H).
    rewrite repeat_length, nth_repeat_lt in E by lia.
    symmetry in E. apply Nat.leb_gt in E. lia.
Qed.

(** With room for the whole front, every row of the front is kept. *)
Lemma front_rows_kept k :
  nf <= L -> k < nf -> exists p, L - nf <= p /\ p < L /\ nth p keep 0 = k.
Proof.
  intros Hroom Hk.
  pose proof (keep_indices_length pff mask nbf nmask mask_shape new_mask_shape
                capacity) as Hlen.
  set (ks := skipn (L - nf) keep).
  assert (Hks : length ks = nf) by (unfold ks; rewrite length_skipn; lia).
  assert (Hnth : forall j, j < nf -> nth j ks 0 = nth (L - nf + j) keep 0).
  { intros j Hj. unfold ks. rewrite nth_skipn. reflexivity. }
  assert (Hnd : NoDup ks).
  { unfold ks.
    pose proof (keep_indices_NoDup pff mask nbf nmask) as H.
    rewrite <- (firstn_skipn (L - nf) keep) in H.
    now apply NoDup_app_remove_l in H. }
  assert (Hincl : incl ks (seq 0 nf)).
  { intros x Hx. apply (In_nth _ _ 0) in Hx. destruct Hx as [j [Hj <-]].
    rewrite Hks in Hj. rewrite Hnth by exact Hj.
    apply in_seq. split; [lia|]. cbn [Nat.add].
    apply keep_nth_valid; lia. }
  assert (Hback : incl (seq 0 nf) ks).
  { apply NoDup_length_incl; auto. rewrite length_seq, Hks. lia. }
  assert (Hin : In k ks) by (apply Hback, in_seq; lia).
  apply (In_nth _ _ 0) in Hin. destruct Hin as [j [Hj Ej]].
  rewrite Hks in Hj. rewrite Hnth in Ej by exact Hj.
  exists (L - nf + j). repeat split; auto; lia.
Qed.
End KeptLayout.

Lemma valid_count_flags a b :
  valid_count (repeat true a ++ repeat false b) = b.
Proof.
  unfold valid_count. rewrite map_app, count_true_app.
  assert (H1 : count_true (map negb (repeat true a)) = 0)
    by (induction a; simpl; auto).
  assert (H2 : count_true (map negb (repeat false b)) = b)
    by (unfold count_true; induction b; simpl; auto).
  lia.
Qed.

Section PackedFront.
Variables pff pfd nbf nbd : matrix.
Variables pfg nbg : list genotype.
Variables mask nmask : list bool.

Hypothesis mask_shape : length mask = length pff.
Hypothesis new_mask_shape : length nmask = length nbf.
Hypothesis capacity : 1 <= length pff.
Hypothesis objectives : 1 <= num_criteria nbf.
Hypothesis widths : uniform_rows (num_criteria nbf) (pff ++ nbf) = true.
Hypothesis front_finite : valid_finite pff mask = true.
Hypothesis batch_finite : valid_finite nbf nmask = true.
Hypothesis amplitudes :
  2 <= num_front_elements pff mask nbf nmask ->
  upd_positive_amplitudes pff mask nbf nmask = true.

Local Abbreviation L := (length pff).
Local Abbreviation nf := (num_front_elements pff mask nbf nmask).
Local Abbreviation keep := (keep_indices pff mask nbf nmask).

Lemma packed_flags :
  take false (empty_mask pff mask nbf nmask) keep
  = repeat true (L - nf) ++ repeat false (Nat.min nf L).
Proof.
  apply kept_flags; auto.
  - intros k Hk. now apply empty_mask_flags.
  - intros k H1 H2. now apply crowd_past_front.
  - intros k Hk. now apply crowd_on_front.
Qed.

Lemma packed_rows_kept k :
  nf <= L -> k < nf -> exists p, L - nf <= p /\ p < L /\ nth p keep 0 = k.
Proof.
  apply front_rows_kept; auto.
  - intros k' Hk. now apply empty_mask_flags.
  - intros k' H1 H2. now apply crowd_past_front.
  - intros k' Hk. now apply crowd_on_front.
Qed.
End PackedFront.

(** X8.  Layout of the returned front.  With finite valid entries, rows
    of one width and, when two or more entries are on the front, a
    positive amplitude on every objective of the working buffer, the
    returned mask is a run of empty slots followed by the valid entries:
    the valid entries are packed at the end, and their number is the size
    of the front capped by the capacity. *)
Theorem valid_entries_packed_last pff pfg pfd mask nbf nbg nbd nmask u :
  length mask = length pff ->
  length nmask = length nbf ->
  1 <= length pff ->
  1 <= num_criteria nbf ->
  uniform_rows (num_criteria nbf) (pff ++ nbf) = true ->
  valid_finite pff mask = true ->
  valid_finite nbf nmask = true ->
  (2 <= num_front_elements pff mask nbf nmask ->
   upd_positive_amplitudes pff mask nbf nmask = true) ->
  update_masked_pareto_front pff pfg pfd mask nbf nbg nbd nmask = Some u ->
  let nf := num_front_elements pff mask nbf nmask in
  new_mask u
  = repeat true (length pff - nf) ++ repeat false (Nat.min nf (length pff))
  /\ valid_count (new_mask u) = Nat.min nf (length pff).
Proof.
  intros Hm Hn HL Hc Hw Vf Vn Hamp Hu nf.
  apply update_Some in Hu. destruct Hu as (_ & _ & _ & Hmk & _).
  assert (E : new_mask u
              = repeat true (length pff - nf)
                ++ repeat false (Nat.min nf (length pff)))
    by (rewrite Hmk; now apply packed_flags).
  split; [exact E|]. rewrite E. apply valid_count_flags.
Qed.

Lemma valid_entries_packed_last_witness :
  let nf := num_front_elements ex_empty_fitnesses ex_empty_mask
              ex_batch_fitnesses ex_batch_mask in
  new_mask ex_first_update
  = repeat true (length ex_empty_fitnesses - nf)
    ++ repeat false (Nat.min nf (length ex_empty_fitnesses))
  /\ valid_count (new_mask ex_first_update)
     = Nat.min nf (length ex_empty_fitnesses).
Proof.
  apply (valid_entries_packed_last ex_empty_fitnesses ex_empty_genotypes
           ex_empty_descriptors ex_empty_mask ex_batch_fitnesses
           ex_batch_genotypes ex_batch_descriptors ex_batch_mask
           ex_first_update).
  - reflexivity.
  - reflexivity.
  - simpl. lia.
  - vm_compute. lia.
  - vm_compute. reflexivity.
  - vm_compute. reflexivity.
  - vm_compute. reflexivity.
  - intros H. vm_compute in H. lia.
  - apply update_returns. vm_compute. reflexivity.
Defined.

(** X9.  No entry is lost while there is room.  Under the same
    conditions, when the front fits in the capacity, every entry on the
    front the oracle computed is returned in a valid slot, with its
    fitness, genotype and descriptor. *)
Theorem front_entries_all_kept pff pfg pfd mask nbf nbg nbd nmask u i :
  length mask = length pff ->
  length nmask = length nbf ->
  1 <= length pff ->
  1 <= num_criteria nbf ->
  uniform_rows (num_criteria nbf) (pff ++ nbf) = true ->
  valid_finite pff mask = true ->
  valid_finite nbf nmask = true ->
  (2 <= num_front_elements pff mask nbf nmask ->
   upd_positive_amplitudes pff mask nbf nmask = true) ->
  update_masked_pareto_front pff pfg pfd mask nbf nbg nbd nmask = Some u ->
  num_front_elements pff mask nbf nmask <= length pff ->
  nth i (cat_bool_front pff mask nbf nmask) false = true ->
  exists p,
    p < length pff
    /\ nth p (new_mask u) true = false
    /\ nth p (new_front_fitnesses u) [] = nth i (pff ++ nbf) []
    /\ nth p (new_front_genotypes u) [] = nth i (pfg ++ nbg) []
    /\ nth p (new_front_descriptors u) [] = nth i (pfd ++ nbd) [].
Proof.
  intros Hm Hn HL Hc Hw Vf Vn Hamp Hu Hroom Hi.
  apply update_Some in Hu. destruct Hu as (Hf & Hg & Hd & Hmk & _).
  destruct (front_position_index pff mask nbf nmask i Hm Hn Hi) as [k [Hk Ek]].
  destruct (packed_rows_kept pff nbf mask nmask Hm Hn HL Hc Hw Vf Vn Hamp
              k Hroom Hk) as [p [Hp1 [Hp2 Ep]]].
  pose proof (keep_indices_length pff mask nbf nmask Hm Hn HL) as Hlen.
  pose proof (num_front_elements_le pff mask nbf nmask Hm Hn) as Hle.
  assert (He : nth k (empty_mask pff mask nbf nmask) false = false).
  { rewrite (empty_mask_flags pff nbf mask nmask Hm Hn Hc Hw Vf Vn) by lia.
    now apply Nat.leb_gt. }
  destruct (front_row_payload pff pfg pfd mask nbf nbg nbd nmask k
              Hm Hn ltac:(lia) Hk He) as (E1 & E2 & E3).
  rewrite Ek in E1, E2, E3.
  exists p. rewrite Hf, Hg, Hd, Hmk.
  rewrite (nth_indep _ true false) by (rewrite take_length; lia).
  rewrite !take_nth by lia. rewrite Ep. auto.
Qed.

Lemma front_entries_all_kept_witness :
  exists p,
    p < length ex_front_fitnesses
    /\ nth p (new_mask ex_update) true = false
    /\ nth p (new_front_fitnesses ex_update) []
       = nth 2 (ex_front_fitnesses ++ ex_batch_fitnesses) []
    /\ nth p (new_front_genotypes ex_update) []
       = nth 2 (ex_front_genotypes ++ ex_batch_genotypes) []
    /\ nth p (new_front_descriptors ex_update) []
       = nth 2 (ex_front_descriptors ++ ex_batch_descriptors) [].
Proof.
  apply (front_entries_all_kept ex_front_fitnesses ex_front_genotypes
           ex_front_descriptors ex_front_mask ex_batch_fitnesses
           ex_batch_genotypes ex_batch_descriptors ex_batch_mask ex_update 2).
  - reflexivity.
  - reflexivity.
  - simpl. lia.
  - vm_compute. lia.
  - vm_compute. reflexivity.
  - vm_compute. reflexivity.
  - vm_compute. reflexivity.
  - intros _. vm_compute. reflexivity.
  - apply update_returns. vm_compute. reflexivity.
  - vm_compute. lia.
  - vm_compute. reflexivity.
Defined.

(** ** The first insertion into an empty front *)

Lemma fmask_false_row (r : list fl) :
  map (fun x => fmask x false) r = repeat (F 0) (length r).
Proof.
  induction r as [|x r IH]; cbn [map length repeat]; [|rewrite IH];
    reflexivity.
Qed.

Lemma valid_finite_all_masked (M : matrix) :
  valid_finite M (repeat true (length M)) = true.
Proof.
  unfold valid_finite. induction M as [|r M IH]; [reflexivity|].
  simpl. exact IH.
Qed.

Lemma true_positions_last s n :
  true_positions s (repeat false n ++ [true]) = [s + n].
Proof.
  revert s; induction n as [|n IH]; intros s; simpl.
  - f_equal. lia.
  - rewrite IH. f_equal. lia.
Qed.

Lemma count_true_last n : count_true (repeat false n ++ [true]) = 1.
Proof. unfold count_true. induction n; simpl; auto. Qed.

Section FirstInsertion.
Variables pff pfd : matrix.
Variable pfg : list genotype.
Variables cand g d : list fl.

Hypothesis capacity : 1 <= length pff.
Hypothesis genotypes_shape : length pfg = length pff.
Hypothesis descriptors_shape : length pfd = length pff.
Hypothesis objectives : cand <> [].
Hypothesis finite : forallb is_finite cand = true.
Hypothesis widths : uniform_rows (length cand) pff = true.

Local Abbreviation L := (length pff).
Local Abbreviation mask := (repeat true (length pff)).
Local Abbreviation nf := (num_front_elements pff mask [cand] [false]).
Local Abbreviation idx := (indices pff mask [cand] [false]).
Local Abbreviation keep := (keep_indices pff mask [cand] [false]).

Lemma fi_mask_shape : length mask = length pff.
Proof. apply repeat_length. Qed.

Lemma fi_new_mask_shape : length [false] = length [cand].
Proof. reflexivity. Qed.

Lemma fi_objectives : 1 <= num_criteria [cand].
Proof. unfold num_criteria, shape1. destruct cand; simpl; [congruence|lia]. Qed.

Lemma fi_widths : uniform_rows (num_criteria [cand]) (pff ++ [cand]) = true.
Proof.
  unfold uniform_rows, num_criteria, shape1 in *. cbn [hd].
  rewrite forallb_app, widths. simpl. now rewrite Nat.eqb_refl.
Qed.

Lemma fi_batch_finite : valid_finite [cand] [false] = true.
Proof. unfold valid_finite. simpl. now rewrite finite. Qed.

(** Only the candidate is on the front. *)
Lemma fi_front :
  cat_bool_front pff mask [cand] [false] = repeat false L ++ [true].
Proof.
  pose proof (cat_bool_front_length pff mask [cand] [false] fi_mask_shape
                fi_new_mask_shape) as Hlen.
  apply (nth_ext _ _ false false).
  - rewrite Hlen, length_app, repeat_length. reflexivity.
  - intros i Hi. rewrite Hlen in Hi. cbn [length] in Hi.
    destruct (Nat.lt_ge_cases i L) as [Hlt|Hge].
    + rewrite app_nth1 by (rewrite repeat_length; exact Hlt).
      rewrite nth_repeat_lt by exact Hlt.
      destruct (nth i (cat_bool_front pff mask [cand] [false]) false) eqn:E;
        auto.
      apply oracle_marked in E. destruct E as (_ & _ & E & _).
      unfold cat_mask in E.
      rewrite app_nth1, nth_repeat_lt in E by (rewrite ?repeat_length; lia).
      discriminate.
    + assert (i = L) by lia. subst i.
      rewrite app_nth2 by (rewrite repeat_length; lia).
      rewrite repeat_length, Nat.sub_diag. cbn [nth].
      apply oracle_marks.
      * rewrite cat_fitnesses_length. simpl. lia.
      * unfold cat_mask. rewrite length_app, repeat_length. simpl. lia.
      * unfold cat_mask.
        rewrite app_nth2, repeat_length, Nat.sub_diag
          by (rewrite repeat_length; lia).
        reflexivity.
      * intros j Hj _ Mj. rewrite cat_fitnesses_length in Hj.
        cbn [length] in Hj. unfold cat_mask in Mj.
        destruct (Nat.lt_ge_cases j L) as [Hlt|Hge'].
        -- rewrite app_nth1, nth_repeat_lt in Mj
             by (rewrite ?repeat_length; lia).
           discriminate.
        -- assert (j = L) by lia. subst j. apply dominates_irrefl.
Qed.

Lemma fi_count : nf = 1.
Proof. unfold num_front_elements. rewrite fi_front. apply count_true_last. Qed.

(** Every index of the compacted buffer points at the candidate. *)
Lemma fi_indices k : k < L + 1 -> nth k idx 0 = L.
Proof.
  intros Hk. destruct k as [|k].
  - rewrite (indices_front pff mask [cand] [false] fi_mask_shape
               fi_new_mask_shape) by (rewrite fi_count; lia).
    rewrite fi_front, true_positions_last. reflexivity.
  - rewrite indices_past_front;
      auto using fi_mask_shape; try (rewrite fi_count; lia).
    simpl. lia.
Qed.

Lemma fi_kept_flags :
  take false (empty_mask pff mask [cand] [false]) keep
  = repeat true (L - 1) ++ [false].
Proof.
  rewrite (packed_flags pff [cand] mask [false] fi_mask_shape
             fi_new_mask_shape capacity fi_objectives fi_widths
             (valid_finite_all_masked pff) fi_batch_finite).
  - rewrite fi_count. replace (Nat.min 1 L) with 1 by lia. reflexivity.
  - rewrite fi_count. lia.
Qed.

Lemma fi_keep_length : length keep = L.
Proof.
  apply keep_indices_length; auto using fi_mask_shape.
Qed.

Lemma fi_keep_lt p : p < L -> nth p keep 0 < L + 1.
Proof.
  intros Hp.
  apply (keep_nth_lt pff mask [cand] [false] p fi_mask_shape
           fi_new_mask_shape).
  rewrite fi_keep_length. exact Hp.
Qed.

Lemma fi_keep_flag p :
  p < L -> (nth p keep 0 = 0 <-> p = L - 1).
Proof.
  intros Hp.
  pose proof (fi_keep_lt p Hp) as Hlt.
  assert (E : nth p (take false (empty_mask pff mask [cand] [false]) keep)
                false = (nf <=? nth p keep 0)).
  { rewrite take_nth by (rewrite fi_keep_length; exact Hp).
    apply empty_mask_flags;
      auto using fi_mask_shape, fi_objectives, fi_widths,
                 valid_finite_all_masked, fi_batch_finite. }
  rewrite fi_kept_flags, fi_count in E.
  destruct (Nat.lt_ge_cases p (L - 1)) as [H|H].
  - rewrite app_nth1, nth_repeat_lt in E by (rewrite ?repeat_length; lia).
    symmetry in E. apply Nat.leb_le in E. lia.
  - rewrite app_nth2 in E by (rewrite repeat_length; lia).
    rewrite repeat_length in E. replace (p - (L - 1)) with 0 in E by lia.
    cbn [nth] in E. symmetry in E. apply Nat.leb_gt in E. lia.
Qed.

Lemma fi_cat_fitnesses : nth L (cat_fitnesses pff [cand]) [] = cand.
Proof.
  unfold cat_fitnesses. rewrite app_nth2, Nat.sub_diag by lia. reflexivity.
Qed.

Lemma fi_fitnesses :
  take [] (all_front_fitnesses_zeroed pff mask [cand] [false]) keep
  = repeat (repeat (F 0) (length cand)) (L - 1) ++ [cand].
Proof.
  apply (nth_ext _ _ [] []).
  - rewrite take_length, fi_keep_length, length_app, repeat_length.
    simpl. lia.
  - intros p Hp. rewrite take_length, fi_keep_length in Hp.
    rewrite take_nth by (rewrite fi_keep_length; exact Hp).
    pose proof (fi_keep_lt p Hp) as Hlt.
    rewrite zeroed_nth.
    rewrite (all_front_fitnesses_nth pff mask [cand] [false] fi_mask_shape
               fi_new_mask_shape) by exact Hlt.
    rewrite fi_indices, fi_cat_fitnesses, fi_count by exact Hlt.
    destruct (Nat.lt_ge_cases p (L - 1)) as [H|H].
    + rewrite app_nth1, nth_repeat_lt by (rewrite ?repeat_length; lia).
      assert (Hne : nth p keep 0 <> 0)
        by (intros E; apply fi_keep_flag in E; lia).
      replace (nth p keep 0 <? 1) with false
        by (symmetry; apply Nat.ltb_ge; lia).
      rewrite mask_fitness_false_row. clear.
      induction (length cand) as [|n IH]; simpl; [|rewrite IH]; reflexivity.
    + rewrite app_nth2 by (rewrite repeat_length; lia).
      rewrite repeat_length. replace (p - (L - 1)) with 0 by lia. cbn [nth].
      assert (E : nth p keep 0 = 0) by (apply fi_keep_flag; lia).
      rewrite E. cbn [Nat.ltb Nat.leb].
      rewrite finite_row_kept by exact finite.
      apply zeroed_row_id.
      rewrite <- (finite_row_kept cand finite) at 1.
      now apply finite_row_no_sentinel.
Qed.

Lemma fi_genotypes :
  take [] (all_front_genotypes pff pfg mask [cand] [g] [false]) keep
  = repeat g L.
Proof.
  apply (nth_ext _ _ [] []).
  - now rewrite take_length, fi_keep_length, repeat_length.
  - intros p Hp. rewrite take_length, fi_keep_length in Hp.
    rewrite take_nth by (rewrite fi_keep_length; exact Hp).
    pose proof (fi_keep_lt p Hp) as Hlt.
    rewrite (all_front_genotypes_nth pff pfg mask [cand] [g] [false]
               (nth p keep 0) fi_mask_shape fi_new_mask_shape) by exact Hlt.
    rewrite fi_indices, fi_count by exact Hlt. cbn [Nat.ltb Nat.leb].
    rewrite fmask_true_row, nth_repeat_lt by exact Hp.
    unfold cat_genotypes.
    rewrite app_nth2, genotypes_shape, Nat.sub_diag by lia. reflexivity.
Qed.

Lemma fi_descriptors :
  take [] (all_front_descriptors pff pfd mask [cand] [d] [false]) keep
  = repeat (repeat (F 0) (length d)) (L - 1) ++ [d].
Proof.
  apply (nth_ext _ _ [] []).
  - rewrite take_length, fi_keep_length, length_app, repeat_length.
    simpl. lia.
  - intros p Hp. rewrite take_length, fi_keep_length in Hp.
    rewrite take_nth by (rewrite fi_keep_length; exact Hp).
    pose proof (fi_keep_lt p Hp) as Hlt.
    rewrite (all_front_descriptors_nth pff pfd mask [cand] [d] [false]
               fi_mask_shape fi_new_mask_shape) by exact Hlt.
    rewrite fi_indices, fi_count by exact Hlt.
    unfold cat_descriptors.
    rewrite app_nth2, descriptors_shape, Nat.sub_diag by lia. cbn [nth].
    destruct (Nat.lt_ge_cases p (L - 1)) as [H|H].
    + rewrite app_nth1, nth_repeat_lt by (rewrite ?repeat_length; lia).
      assert (Hne : nth p keep 0 <> 0)
        by (intros E; apply fi_keep_flag in E; lia).
      replace (nth p keep 0 <? 1) with false
        by (symmetry; apply Nat.ltb_ge; lia).
      apply fmask_false_row.
    + rewrite app_nth2 by (rewrite repeat_length; lia).
      rewrite repeat_length. replace (p - (L - 1)) with 0 by lia. cbn [nth].
      assert (E : nth p keep 0 = 0) by (apply fi_keep_flag; lia).
      rewrite E. cbn [Nat.ltb Nat.leb]. apply fmask_true_row.
Qed.

Lemma fi_added :
  any_equal (take [] (all_front_fitnesses_zeroed pff mask [cand] [false]) keep)
    [cand] = Some true.
Proof.
  assert (Hx : exists x, In x cand /\ x <> NaN).
  { clear - objectives finite. destruct cand as [|x r]; [congruence|].
    exists x. split; [now left|]. simpl in finite.
    destruct x; discriminate. }
  destruct Hx as [x [Hx Hnan]].
  apply (candidate_row_sets_flag _ cand x); auto.
  rewrite fi_fitnesses. apply in_or_app. right. now left.
Qed.
End FirstInsertion.

(** X10.  First insertion.  On a front whose slots are all empty, a single
    candidate with finite fitness is stored in the last slot, with its
    genotype and descriptor; the other slots stay empty with zero fitness
    and descriptor but carry a copy of the candidate's genotype; the update
    reports [added_bool = true] and [removed_count = -2]. *)
Theorem first_insertion_into_empty_front
    (pff pfd : matrix) (pfg : list genotype) (cand g d : list fl) :
  1 <= length pff ->
  length pfg = length pff ->
  length pfd = length pff ->
  cand <> [] ->
  forallb is_finite cand = true ->
  uniform_rows (length cand) pff = true ->
  exists u,
    update_masked_pareto_front pff pfg pfd (repeat true (length pff))
      [cand] [g] [d] [false] = Some u
    /\ new_mask u = repeat true (length pff - 1) ++ [false]
    /\ new_front_fitnesses u
       = repeat (repeat (F 0) (length cand)) (length pff - 1) ++ [cand]
    /\ new_front_genotypes u = repeat g (length pff)
    /\ new_front_descriptors u
       = repeat (repeat (F 0) (length d)) (length pff - 1) ++ [d]
    /\ added_bool u = true
    /\ removed_count u = (-2)%Z.
Proof.
  intros HL Hg Hd Hne Hfin Hw.
  exists (updated_front pff pfg pfd (repeat true (length pff))
            [cand] [g] [d] [false] true).
  split;
    [apply update_returns; exact (fi_added pff pfd pfg cand HL Hg Hd Hne Hfin Hw)
    |].
  unfold updated_front.
  cbn [new_mask new_front_fitnesses new_front_genotypes new_front_descriptors
       added_bool removed_count].
  rewrite (fi_kept_flags pff pfd pfg cand HL Hg Hd Hne Hfin Hw).
  rewrite (fi_fitnesses pff pfd pfg cand HL Hg Hd Hne Hfin Hw).
  rewrite (fi_genotypes pff pfd pfg cand g HL Hg Hd).
  rewrite (fi_descriptors pff pfd pfg cand d HL Hg Hd Hne Hfin Hw).
  repeat split.
  assert (H0 : forall n, count_true (map negb (repeat true n)) = 0)
    by (induction n; simpl; auto).
  assert (H1 : count_true (map negb (repeat true (length pff - 1) ++ [false]))
               = 1)
    by (exact (valid_count_flags (length pff - 1) 1)).
  rewrite H0, H1. reflexivity.
Qed.

Lemma first_insertion_into_empty_front_witness :
  exists u,
    update_masked_pareto_front ex_empty_fitnesses ex_empty_genotypes
      ex_empty_descriptors (repeat true (length ex_empty_fitnesses))
      [[F 3; F 3]] [[F 12]] [[F 22]] [false] = Some u
    /\ new_mask u = repeat true (length ex_empty_fitnesses - 1) ++ [false]
    /\ new_front_fitnesses u
       = repeat (repeat (F 0) (length [F 3; F 3]))
           (length ex_empty_fitnesses - 1) ++ [[F 3; F 3]]
    /\ new_front_genotypes u = repeat [F 12] (length ex_empty_fitnesses)
    /\ new_front_descriptors u
       = repeat (repeat (F 0) (length [F 22]))
           (length ex_empty_fitnesses - 1) ++ [[F 22]]
    /\ added_bool u = true
    /\ removed_count u = (-2)%Z.
Proof.
  apply (first_insertion_into_empty_front ex_empty_fitnesses
           ex_empty_descriptors ex_empty_genotypes [F 3; F 3] [F 12] [F 22]).
  - simpl. lia.
  - reflexivity.
  - reflexivity.
  - discriminate.
  - reflexivity.
  - vm_compute. reflexivity.
Defined.

(** ** Extreme entries and truncation *)

Lemma distance_plus_inf x : is_distance x = true -> fadd x PInf = PInf.
Proof. destruct x; simpl; try discriminate; auto. Qed.

Lemma inf_plus_distance x : is_distance x = true -> fadd PInf x = PInf.
Proof. destruct x; simpl; try discriminate; auto. Qed.

Lemma fadd_PInf_inv x y :
  is_distance x = true -> is_distance y = true ->
  fadd x y = PInf -> x = PInf \/ y = PInf.
Proof. destruct x, y; simpl; try discriminate; auto. Qed.

Lemma fsum_PInf_inv (l : list fl) :
  Forall (fun x => is_distance x = true) l -> fsum l = PInf -> In PInf l.
Proof.
  unfold fsum. induction 1 as [|x l Hx Hl IH]; cbn [fold_right]; intros E.
  - discriminate.
  - destruct (fadd_PInf_inv _ _ Hx (is_distance_fsum l Hl) E) as [->|E'].
    + now left.
    + right. now apply IH.
Qed.

Lemma fsum_PInf_intro (l : list fl) :
  Forall (fun x => is_distance x = true) l -> In PInf l -> fsum l = PInf.
Proof.
  unfold fsum. induction 1 as [|x l Hx Hl IH]; cbn [fold_right]; intros Hin.
  - destruct Hin.
  - destruct Hin as [->|Hin].
    + apply inf_plus_distance. now apply is_distance_fsum.
    + fold (fsum l). unfold fsum. rewrite IH by exact Hin.
      now apply distance_plus_inf.
Qed.

Lemma mean_PInf_inv x m :
  1 <= m -> is_distance x = true ->
  nan_to NInf (fdiv x (F (Z.of_nat m))) = PInf -> x = PInf.
Proof.
  intros Hm Hx E. destruct x as [a| | |]; try discriminate; auto.
  unfold F in E. rewrite fdiv_Fin_pos in E by (now apply qz_pos).
  discriminate.
Qed.

Section ColumnExtremes.
Variable fit : matrix.
Variable em : list bool.
Variable c : nat.
Variable A : Qc.

Hypothesis well_formed : front_well_formed fit em = true.
Hypothesis objective : c < shape1 fit.
Hypothesis amplitude : upd_score_amplitude fit em c = Fin A.
Hypothesis amplitude_pos : (0 < A)%Qc.

Local Abbreviation n := (length fit).
Local Abbreviation col := (column c fit).
Local Abbreviation sigma := (upd_sorted_index fit em c).
Local Abbreviation srt := (upd_srt_fitnesses fit em c).
Local Abbreviation e := (count_true em).

(** The two terms of a valid row. *)
Lemma upd_terms_valid i y :
  i < n -> nth i em false = false -> nth i col NaN = Fin y ->
  let p := nth i (argsort_nat sigma) 0 in
  p < n /\ nth p sigma 0 = i
  /\ nth i (upd_contribution fit em c) NaN
     = fadd (fdiv (fsub (Fin y) (before srt p)) (Fin A))
            (fdiv (fsub (after srt p) (Fin y)) (Fin A))
  /\ is_distance (fdiv (fsub (Fin y) (before srt p)) (Fin A)) = true
  /\ is_distance (fdiv (fsub (after srt p) (Fin y)) (Fin A)) = true.
Proof.
  intros Hi Hv Hy p.
  destruct (upd_rank_spec fit em c well_formed objective i Hi) as [Hp Es].
  fold p in Hp, Es.
  assert (Ep : nth p srt NaN = Fin y).
  { rewrite (upd_srt_nth fit em c well_formed objective) by exact Hp.
    rewrite Es. exact Hy. }
  split; [exact Hp|]. split; [exact Es|]. split.
  - rewrite (upd_contribution_nth fit em c well_formed objective) by exact Hi.
    fold p. rewrite Ep, amplitude. reflexivity.
  - rewrite <- Es in Hv, Hy. split.
    + destruct (upd_before_valid fit em c well_formed objective p y Hp Hv Hy)
        as [->|[y' ->]].
      * cbn [fsub fneg fadd]. rewrite fdiv_PInf; [reflexivity|].
        now apply Qclt_le_weak.
      * now apply gap_distance.
    + destruct (upd_after_valid fit em c well_formed objective p y Hp Hv Hy)
        as [->|[y' [-> _]]].
      * cbn [fsub fneg fadd]. rewrite fdiv_PInf; [reflexivity|].
        now apply Qclt_le_weak.
      * now apply gap_distance.
Qed.

(** Two rows in sorted order cannot carry strictly decreasing keys. *)
Lemma upd_keys_not_decreasing p q :
  p < q -> q < n ->
  fltb (nth (nth q sigma 0) (upd_dist_fitnesses fit em c) NaN)
    (nth (nth p sigma 0) (upd_dist_fitnesses fit em c) NaN) = false.
Proof.
  intros Hpq Hq.
  pose proof (upd_keys_sorted fit em c well_formed objective p q Hpq Hq) as Hs.
  destruct (nth (nth p sigma 0) (upd_dist_fitnesses fit em c) NaN) as [a| | |],
    (nth (nth q sigma 0) (upd_dist_fitnesses fit em c) NaN) as [b| | |];
    cbn [sort_leb fleb fltb] in *; try reflexivity; try discriminate.
  now rewrite Hs.
Qed.

(** A valid row whose key is strictly above that of every other valid row
    has no successor: it contributes +inf. *)
Lemma upd_contribution_top i :
  i < n -> nth i em false = false ->
  (forall j, j < n -> j <> i -> nth j em false = false ->
             fltb (nth j (upd_dist_fitnesses fit em c) NaN)
               (nth i (upd_dist_fitnesses fit em c) NaN) = true) ->
  nth i (upd_contribution fit em c) NaN = PInf.
Proof.
  intros Hi Hv Htop.
  destruct (col_cases fit em c well_formed objective i Hi)
    as [[Hb _]|[_ [y Hy]]]; [congruence|].
  destruct (upd_terms_valid i y Hi Hv Hy) as (Hp & Es & E & Hl & Hn).
  set (p := nth i (argsort_nat sigma) 0) in *.
  rewrite E.
  assert (Ea : after srt p = PInf).
  { rewrite <- Es in Hv, Hy.
    destruct (upd_after_valid fit em c well_formed objective p y Hp Hv Hy)
      as [Ea|[y' [Ea [Hlt Hv']]]]; auto.
    exfalso.
    assert (Hne : nth (S p) sigma 0 <> i).
    { rewrite <- Es. intros Eq.
      pose proof (upd_sigma_perm fit em c well_formed objective) as P.
      assert (Hnd : NoDup sigma)
        by (eapply Permutation_NoDup; [symmetry; exact P|apply seq_NoDup]).
      apply (proj1 (NoDup_nth sigma 0) Hnd) in Eq;
        rewrite ?(upd_sigma_length fit em c well_formed objective); lia. }
    pose proof (Htop _ (upd_sigma_lt fit em c well_formed objective (S p) Hlt)
                  Hne Hv') as Hf.
    rewrite <- Es in Hf.
    rewrite (upd_keys_not_decreasing p (S p)) in Hf by lia. discriminate. }
  rewrite Ea. cbn [fsub fneg fadd].
  rewrite (fdiv_PInf A) by (now apply Qclt_le_weak).
  now apply distance_plus_inf.
Qed.

(** A valid row whose key is strictly below that of every other valid row
    has no valid predecessor: it contributes +inf. *)
Lemma upd_contribution_bottom i :
  i < n -> nth i em false = false ->
  (forall j, j < n -> j <> i -> nth j em false = false ->
             fltb (nth i (upd_dist_fitnesses fit em c) NaN)
               (nth j (upd_dist_fitnesses fit em c) NaN) = true) ->
  nth i (upd_contribution fit em c) NaN = PInf.
Proof.
  intros Hi Hv Hbot.
  destruct (col_cases fit em c well_formed objective i Hi)
    as [[Hb _]|[_ [y Hy]]]; [congruence|].
  destruct (upd_terms_valid i y Hi Hv Hy) as (Hp & Es & E & Hl & Hn).
  set (p := nth i (argsort_nat sigma) 0) in *.
  rewrite E.
  assert (Eb : before srt p = NInf).
  { rewrite <- Es in Hv, Hy.
    destruct (upd_before_valid fit em c well_formed objective p y Hp Hv Hy)
      as [Eb|[y' Eb]]; auto.
    exfalso. unfold before in Eb. destruct p as [|p'] eqn:Ep; [discriminate|].
    rewrite (upd_srt_nth fit em c well_formed objective) in Eb by lia.
    assert (Hlt : nth p' sigma 0 < n)
      by (apply (upd_sigma_lt fit em c well_formed objective); lia).
    assert (Hv' : nth (nth p' sigma 0) em false = false).
    { destruct (col_cases fit em c well_formed objective _ Hlt)
        as [[_ Hx]|[Hb _]]; [congruence|exact Hb]. }
    assert (Hne : nth p' sigma 0 <> i).
    { rewrite <- Es. intros Eq.
      pose proof (upd_sigma_perm fit em c well_formed objective) as P.
      assert (Hnd : NoDup sigma)
        by (eapply Permutation_NoDup; [symmetry; exact P|apply seq_NoDup]).
      apply (proj1 (NoDup_nth sigma 0) Hnd) in Eq;
        rewrite ?(upd_sigma_length fit em c well_formed objective); lia. }
    pose proof (Hbot _ Hlt Hne Hv') as Hf.
    rewrite <- Es in Hf.
    rewrite (upd_keys_not_decreasing p' (S p')) in Hf by lia. discriminate. }
  rewrite Eb. cbn [fsub fneg fadd].
  rewrite (fdiv_PInf A) by (now apply Qclt_le_weak).
  now apply inf_plus_distance.
Qed.

(** Along the sorted order of the objective the empty rows come first. *)
Lemma upd_sorted_flags :
  take false em sigma = repeat true e ++ repeat false (n - e).
Proof.
  pose proof (upd_sigma_length fit em c well_formed objective) as Hl.
  pose proof (upd_sigma_perm fit em c well_formed objective) as P.
  pose proof (upd_mask_shape fit em well_formed) as Hs.
  assert (Hcount : count_true (take false em sigma) = e).
  { unfold count_true, take.
    rewrite (Permutation_filter_length id _ _
               (Permutation_map (fun i => nth i em false) P)).
    rewrite <- Hs, map_nth_seq. reflexivity. }
  rewrite (monotone_flags (take false em sigma)).
  - rewrite Hcount, take_length, Hl. reflexivity.
  - unfold take. apply StronglySorted_map.
    apply (StronglySorted_of_nth _ _ 0). intros p q Hpq Hq Hqe.
    rewrite Hl in Hq.
    apply (upd_empty_before fit em c well_formed objective p q); auto. lia.
Qed.

Lemma upd_count_le : e <= n.
Proof.
  rewrite <- (upd_mask_shape fit em well_formed). apply count_true_le.
Qed.

Lemma upd_position_flag p :
  p < n -> nth (nth p sigma 0) em false = (p <? e).
Proof.
  intros Hp.
  pose proof (upd_sigma_length fit em c well_formed objective) as Hl.
  pose proof upd_count_le as Hle.
  rewrite <- (take_nth false em sigma p) by (rewrite Hl; exact Hp).
  rewrite upd_sorted_flags.
  destruct (Nat.ltb_spec p e) as [H|H].
  - rewrite app_nth1 by (rewrite repeat_length; exact H).
    now apply nth_repeat_lt.
  - rewrite app_nth2 by (rewrite repeat_length; exact H).
    rewrite repeat_length. apply nth_repeat_lt. lia.
Qed.

(** A valid row that contributes +inf stands at the first valid position
    of the sorted column or at its last position. *)
Lemma upd_contribution_inf_position i :
  i < n -> nth i em false = false ->
  nth i (upd_contribution fit em c) NaN = PInf ->
  i = nth e sigma 0 \/ i = nth (n - 1) sigma 0.
Proof.
  intros Hi Hv Hinf.
  destruct (col_cases fit em c well_formed objective i Hi)
    as [[Hb _]|[_ [y Hy]]]; [congruence|].
  destruct (upd_terms_valid i y Hi Hv Hy) as (Hp & Es & E & Hl & Hn).
  set (p := nth i (argsort_nat sigma) 0) in *.
  rewrite E in Hinf.
  assert (Hpe : e <= p).
  { pose proof (upd_position_flag p Hp) as Hf. rewrite Es, Hv in Hf.
    symmetry in Hf. now apply Nat.ltb_ge in Hf. }
  destruct (fadd_PInf_inv _ _ Hl Hn Hinf) as [El|En].
  - left. rewrite <- Es. f_equal.
    destruct (Nat.eq_dec p e) as [|Hne]; auto. exfalso.
    unfold before in El. destruct p as [|p'] eqn:Ep; [lia|].
    rewrite (upd_srt_nth fit em c well_formed objective) in El by lia.
    assert (Hlt : nth p' sigma 0 < n)
      by (apply (upd_sigma_lt fit em c well_formed objective); lia).
    pose proof (upd_position_flag p' ltac:(lia)) as Hf.
    replace (p' <? e) with false in Hf by (symmetry; apply Nat.ltb_ge; lia).
    destruct (col_cases fit em c well_formed objective _ Hlt)
      as [[Hb _]|[_ [y' Hy']]]; [congruence|].
    rewrite Hy' in El. cbn [fsub fneg fadd] in El.
    rewrite fdiv_Fin_pos in El by exact amplitude_pos. discriminate.
  - right. rewrite <- Es. f_equal.
    destruct (Nat.eq_dec p (n - 1)) as [|Hne]; auto. exfalso.
    unfold after in En.
    rewrite (upd_srt_length fit em c well_formed objective) in En.
    replace (S p <? n) with true in En by (symmetry; apply Nat.ltb_lt; lia).
    rewrite (upd_srt_nth fit em c well_formed objective) in En by lia.
    assert (Hlt : nth (S p) sigma 0 < n)
      by (apply (upd_sigma_lt fit em c well_formed objective); lia).
    pose proof (upd_position_flag (S p) ltac:(lia)) as Hf.
    replace (S p <? e) with false in Hf by (symmetry; apply Nat.ltb_ge; lia).
    destruct (col_cases fit em c well_formed objective _ Hlt)
      as [[Hb _]|[_ [y' Hy']]]; [congruence|].
    rewrite Hy' in En. cbn [fsub fneg fadd] in En.
    rewrite fdiv_Fin_pos in En by exact amplitude_pos. discriminate.
Qed.
End ColumnExtremes.

Lemma column_nth c (M : matrix) i :
  i < length M -> nth i (column c M) NaN = nth c (nth i M []) NaN.
Proof.
  intros Hi. unfold column.
  rewrite (nth_indep _ NaN ((fun r : row => nth c r NaN) []))
    by (rewrite length_map; exact Hi).
  apply (map_nth (fun r : row => nth c r NaN)).
Qed.

Lemma flat_map_pairs {X Y} (f g : X -> Y) (l : list X) :
  length (flat_map (fun c => [f c; g c]) l) = 2 * length l.
Proof. induction l as [|x l IH]; simpl in *; lia. Qed.

Section BufferExtremes.
Variable fit : matrix.
Variable em : list bool.

Hypothesis well_formed : front_well_formed fit em = true.
Hypothesis amplitudes :
  forall c, c < shape1 fit ->
            exists A, upd_score_amplitude fit em c = Fin A /\ (0 < A)%Qc.

Local Abbreviation n := (length fit).
Local Abbreviation m := (shape1 fit).
Local Abbreviation crowd := (upd_crowding_distances fit em m).
Local Abbreviation ends :=
  (flat_map (fun c => [nth (count_true em) (upd_sorted_index fit em c) 0;
                       nth (n - 1) (upd_sorted_index fit em c) 0])
     (seq 0 m)).

Lemma upd_terms_distance i :
  i < n -> nth i em false = false ->
  Forall (fun x => is_distance x = true)
    (map (fun c => nth i (upd_contribution fit em c) NaN) (seq 0 m)).
Proof.
  intros Hi Hv. apply Forall_forall. intros x Hx. apply in_map_iff in Hx.
  destruct Hx as [c [<- Hc]]. apply in_seq in Hc.
  destruct (amplitudes c ltac:(lia)) as [A [EA HA]].
  apply (upd_contribution_valid fit em c well_formed ltac:(lia) A); auto.
Qed.

(** A valid row that contributes +inf on one objective has crowding
    distance +inf. *)
Lemma upd_crowd_inf_intro i c :
  i < n -> nth i em false = false -> c < m ->
  nth i (upd_contribution fit em c) NaN = PInf ->
  nth i crowd NaN = PInf.
Proof.
  intros Hi Hv Hc E.
  rewrite (upd_crowd_nth fit em) by exact Hi.
  rewrite fsum_PInf_intro.
  - unfold F. rewrite fdiv_PInf; [reflexivity|].
    apply Qclt_le_weak, qz_pos. lia.
  - now apply upd_terms_distance.
  - rewrite <- E. apply in_map_iff. exists c. split; [reflexivity|].
    apply in_seq. lia.
Qed.

(** A row with crowding distance +inf is one of the two end rows of some
    objective. *)
Lemma upd_crowd_inf_ends i :
  i < n -> nth i crowd NaN = PInf -> In i ends.
Proof.
  intros Hi E.
  pose proof (objectives_pos fit em well_formed) as Hm.
  assert (Hv : nth i em false = false).
  { destruct (nth i em false) eqn:Eb; auto.
    rewrite (upd_crowd_empty fit em well_formed i Hi Eb) in E. discriminate. }
  rewrite (upd_crowd_nth fit em) in E by exact Hi.
  pose proof (upd_terms_distance i Hi Hv) as Hd.
  apply mean_PInf_inv in E; [|exact Hm|now apply is_distance_fsum].
  apply fsum_PInf_inv in E; [|exact Hd].
  apply in_map_iff in E. destruct E as [c [Ec Hc]]. apply in_seq in Hc.
  destruct (amplitudes c ltac:(lia)) as [A [EA HA]].
  apply in_flat_map. exists c. split; [apply in_seq; lia|].
  destruct (upd_contribution_inf_position fit em c A well_formed ltac:(lia)
              EA HA i Hi Hv Ec) as [-> | ->]; [now left|right; now left].
Qed.

Lemma ends_length : length ends = 2 * m.
Proof. rewrite flat_map_pairs, length_seq. reflexivity. Qed.
End BufferExtremes.

Section KeptExtremes.
Variables pff nbf : matrix.
Variables mask nmask : list bool.

Hypothesis mask_shape : length mask = length pff.
Hypothesis new_mask_shape : length nmask = length nbf.
Hypothesis objectives : 1 <= num_criteria nbf.
Hypothesis widths : uniform_rows (num_criteria nbf) (pff ++ nbf) = true.
Hypothesis front_finite : valid_finite pff mask = true.
Hypothesis batch_finite : valid_finite nbf nmask = true.
Hypothesis amplitudes : upd_positive_amplitudes pff mask nbf nmask = true.

Local Abbreviation L := (length pff).
Local Abbreviation B := (length nbf).
Local Abbreviation m := (num_criteria nbf).
Local Abbreviation nf := (num_front_elements pff mask nbf nmask).
Local Abbreviation idx := (indices pff mask nbf nmask).
Local Abbreviation aff := (all_front_fitnesses pff mask nbf nmask).
Local Abbreviation emask := (empty_mask pff mask nbf nmask).
Local Abbreviation crowd := (crowding_distances pff mask nbf nmask).
Local Abbreviation keep := (keep_indices pff mask nbf nmask).

Lemma buffer_amplitudes c :
  c < shape1 aff ->
  exists A, upd_score_amplitude aff emask c = Fin A /\ (0 < A)%Qc.
Proof.
  intros Hc.
  rewrite (buffer_shape1 pff nbf mask nmask mask_shape new_mask_shape
             objectives widths front_finite batch_finite) in Hc.
  unfold upd_positive_amplitudes in amplitudes.
  rewrite forallb_forall in amplitudes.
  specialize (amplitudes c ltac:(apply in_seq; lia)).
  destruct (upd_score_amplitude aff emask c) as [A| | |]; try discriminate.
  exists A. split; [reflexivity|].
  apply negb_true_iff in amplitudes. now apply (proj1 (Qle_bool_Qclt A 0%Qc)).
Qed.

(** With a capacity of at least two slots per objective, a row with
    crowding distance +inf is never truncated. *)
Lemma infinite_distance_kept k :
  2 * m <= L -> k < L + B -> nth k crowd NaN = PInf -> In k keep.
Proof.
  intros Hcap Hk Einf.
  pose proof (buffer_well_formed pff nbf mask nmask mask_shape new_mask_shape
                objectives widths front_finite batch_finite) as WF.
  pose proof (buffer_shape1 pff nbf mask nmask mask_shape new_mask_shape
                objectives widths front_finite batch_finite) as Hsh.
  pose proof (crowding_distances_buffer pff nbf mask nmask mask_shape
                new_mask_shape objectives widths front_finite batch_finite)
    as Ecrowd.
  pose proof (all_front_fitnesses_length pff mask nbf nmask mask_shape
                new_mask_shape) as Hl.
  assert (HL : 1 <= L) by lia.
  destruct (in_dec Nat.eq_dec k keep) as [|Hnot]; auto. exfalso.
  assert (Hall : forall x, In x (k :: keep) ->
                           In x (flat_map
                                   (fun c =>
                                      [nth (count_true emask)
                                         (upd_sorted_index aff emask c) 0;
                                       nth (length aff - 1)
                                         (upd_sorted_index aff emask c) 0])
                                   (seq 0 (shape1 aff)))).
  { intros x Hx.
    assert (Hxl : x < L + B).
    { destruct Hx as [<-|Hx]; auto.
      now apply (keep_indices_lt pff mask nbf nmask mask_shape new_mask_shape). }
    assert (Ex : nth x crowd NaN = PInf).
    { destruct Hx as [<-|Hx]; auto.
      pose proof (lastn_argsort_rank crowd L x k HL
                    (crowding_distances_not_nan pff mask nbf nmask)) as R.
      unfold keep_indices, sorted_distances_index, pareto_front_len in Hx, Hnot.
      specialize (R Hx).
      rewrite (crowding_distances_length pff mask nbf nmask mask_shape
                 new_mask_shape) in R.
      specialize (R Hk Hnot). rewrite Einf in R.
      destruct R as [R|[R _]]; [|auto].
      destruct (nth x crowd NaN); discriminate. }
    rewrite Ecrowd in Ex.
    apply (upd_crowd_inf_ends aff emask WF buffer_amplitudes x); auto.
    rewrite Hl. exact Hxl. }
  assert (Hnd : NoDup (k :: keep))
    by (constructor; [exact Hnot|apply keep_indices_NoDup]).
  pose proof (NoDup_incl_length Hnd Hall) as Hlen.
  rewrite (ends_length aff emask) in Hlen. cbn [length] in Hlen.
  rewrite (keep_indices_length pff mask nbf nmask mask_shape new_mask_shape HL)
    in Hlen.
  rewrite Hsh in Hlen. lia.
Qed.

(** The value of objective [c] in a row of the front. *)
Lemma buffer_column_front c k :
  k < nf ->
  nth k (column c aff) NaN
  = nth c (nth (nth k idx 0) (cat_fitnesses pff nbf) []) NaN.
Proof.
  intros Hk.
  pose proof (num_front_elements_le pff mask nbf nmask mask_shape
                new_mask_shape) as Hle.
  rewrite column_nth
    by (rewrite (all_front_fitnesses_length pff mask nbf nmask mask_shape
                   new_mask_shape); lia).
  rewrite (buffer_row pff nbf mask nmask mask_shape new_mask_shape
             objectives widths front_finite batch_finite) by lia.
  now replace (k <? nf) with true by (symmetry; apply Nat.ltb_lt; exact Hk).
Qed.

(** An entry of the front that is strictly the best, or strictly the
    worst, of the front on one objective has crowding distance +inf, when
    rounding merges no two keys of that objective. *)
Lemma extreme_row_infinite k c :
  k < nf -> c < m ->
  upd_keys_separate pff mask nbf nmask c = true ->
  let v j := nth c (nth j (cat_fitnesses pff nbf) []) NaN in
  (forall j, j <> nth k idx 0 ->
             nth j (cat_bool_front pff mask nbf nmask) false = true ->
             fltb (v j) (v (nth k idx 0)) = true)
  \/ (forall j, j <> nth k idx 0 ->
                nth j (cat_bool_front pff mask nbf nmask) false = true ->
                fltb (v (nth k idx 0)) (v j) = true) ->
  nth k crowd NaN = PInf.
Proof.
  intros Hk Hc Hsep v Hext.
  pose proof (buffer_well_formed pff nbf mask nmask mask_shape new_mask_shape
                objectives widths front_finite batch_finite) as WF.
  pose proof (buffer_shape1 pff nbf mask nmask mask_shape new_mask_shape
                objectives widths front_finite batch_finite) as Hsh.
  pose proof (all_front_fitnesses_length pff mask nbf nmask mask_shape
                new_mask_shape) as Hl.
  pose proof (num_front_elements_le pff mask nbf nmask mask_shape
                new_mask_shape) as Hle.
  assert (Hflag : forall j, j < L + B -> nth j emask false = (nf <=? j))
    by (intros j Hj;
        now apply (empty_mask_flags pff nbf mask nmask mask_shape
                     new_mask_shape objectives widths front_finite
                     batch_finite)).
  assert (Hv : nth k emask false = false)
    by (rewrite Hflag by lia; now apply Nat.leb_gt).
  assert (Hother : forall j, j < length aff -> j <> k ->
                             nth j emask false = false ->
                             j < nf /\ nth j idx 0 <> nth k idx 0
                             /\ nth (nth j idx 0)
                                  (cat_bool_front pff mask nbf nmask) false
                                = true).
  { intros j Hj Hne Hvj. rewrite Hl in Hj. rewrite Hflag in Hvj by exact Hj.
    apply Nat.leb_gt in Hvj. split; [exact Hvj|]. split.
    - now apply (indices_injective pff mask nbf nmask mask_shape
                   new_mask_shape).
    - now apply indices_marked. }
  destruct (buffer_amplitudes c ltac:(rewrite Hsh; exact Hc)) as [A [EA HA]].
  rewrite (crowding_distances_buffer pff nbf mask nmask mask_shape
             new_mask_shape objectives widths front_finite batch_finite).
  apply (upd_crowd_inf_intro aff emask WF buffer_amplitudes k c);
    [rewrite Hl; lia|exact Hv|rewrite Hsh; exact Hc|].
  destruct Hext as [Htop|Hbot].
  - apply (upd_contribution_top aff emask c A WF ltac:(rewrite Hsh; exact Hc)
             EA HA); [rewrite Hl; lia|exact Hv|].
    intros j Hj Hne Hvj. destruct (Hother j Hj Hne Hvj) as (Hjn & Hji & Hjm).
    apply (keys_separate_nth _ _ j k Hsep);
      rewrite ?column_length; [exact Hj|rewrite Hl; lia|].
    rewrite !buffer_column_front by assumption. now apply Htop.
  - apply (upd_contribution_bottom aff emask c A WF
             ltac:(rewrite Hsh; exact Hc) EA HA); [rewrite Hl; lia|exact Hv|].
    intros j Hj Hne Hvj. destruct (Hother j Hj Hne Hvj) as (Hjn & Hji & Hjm).
    apply (keys_separate_nth _ _ k j Hsep);
      rewrite ?column_length; [rewrite Hl; lia|exact Hj|].
    rewrite !buffer_column_front by assumption. now apply Hbot.
Qed.
End KeptExtremes.



(** ** The slot drawn by the per-front sampler *)

Lemma qtotal_pos_inv gs :
  Forall (fun g => 0 <= g)%Qc gs -> (0 < qtotal gs)%Qc ->
  exists g, In g gs /\ (0 < g)%Qc.
Proof.
  induction 1 as [|x t Hx Ht IH]; cbn [qtotal fold_right]; intros Hpos.
  - exfalso. revert Hpos. apply Qcle_not_lt, Qcle_refl.
  - destruct (Qcle_lt_or_eq _ _ Hx) as [Hlt|Heq].
    + exists x. split; [now left|exact Hlt].
    + subst x. fold (qtotal t) in Hpos.
      destruct IH as [g [Hg Hg']].
      * revert Hpos. generalize (qtotal t). intros T HT. qc_lra.
      * exists g. split; [now right|exact Hg'].
Qed.

(** The selection probabilities as weights: non-negative rationals, one of
    them positive, zero on every empty slot. *)
Lemma selection_probs_weights fit bm :
  front_well_formed fit bm = true ->
  1 <= valid_count bm ->
  (3 <= valid_count bm ->
   positive_amplitudes fit bm = true /\ smp_keys_separate fit bm = true) ->
  exists qs,
    selection_probs fit bm = map Fin qs
    /\ length qs = length bm
    /\ Forall (fun q => 0 <= q)%Qc qs
    /\ (exists q, In q qs /\ (0 < q)%Qc)
    /\ forall i, i < length bm -> nth i bm false = true -> nth i qs 0%Qc = 0%Qc.
Proof.
  intros WF H1 Hamp. rewrite selection_probs_branch.
  destruct (Nat.leb_spec (valid_count bm) 2) as [Hle|Hgt].
  - rewrite equal_probabilities_uniform by exact H1.
    set (w := (1 / qz (Z.of_nat (valid_count bm)))%Qc).
    pose proof (one_over_pos (valid_count bm) H1) as Hw. fold w in Hw.
    exists (map (fun b : bool => if b then 0%Qc else w) bm).
    split; [|split; [|split; [|split]]].
    + rewrite map_map. apply map_ext. intros []; reflexivity.
    + apply length_map.
    + apply Forall_forall. intros q Hq. apply in_map_iff in Hq.
      destruct Hq as [b [<- _]]. destruct b;
        [apply Qcle_refl|now apply Qclt_le_weak].
    + destruct (valid_count_index bm H1) as [i [Hi Hb]].
      exists w. split; [|exact Hw].
      apply in_map_iff. exists false. split; [reflexivity|].
      rewrite <- Hb. now apply nth_In.
    + intros i Hi Hb.
      set (f := fun b : bool => if b then 0%Qc else w).
      rewrite (nth_indep _ 0%Qc (f false)) by (rewrite length_map; exact Hi).
      rewrite (map_nth f), Hb. reflexivity.
  - assert (H2 : 2 <= valid_count bm) by lia.
    destruct (Hamp ltac:(lia)) as [Hpa Hsep].
    destruct (crowd_as_rationals fit bm WF H2 Hpa Hsep) as [E [Hnn Hpos]].
    set (crowd := smp_crowding_distances (not_empty_mask bm) fit) in *.
    set (gs := map to_qc crowd) in *.
    assert (HS : nansum crowd = Fin (qtotal gs)).
    { unfold nansum. rewrite E, nan_to_map_Fin. apply fsum_map_Fin. }
    unfold compute_crowding_distances. fold crowd. rewrite HS, E.
    exists (map (fun g => (g / qtotal gs)%Qc) gs).
    assert (Hlen : length gs = length bm).
    { unfold gs. rewrite length_map. unfold crowd.
      rewrite (crowd_length fit bm). apply (well_formed_shape fit bm WF). }
    split; [|split; [|split; [|split]]].
    + rewrite !map_map. apply map_ext. intros g.
      now apply fdiv_Fin_pos.
    + now rewrite length_map.
    + apply Forall_forall. intros q Hq. apply in_map_iff in Hq.
      destruct Hq as [g [<- Hg]]. rewrite Forall_forall in Hnn.
      apply Qc_div_nonneg; auto.
    + destruct (qtotal_pos_inv gs Hnn Hpos) as [g [Hg Hg']].
      exists (g / qtotal gs)%Qc.
      split; [exact (in_map (fun g => (g / qtotal gs)%Qc) gs g Hg)|].
      now apply Qc_div_pos.
    + intros i Hi Hb.
      assert (Hi' : i < length fit)
        by (rewrite (well_formed_shape fit bm WF); exact Hi).
      destruct (crowd_entry fit bm WF H2 Hpa Hsep i Hi') as [G [EG [_ Hz]]].
      fold crowd in EG.
      assert (Eg : nth i gs 0%Qc = 0%Qc).
      { unfold gs.
        rewrite (nth_indep _ 0%Qc (to_qc NaN))
          by (rewrite length_map; unfold crowd; rewrite (crowd_length fit bm);
              exact Hi').
        rewrite (map_nth to_qc), EG. simpl. now apply Hz. }
      set (f := fun g => (g / qtotal gs)%Qc).
      rewrite (nth_indep _ 0%Qc (f 0%Qc)) by (rewrite length_map; lia).
      rewrite (map_nth f), Eg. unfold f, Qcdiv. ring.
Qed.

Lemma well_formed_valid_row fit bm i :
  front_well_formed fit bm = true ->
  i < length bm -> nth i bm false = false ->
  forallb is_finite (nth i fit []) = true.
Proof.
  intros WF Hi Hb. pose proof (well_formed_shape fit bm WF) as Hs.
  unfold front_well_formed in WF. apply andb_true_iff in WF.
  destruct WF as [_ WF].
  pose proof (forallb_map2_nth _ _ _ [] false i WF ltac:(lia) Hi) as E.
  cbv beta in E. rewrite Hb in E. apply andb_true_iff in E. tauto.
Qed.

(** The slot drawn is in range and valid. *)
Lemma sampled_slot_support fit bm u :
  front_well_formed fit bm = true ->
  1 <= valid_count bm ->
  (3 <= valid_count bm ->
   positive_amplitudes fit bm = true /\ smp_keys_separate fit bm = true) ->
  (0 <= u)%Qc -> (u < 1)%Qc ->
  sampled_slot fit bm u < length bm
  /\ nth (sampled_slot fit bm u) bm true = false.
Proof.
  intros WF H1 Hamp Hu0 Hu1. unfold sampled_slot.
  destruct (selection_probs_weights fit bm WF H1 Hamp)
    as (qs & E & Hlen & Hnn & [q [Hq Hpos]] & Hz).
  rewrite E.
  destruct (choice_index_support qs u q Hnn Hq Hpos Hu0 Hu1) as [Hi Hw].
  rewrite Hlen in Hi. split; [exact Hi|].
  rewrite (nth_indep _ true false) by exact Hi.
  destruct (nth (choice_index (map Fin qs) u) bm false) eqn:Eb; auto.
  rewrite (Hz _ Hi Eb) in Hw.
  exfalso. revert Hw. apply Qcle_not_lt, Qcle_refl.
Qed.



(** ** The archive sampler on a well-formed archive *)

Lemma occupied_valid_count (bm : list bool) :
  existsb negb bm = true -> 1 <= valid_count bm.
Proof.
  unfold valid_count, count_true. induction bm as [|b bm IH]; simpl;
    [discriminate|].
  destruct b; simpl; auto. lia.
Qed.

Lemma repertoire_empty_nth r c :
  nth c (repertoire_empty r) [] = front_mask (nth c (fitnesses r) []).
Proof.
  unfold repertoire_empty.
  change [] with (front_mask []) at 1.
  apply (map_nth front_mask).
Qed.

Lemma occupied_cells_nth r c :
  c < length (fitnesses r) ->
  nth c (occupied_cells r) false
  = existsb negb (front_mask (nth c (fitnesses r) [])).
Proof.
  intros Hc. unfold occupied_cells.
  rewrite (nth_indep _ false (existsb negb []))
    by (unfold repertoire_empty; rewrite !length_map; exact Hc).
  rewrite (map_nth (existsb negb)). now rewrite repertoire_empty_nth.
Qed.



(** ** The archive before the first addition *)

Lemma map_repeat {X Y} (f : X -> Y) x n : map f (repeat x n) = repeat (f x) n.
Proof. induction n as [|n IH]; simpl; [|rewrite IH]; reflexivity. Qed.

Lemma count_true_repeat_false n : count_true (repeat false n) = 0.
Proof. unfold count_true. induction n; simpl; auto. Qed.

Lemma no_valid_slot n : existsb negb (repeat true n) = false.
Proof. induction n; simpl; auto. Qed.

(** X14.  The archive that [init] allocates, before the first batch is
    added, has the shape of the arguments and is empty in the sense
    [sample] uses: with at least one objective, every slot of every cell is
    flagged empty and no cell is occupied, so the cell probabilities of
    [sample] are all NaN. *)
Theorem default_repertoire_empty
    (genotypes0 : list genotype) (fitnesses0 descriptors0 centroids0 : matrix)
    (pareto_front_max_length : nat) :
  1 <= shape1 fitnesses0 ->
  let r := default_repertoire genotypes0 fitnesses0 descriptors0 centroids0
             pareto_front_max_length in
  length (fitnesses r) = length centroids0
  /\ length (genotypes r) = length centroids0
  /\ length (descriptors r) = length centroids0
  /\ repertoire_empty r
     = repeat (repeat true pareto_front_max_length) (length centroids0)
  /\ occupied_cells r = repeat false (length centroids0)
  /\ cell_probs r = repeat NaN (length centroids0).
Proof.
  intros Hm r.
  assert (Hrow : existsb (fun x => feqb x NInf)
                   (repeat (fmul (fneg PInf) (F 1)) (shape1 fitnesses0)) = true).
  { destruct (shape1 fitnesses0); [lia|]. reflexivity. }
  assert (He : repertoire_empty r
               = repeat (repeat true pareto_front_max_length)
                   (length centroids0)).
  { unfold repertoire_empty, r, default_repertoire, default_fitnesses.
    cbn [fitnesses]. rewrite !map_repeat, Hrow. reflexivity. }
  assert (Ho : occupied_cells r = repeat false (length centroids0)).
  { unfold occupied_cells. rewrite He, map_repeat. f_equal.
    apply no_valid_slot. }
  unfold r at 1 2 3. unfold default_repertoire, default_fitnesses,
    default_genotypes, default_descriptors.
  cbn [fitnesses genotypes descriptors]. rewrite !repeat_length.
  repeat split; auto.
  unfold cell_probs. rewrite Ho, count_true_repeat_false, map_repeat.
  reflexivity.
Qed.

Lemma default_repertoire_empty_witness :
  let r := default_repertoire [[F 1]] [[F 1; F 2]] [[F 0]] [[F 0]; [F 10]] 3 in
  length (fitnesses r) = length [[F 0]; [F 10]]
  /\ length (genotypes r) = length [[F 0]; [F 10]]
  /\ length (descriptors r) = length [[F 0]; [F 10]]
  /\ repertoire_empty r = repeat (repeat true 3) (length [[F 0]; [F 10]])
  /\ occupied_cells r = repeat false (length [[F 0]; [F 10]])
  /\ cell_probs r = repeat NaN (length [[F 0]; [F 10]]).
Proof.
  apply (default_repertoire_empty [[F 1]] [[F 1; F 2]] [[F 0]]
           [[F 0]; [F 10]] 3).
  vm_compute. lia.
Defined.

(** ** The emitters the bandit constructors build *)

Section EmitterFacts.
Variables Network Env Variation : Type.
Variable config : Bandit.BanditMOPGAConfig.
Variable policy_network : Network.
Variable env : Env.
Variable variation_fn : Variation.

Local Abbreviation n := (Bandit.num_objective_functions config).
Local Abbreviation mopga :=
  (BanditMOPGAEmitter config policy_network env variation_fn).
Local Abbreviation many :=
  (BanditManyEmitters config policy_network env variation_fn).
Local Abbreviation ga :=
  (ga_emitter (Network := Network) (Env := Env) config variation_fn).

(** X15.  [BanditMOPGAEmitter] builds one policy-gradient emitter per
    objective, in the order of the objectives, followed by one GA emitter:
    [num_emitters] is the number of objectives plus one, the emitter at
    position [k] below the number of objectives works on objective [k], the
    last one is the GA emitter, and every emitter is built with the whole
    [total_batch_size]. *)
Theorem bandit_mopga_emitters :
  num_emitters mopga = n + 1
  /\ length (emitters mopga) = num_emitters mopga
  /\ (forall k, k < n ->
                emitter_objective (nth k (emitters mopga) ga) = Some k)
  /\ nth n (emitters mopga) ga = ga
  /\ emitter_objective ga = None
  /\ Forall (fun e => emitter_batch_size e = Bandit.total_batch_size config)
       (emitters mopga).
Proof.
  unfold BanditMOPGAEmitter, multi_emitter. cbn [num_emitters emitters].
  rewrite length_app, length_map, length_seq. cbn [length].
  split; [reflexivity|]. split; [reflexivity|]. split; [|split; [|split]].
  - intros k Hk.
    rewrite app_nth1 by (rewrite length_map, length_seq; exact Hk).
    set (f := fun objective_index =>
                q_emitter Network Env Variation config policy_network env
                  objective_index
                  (PyInt (Bandit.num_critic_training_steps config))
                  (PyInt (Bandit.num_pg_training_steps config))).
    rewrite (nth_indep _ ga (f 0)) by (rewrite length_map, length_seq; exact Hk).
    rewrite (map_nth f), seq_nth by exact Hk. reflexivity.
  - rewrite app_nth2 by (rewrite length_map, length_seq; lia).
    rewrite length_map, length_seq, Nat.sub_diag. reflexivity.
  - reflexivity.
  - apply Forall_app. split.
    + apply Forall_forall. intros e He. apply in_map_iff in He.
      destruct He as [k [<- _]]. reflexivity.
    + constructor; [reflexivity|constructor].
Qed.

Lemma many_emitters_length (l : list nat) :
  length (flat_map (many_emitters_of Network Env Variation config
                      policy_network env) l)
  = 5 * length l.
Proof. induction l as [|x l IH]; simpl in *; lia. Qed.

Lemma many_emitters_nth s len k j d :
  k < len -> j < 5 ->
  nth (5 * k + j)
    (flat_map (many_emitters_of Network Env Variation config
                 policy_network env) (seq s len)) d
  = nth j (many_emitters_of Network Env Variation config policy_network env
             (s + k)) d.
Proof.
  revert s k; induction len as [|len IH]; intros s k Hk Hj; [lia|].
  cbn [seq flat_map]. destruct k as [|k].
  - rewrite app_nth1 by (simpl; lia).
    rewrite Nat.mul_0_r, Nat.add_0_l, Nat.add_0_r. reflexivity.
  - rewrite app_nth2 by (simpl; lia).
    replace (5 * S k + j - length (many_emitters_of Network Env Variation
                                     config policy_network env s))
      with (5 * k + j) by (simpl; lia).
    rewrite IH by lia. f_equal. f_equal. lia.
Qed.

(** X16.  [BanditManyEmitters] builds five policy-gradient emitters per
    objective, followed by one GA emitter: [num_emitters] is five times the
    number of objectives plus one; the emitter at position [5 k + j]
    ([j < 5]) works on objective [k]; within an objective the critic steps
    are 1, 2, 5, 1 and 1 times those of the configuration and the
    policy-gradient steps 1, 1, 1, 1/2 and 2 times, the half being a float
    whatever the configured integer. *)
Theorem bandit_many_emitters :
  num_emitters many = 5 * n + 1
  /\ length (emitters many) = num_emitters many
  /\ nth (5 * n) (emitters many) ga = ga
  /\ forall k j, k < n -> j < 5 ->
       let e := nth (5 * k + j) (emitters many) ga in
       let critic := Bandit.num_critic_training_steps config in
       let pg := Bandit.num_pg_training_steps config in
       emitter_objective e = Some k
       /\ emitter_batch_size e = Bandit.total_batch_size config
       /\ emitter_steps e
          = Some (nth j [PyInt critic; PyInt (2 * critic); PyInt (5 * critic);
                         PyInt critic; PyInt critic] (PyInt 0),
                  nth j [PyInt pg; PyInt pg; PyInt pg;
                         PyFloat ((1 # 2) * inject_Z pg); PyInt (2 * pg)]
                    (PyInt 0)).
Proof.
  unfold BanditManyEmitters, multi_emitter. cbn [num_emitters emitters].
  rewrite length_app, many_emitters_length, length_seq. cbn [length].
  split; [reflexivity|]. split; [reflexivity|]. split.
  - rewrite app_nth2 by (rewrite many_emitters_length, length_seq; lia).
    rewrite many_emitters_length, length_seq, Nat.sub_diag. reflexivity.
  - intros k j Hk Hj.
    rewrite app_nth1 by (rewrite many_emitters_length, length_seq; lia).
    rewrite many_emitters_nth by assumption. cbn [Nat.add].
    destruct j as [|[|[|[|[|j]]]]]; try lia; cbv zeta;
      repeat split; reflexivity.
Qed.
End EmitterFacts.
